(** * MJIT: the bytecode-to-C translator (mjit_compile.c) and the JIT
    engine's unit queue and worker protocol (mjit.c), shallowly embedded.

    Part 1 models [mjit_compile] and its helpers: every [fprintf] to the
    output file is one [line] (its format string and its integer or string
    arguments, the trailing newline dropped), the [compile_status] is
    threaded explicitly and [compile_branch] is passed by value.
    Part 2 models the doubly-linked unit queue as a heap of unit records.
    Part 3 models the worker thread, the GC hooks and the client as a step
    relation over the engine's shared flags. *)

From Stdlib Require Import ZArith String List Bool Ascii ZifyN.
From stdpp Require Import base gmap list.

Open Scope Z_scope.

(* ================================================================= *)
(** ** Part 1: the translator *)

(** 32-bit [unsigned int] wrap-around. *)
Definition u32 (x : Z) : Z := x mod 2 ^ 32.

(** YARV instruction opcodes (the [YARVINSN_*] enumeration of the VM's
    instruction table, [insns.inc]).  [YARVINSN_other] stands for any
    opcode of that table that [compile_insn] has no case for and that is
    not listed here by name. *)
Inductive insn :=
| YARVINSN_nop | YARVINSN_getlocal | YARVINSN_setlocal
| YARVINSN_getblockparam | YARVINSN_setblockparam | YARVINSN_getblockparamproxy
| YARVINSN_getspecial | YARVINSN_setspecial
| YARVINSN_getinstancevariable | YARVINSN_setinstancevariable
| YARVINSN_getclassvariable | YARVINSN_setclassvariable
| YARVINSN_getconstant | YARVINSN_setconstant
| YARVINSN_getglobal | YARVINSN_setglobal
| YARVINSN_putnil | YARVINSN_putself | YARVINSN_putobject
| YARVINSN_putspecialobject | YARVINSN_putiseq | YARVINSN_putstring
| YARVINSN_concatstrings | YARVINSN_tostring | YARVINSN_freezestring
| YARVINSN_toregexp | YARVINSN_intern | YARVINSN_newarray | YARVINSN_duparray
| YARVINSN_expandarray | YARVINSN_concatarray | YARVINSN_splatarray
| YARVINSN_newhash | YARVINSN_newrange | YARVINSN_pop | YARVINSN_dup
| YARVINSN_dupn | YARVINSN_swap | YARVINSN_reverse | YARVINSN_reput
| YARVINSN_topn | YARVINSN_setn | YARVINSN_adjuststack | YARVINSN_defined
| YARVINSN_checkmatch | YARVINSN_checkkeyword | YARVINSN_trace2
| YARVINSN_defineclass | YARVINSN_send | YARVINSN_opt_str_freeze
| YARVINSN_opt_str_uminus | YARVINSN_opt_newarray_max
| YARVINSN_opt_newarray_min | YARVINSN_opt_send_without_block
| YARVINSN_invokesuper | YARVINSN_invokeblock | YARVINSN_leave
| YARVINSN_throw | YARVINSN_jump | YARVINSN_branchif | YARVINSN_branchunless
| YARVINSN_branchnil | YARVINSN_branchiftype | YARVINSN_getinlinecache
| YARVINSN_setinlinecache | YARVINSN_once | YARVINSN_opt_case_dispatch
| YARVINSN_opt_plus | YARVINSN_opt_minus | YARVINSN_opt_mult | YARVINSN_opt_div
| YARVINSN_opt_mod | YARVINSN_opt_eq | YARVINSN_opt_neq | YARVINSN_opt_lt
| YARVINSN_opt_le | YARVINSN_opt_gt | YARVINSN_opt_ge | YARVINSN_opt_ltlt
| YARVINSN_opt_aref | YARVINSN_opt_aset | YARVINSN_opt_aset_with
| YARVINSN_opt_aref_with | YARVINSN_opt_length | YARVINSN_opt_size
| YARVINSN_opt_empty_p | YARVINSN_opt_succ | YARVINSN_opt_not
| YARVINSN_opt_regexpmatch1 | YARVINSN_opt_regexpmatch2
| YARVINSN_opt_call_c_function | YARVINSN_bitblt | YARVINSN_answer
| YARVINSN_getlocal_OP__WC__0 | YARVINSN_getlocal_OP__WC__1
| YARVINSN_setlocal_OP__WC__0 | YARVINSN_setlocal_OP__WC__1
| YARVINSN_putobject_OP_INT2FIX_O_0_C_ | YARVINSN_putobject_OP_INT2FIX_O_1_C_
| YARVINSN_other (opcode : Z).

(** [insn_len]: 1 + the number of operands, from the VM's instruction
    table ([insns_info.inc], generated from [insns.def]); it agrees with
    the operand indices [compile_insn] reads. *)
Definition insn_len (i : insn) : Z :=
  match i with
  | YARVINSN_nop | YARVINSN_putnil | YARVINSN_putself | YARVINSN_tostring
  | YARVINSN_intern | YARVINSN_concatarray | YARVINSN_pop | YARVINSN_dup
  | YARVINSN_swap | YARVINSN_reput | YARVINSN_leave | YARVINSN_bitblt
  | YARVINSN_answer | YARVINSN_putobject_OP_INT2FIX_O_0_C_
  | YARVINSN_putobject_OP_INT2FIX_O_1_C_ | YARVINSN_other _ => 1
  | YARVINSN_setspecial | YARVINSN_getclassvariable | YARVINSN_setclassvariable
  | YARVINSN_getconstant | YARVINSN_setconstant | YARVINSN_getglobal
  | YARVINSN_setglobal | YARVINSN_putobject | YARVINSN_putspecialobject
  | YARVINSN_putiseq | YARVINSN_putstring | YARVINSN_concatstrings
  | YARVINSN_freezestring | YARVINSN_newarray | YARVINSN_duparray
  | YARVINSN_splatarray | YARVINSN_newhash | YARVINSN_newrange | YARVINSN_dupn
  | YARVINSN_reverse | YARVINSN_topn | YARVINSN_setn | YARVINSN_adjuststack
  | YARVINSN_checkmatch | YARVINSN_opt_str_freeze | YARVINSN_opt_str_uminus
  | YARVINSN_opt_newarray_max | YARVINSN_opt_newarray_min
  | YARVINSN_invokeblock | YARVINSN_throw | YARVINSN_jump | YARVINSN_branchif
  | YARVINSN_branchunless | YARVINSN_branchnil | YARVINSN_setinlinecache
  | YARVINSN_opt_regexpmatch1 | YARVINSN_opt_call_c_function
  | YARVINSN_getlocal_OP__WC__0 | YARVINSN_getlocal_OP__WC__1
  | YARVINSN_setlocal_OP__WC__0 | YARVINSN_setlocal_OP__WC__1 => 2
  | YARVINSN_getlocal | YARVINSN_setlocal | YARVINSN_getblockparam
  | YARVINSN_setblockparam | YARVINSN_getblockparamproxy | YARVINSN_getspecial
  | YARVINSN_getinstancevariable | YARVINSN_setinstancevariable
  | YARVINSN_toregexp | YARVINSN_expandarray | YARVINSN_checkkeyword
  | YARVINSN_trace2 | YARVINSN_opt_send_without_block | YARVINSN_branchiftype
  | YARVINSN_getinlinecache | YARVINSN_once | YARVINSN_opt_case_dispatch
  | YARVINSN_opt_plus | YARVINSN_opt_minus | YARVINSN_opt_mult | YARVINSN_opt_div
  | YARVINSN_opt_mod | YARVINSN_opt_eq | YARVINSN_opt_lt | YARVINSN_opt_le
  | YARVINSN_opt_gt | YARVINSN_opt_ge | YARVINSN_opt_ltlt | YARVINSN_opt_aref
  | YARVINSN_opt_aset | YARVINSN_opt_length | YARVINSN_opt_size
  | YARVINSN_opt_empty_p | YARVINSN_opt_succ | YARVINSN_opt_not
  | YARVINSN_opt_regexpmatch2 => 3
  | YARVINSN_defined | YARVINSN_defineclass | YARVINSN_send
  | YARVINSN_invokesuper | YARVINSN_opt_aset_with | YARVINSN_opt_aref_with => 4
  | YARVINSN_opt_neq => 5
  end.

Definition insn_name (i : insn) : string :=
  match i with
  | YARVINSN_nop => "nop" | YARVINSN_getlocal => "getlocal"
  | YARVINSN_setlocal => "setlocal" | YARVINSN_getblockparam => "getblockparam"
  | YARVINSN_setblockparam => "setblockparam"
  | YARVINSN_getblockparamproxy => "getblockparamproxy"
  | YARVINSN_getspecial => "getspecial" | YARVINSN_setspecial => "setspecial"
  | YARVINSN_getinstancevariable => "getinstancevariable"
  | YARVINSN_setinstancevariable => "setinstancevariable"
  | YARVINSN_getclassvariable => "getclassvariable"
  | YARVINSN_setclassvariable => "setclassvariable"
  | YARVINSN_getconstant => "getconstant" | YARVINSN_setconstant => "setconstant"
  | YARVINSN_getglobal => "getglobal" | YARVINSN_setglobal => "setglobal"
  | YARVINSN_putnil => "putnil" | YARVINSN_putself => "putself"
  | YARVINSN_putobject => "putobject"
  | YARVINSN_putspecialobject => "putspecialobject"
  | YARVINSN_putiseq => "putiseq" | YARVINSN_putstring => "putstring"
  | YARVINSN_concatstrings => "concatstrings" | YARVINSN_tostring => "tostring"
  | YARVINSN_freezestring => "freezestring" | YARVINSN_toregexp => "toregexp"
  | YARVINSN_intern => "intern" | YARVINSN_newarray => "newarray"
  | YARVINSN_duparray => "duparray" | YARVINSN_expandarray => "expandarray"
  | YARVINSN_concatarray => "concatarray" | YARVINSN_splatarray => "splatarray"
  | YARVINSN_newhash => "newhash" | YARVINSN_newrange => "newrange"
  | YARVINSN_pop => "pop" | YARVINSN_dup => "dup" | YARVINSN_dupn => "dupn"
  | YARVINSN_swap => "swap" | YARVINSN_reverse => "reverse"
  | YARVINSN_reput => "reput" | YARVINSN_topn => "topn" | YARVINSN_setn => "setn"
  | YARVINSN_adjuststack => "adjuststack" | YARVINSN_defined => "defined"
  | YARVINSN_checkmatch => "checkmatch" | YARVINSN_checkkeyword => "checkkeyword"
  | YARVINSN_trace2 => "trace2" | YARVINSN_defineclass => "defineclass"
  | YARVINSN_send => "send" | YARVINSN_opt_str_freeze => "opt_str_freeze"
  | YARVINSN_opt_str_uminus => "opt_str_uminus"
  | YARVINSN_opt_newarray_max => "opt_newarray_max"
  | YARVINSN_opt_newarray_min => "opt_newarray_min"
  | YARVINSN_opt_send_without_block => "opt_send_without_block"
  | YARVINSN_invokesuper => "invokesuper" | YARVINSN_invokeblock => "invokeblock"
  | YARVINSN_leave => "leave" | YARVINSN_throw => "throw" | YARVINSN_jump => "jump"
  | YARVINSN_branchif => "branchif" | YARVINSN_branchunless => "branchunless"
  | YARVINSN_branchnil => "branchnil" | YARVINSN_branchiftype => "branchiftype"
  | YARVINSN_getinlinecache => "getinlinecache"
  | YARVINSN_setinlinecache => "setinlinecache" | YARVINSN_once => "once"
  | YARVINSN_opt_case_dispatch => "opt_case_dispatch"
  | YARVINSN_opt_plus => "opt_plus" | YARVINSN_opt_minus => "opt_minus"
  | YARVINSN_opt_mult => "opt_mult" | YARVINSN_opt_div => "opt_div"
  | YARVINSN_opt_mod => "opt_mod" | YARVINSN_opt_eq => "opt_eq"
  | YARVINSN_opt_neq => "opt_neq" | YARVINSN_opt_lt => "opt_lt"
  | YARVINSN_opt_le => "opt_le" | YARVINSN_opt_gt => "opt_gt"
  | YARVINSN_opt_ge => "opt_ge" | YARVINSN_opt_ltlt => "opt_ltlt"
  | YARVINSN_opt_aref => "opt_aref" | YARVINSN_opt_aset => "opt_aset"
  | YARVINSN_opt_aset_with => "opt_aset_with"
  | YARVINSN_opt_aref_with => "opt_aref_with"
  | YARVINSN_opt_length => "opt_length" | YARVINSN_opt_size => "opt_size"
  | YARVINSN_opt_empty_p => "opt_empty_p" | YARVINSN_opt_succ => "opt_succ"
  | YARVINSN_opt_not => "opt_not"
  | YARVINSN_opt_regexpmatch1 => "opt_regexpmatch1"
  | YARVINSN_opt_regexpmatch2 => "opt_regexpmatch2"
  | YARVINSN_opt_call_c_function => "opt_call_c_function"
  | YARVINSN_bitblt => "bitblt" | YARVINSN_answer => "answer"
  | YARVINSN_getlocal_OP__WC__0 => "getlocal_OP__WC__0"
  | YARVINSN_getlocal_OP__WC__1 => "getlocal_OP__WC__1"
  | YARVINSN_setlocal_OP__WC__0 => "setlocal_OP__WC__0"
  | YARVINSN_setlocal_OP__WC__1 => "setlocal_OP__WC__1"
  | YARVINSN_putobject_OP_INT2FIX_O_0_C_ => "putobject_OP_INT2FIX_O_0_C_"
  | YARVINSN_putobject_OP_INT2FIX_O_1_C_ => "putobject_OP_INT2FIX_O_1_C_"
  | YARVINSN_other _ => "unknown"
  end.

(** Call info ([CALL_INFO]): its address, [flag] and [orig_argc]. *)
Record rb_call_info := { ci_addr : Z; ci_flag : Z; ci_orig_argc : Z }.

(** The callee body reachable from a call cache, as far as
    [fprint_call_method] reads it. *)
Record callee_iseq := {
  iq_addr : Z; iq_simple : bool; iq_param_size : Z; iq_local_table_size : Z;
  iq_stack_max : Z; iq_catch_table_null : bool; iq_encoded_addr : Z }.

Inductive method_def :=
| VM_METHOD_TYPE_CFUNC
| VM_METHOD_TYPE_ISEQ (iseq : callee_iseq)
| VM_METHOD_TYPE_OTHER.

Record method_entry := { me_addr : Z; me_def : method_def; me_visi_protected : bool }.

(** Call cache ([CALL_CACHE]). *)
Record rb_call_cache := {
  cc_addr : Z; cc_method_state : Z; cc_class_serial : Z; cc_me : option method_entry }.

(** A word of [iseq_encoded]: an instruction, or an operand (a number, a
    call info, a call cache, a case-dispatch hash given by its address and
    its (key, offset) entries in iteration order, or another object). *)
Inductive value :=
| VInsn (i : insn)
| VNum (n : Z)
| VCI (ci : rb_call_info)
| VCC (cc : rb_call_cache)
| VHash (addr : Z) (entries : list (Z * Z))
| VObj (o : Z).

(** The word as printed by [0x%"PRIxVALUE"] / cast to an integer. *)
Definition val_z (v : value) : Z :=
  match v with
  | VInsn _ => 0 | VNum n => n | VCI ci => ci_addr ci | VCC cc => cc_addr cc
  | VHash a _ => a | VObj o => o
  end.

Definition as_ci (v : value) : rb_call_info :=
  match v with VCI ci => ci | _ => {| ci_addr := val_z v; ci_flag := 0; ci_orig_argc := 0 |} end.

Definition as_cc (v : value) : rb_call_cache :=
  match v with
  | VCC cc => cc
  | _ => {| cc_addr := val_z v; cc_method_state := 0; cc_class_serial := 0; cc_me := None |}
  end.

(** Reading the opcode of an encoded word
    ([(int)body->iseq_encoded[pos]] / [rb_vm_insn_addr2insn]). *)
Definition decode_insn (v : value) : insn :=
  match v with VInsn i => i | v => YARVINSN_other (val_z v) end.

(** [struct rb_iseq_constant_body], the fields the translator reads. *)
Record rb_iseq_constant_body := {
  iseq_encoded : list value;
  iseq_encoded_addr : Z;     (* the address of iseq_encoded[0] *)
  iseq_size : Z;             (* unsigned int *)
  stack_max : Z;             (* unsigned int *)
  param_has_opt : bool;
  param_opt_num : Z;
  param_opt_table : list Z }.

Definition SIZEOF_VALUE : Z := 8.

Definition encoded_at (body : rb_iseq_constant_body) (k : Z) : value :=
  nth (Z.to_nat k) (iseq_encoded body) (VNum 0).

(** [mjit_opts]: the options the translator consults. *)
Record mjit_options := {
  opt_on : bool; opt_llvm : bool; opt_save_temps : bool; opt_warnings : bool;
  opt_debug : bool; opt_verbose : Z; opt_max_cache_size : Z }.

(** The translator's environment: the options, the VM's global method
    state read by [GET_GLOBAL_METHOD_STATE()] at translation time, and the
    two lookups of the VM's instruction table ([insns_info.inc]) that only
    the warning of the [default] case prints: [insn_op_types(insn)], the
    operand type letters, and [insn_op_type(insn, k)], the type letter of
    operand [k]. *)
Record compile_env := {
  mjit_opts : mjit_options; global_method_state : Z;
  insn_op_types : insn -> string; insn_op_type : insn -> Z -> Z }.

(** Call flag bits ([enum vm_call_flag_bits] of the VM). *)
Definition VM_CALL_ARGS_SPLAT : Z := 1.
Definition VM_CALL_ARGS_BLOCKARG : Z := 2.
Definition VM_CALL_KWARG : Z := 128.
Definition VM_CALL_KW_SPLAT : Z := 256.

Definition flag_set (flags bit : Z) : bool := negb (Z.land flags bit =? 0).

(** One [fprintf]: the format string (without its trailing newline) and
    its arguments. *)
Inductive arg := AI (z : Z) | AS (s : string).
Inductive line := LText (fmt : string) (args : list arg).

Definition T (fmt : string) (args : list arg) : line := LText fmt args.
Definition T0 (fmt : string) : line := LText fmt [].

(** [struct compile_status] (one per [mjit_compile] call), plus two ghost
    fields that record the run and are not read by the translator:
    [visited] lists every [compile_insn] step in the order the steps end,
    and [exhausted] records that the recursion bound ran out. *)
Record step := {
  step_pos : Z; step_insn : insn; step_before : Z; step_after : Z }.

Record compile_status := {
  success : bool;
  compiled_for_pos : list bool;
  out : list line;                 (* the C file *)
  errs : list line;                (* stderr *)
  visited : list step;
  exhausted : bool }.

(** [struct compile_branch], passed by value. *)
Record compile_branch := { stack_size : Z; finish_p : bool }.

Definition emit (st : compile_status) (ls : list line) : compile_status :=
  {| success := success st; compiled_for_pos := compiled_for_pos st;
     out := out st ++ ls; errs := errs st; visited := visited st;
     exhausted := exhausted st |}.

Definition warn (st : compile_status) (ls : list line) : compile_status :=
  {| success := success st; compiled_for_pos := compiled_for_pos st;
     out := out st; errs := errs st ++ ls; visited := visited st;
     exhausted := exhausted st |}.

Definition fail (st : compile_status) : compile_status :=
  {| success := false; compiled_for_pos := compiled_for_pos st;
     out := out st; errs := errs st; visited := visited st;
     exhausted := exhausted st |}.

Definition set_exhausted (st : compile_status) : compile_status :=
  {| success := success st; compiled_for_pos := compiled_for_pos st;
     out := out st; errs := errs st; visited := visited st;
     exhausted := true |}.

Definition log_step (st : compile_status) (s : step) : compile_status :=
  {| success := success st; compiled_for_pos := compiled_for_pos st;
     out := out st; errs := errs st; visited := visited st ++ [s];
     exhausted := exhausted st |}.

(** [status->compiled_for_pos[pos]] and [status->compiled_for_pos[pos] = TRUE]. *)
Definition is_compiled (st : compile_status) (pos : Z) : bool :=
  nth (Z.to_nat pos) (compiled_for_pos st) false.

Definition mark_compiled (st : compile_status) (pos : Z) : compile_status :=
  {| success := success st; compiled_for_pos := <[Z.to_nat pos := true]> (compiled_for_pos st);
     out := out st; errs := errs st; visited := visited st;
     exhausted := exhausted st |}.

Definition fprint_getlocal (push_pos idx level : Z) : list line :=
  [T "  stack[%d] = *(vm_get_ep(cfp->ep, 0x%lx) - 0x%lx);" [AI push_pos; AI level; AI idx];
   T0 "  RB_DEBUG_COUNTER_INC(lvar_get);"] ++
  (if negb (level =? 0) then [T0 "  RB_DEBUG_COUNTER_INC(lvar_get_dynamic);"] else []).

Definition fprint_setlocal (pop_pos idx level : Z) : list line :=
  [T "  vm_env_write(vm_get_ep(cfp->ep, 0x%lx), -(int)0x%lx, stack[%d]);" [AI level; AI idx; AI pop_pos];
   T0 "  RB_DEBUG_COUNTER_INC(lvar_set);"] ++
  (if negb (level =? 0) then [T0 "  RB_DEBUG_COUNTER_INC(lvar_set_dynamic);"] else []).

(** push back stack in local variable to YARV's stack pointer *)
Definition fprint_args (argc base_pos : Z) : list line :=
  flat_map (fun i : nat =>
              [T "    *(cfp->sp) = stack[%d];" [AI (u32 (base_pos + Z.of_nat i))];
               T0 "    cfp->sp++;"])
           (seq 0 (Z.to_nat argc)).

Section Calls.
Variable env : compile_env.

Definition inlinable_cfunc_p (cc : rb_call_cache) : bool :=
  (global_method_state env =? cc_method_state cc) &&
  match cc_me cc with
  | Some me => match me_def me with VM_METHOD_TYPE_CFUNC => true | _ => false end
  | None => false
  end.

(** Returns iseq from cc if it's available and still not obsoleted. *)
Definition get_iseq_if_available (cc : rb_call_cache) : option callee_iseq :=
  if global_method_state env =? cc_method_state cc then
    match cc_me cc with
    | Some me => match me_def me with VM_METHOD_TYPE_ISEQ i => Some i | _ => None end
    | None => None
    end
  else None.

Definition me_protected (cc : rb_call_cache) : bool :=
  match cc_me cc with Some me => me_visi_protected me | None => false end.

Definition inlinable_iseq_p (ci : rb_call_info) (cc : rb_call_cache)
    (iseq : option callee_iseq) : bool :=
  match iseq with
  | None => false
  | Some i =>
      iq_simple i && negb (flag_set (ci_flag ci) VM_CALL_KW_SPLAT) &&
      (negb (flag_set (ci_flag ci) VM_CALL_ARGS_SPLAT) &&
       negb (flag_set (ci_flag ci) VM_CALL_KWARG) && negb (me_protected cc))
  end.

Definition me_addr_of (cc : rb_call_cache) : Z :=
  match cc_me cc with Some me => me_addr me | None => 0 end.

(** Compiles CALL_METHOD macro. *)
Definition fprint_call_method (ci_v cc_v : value) (result_pos : Z) : list line :=
  let cc := as_cc cc_v in
  if inlinable_cfunc_p cc then
    [T "    stack[%d] = mjit_call_cfunc(ec, cfp, &calling, 0x%lx, 0x%lx);"
       [AI result_pos; AI (val_z ci_v); AI (me_addr_of cc)]]
  else
    let iseq := get_iseq_if_available cc in
    [T0 "    {"; T0 "      VALUE v;"] ++
    (match iseq with
     | Some i =>
         if inlinable_iseq_p (as_ci ci_v) cc iseq then
           [T0 "      VALUE *argv = cfp->sp - calling.argc;";
            T0 "      cfp->sp = argv - 1;";
            T "      vm_push_frame(ec, 0x%lx, VM_FRAME_MAGIC_METHOD | VM_ENV_FLAG_LOCAL, calling.recv, calling.block_handler, 0x%lx, 0x%lx, argv + %d, %d, %d);"
              [AI (iq_addr i); AI (me_addr_of cc); AI (iq_encoded_addr i);
               AI (iq_param_size i); AI (iq_local_table_size i - iq_param_size i);
               AI (iq_stack_max i)];
            T0 "      v = Qundef;"]
         else
           [T "      v = (*((CALL_CACHE)0x%lx)->call)(ec, cfp, &calling, 0x%lx, 0x%lx);"
              [AI (val_z cc_v); AI (val_z ci_v); AI (val_z cc_v)]]
     | None =>
         [T "      v = (*((CALL_CACHE)0x%lx)->call)(ec, cfp, &calling, 0x%lx, 0x%lx);"
            [AI (val_z cc_v); AI (val_z ci_v); AI (val_z cc_v)]]
     end) ++
    (match iseq with
     | Some i => if iq_catch_table_null i
                 then [T0 "      if (v == Qundef && (v = mjit_exec(ec)) == Qundef) {"]
                 else [T0 "      if (v == Qundef) {"]
     | None => [T0 "      if (v == Qundef) {"]
     end) ++
    [T0 "        VM_ENV_FLAGS_SET(ec->cfp->ep, VM_FRAME_FLAG_FINISH);";
     T "        stack[%d] = vm_exec(ec);" [AI result_pos];
     T0 "      } else {";
     T "        stack[%d] = v;" [AI result_pos];
     T0 "      }";
     T0 "    }"].

(** Compile send and opt_send_without_block instructions; returns the
    emitted lines and the new stack size ([stack_size += -argc]). *)
Definition compile_send (operands : Z -> value) (stack_size : Z) (with_block : bool)
    : list line * Z :=
  let ci := as_ci (operands 0) in
  let cc := as_cc (operands 1) in
  let argc0 := u32 (ci_orig_argc ci) in
  let argc := if with_block
              then u32 (argc0 + (if flag_set (ci_flag ci) VM_CALL_ARGS_BLOCKARG then 1 else 0))
              else argc0 in
  ((if inlinable_cfunc_p cc || inlinable_iseq_p ci cc (get_iseq_if_available cc)
    then [T "  if (UNLIKELY(mjit_check_invalid_cc(stack[%d], %llu, %llu))) {"
            [AI (u32 (stack_size - 1 - argc)); AI (cc_method_state cc); AI (cc_class_serial cc)]]
    else [T "  if (UNLIKELY(GET_GLOBAL_METHOD_STATE() != ((CALL_CACHE)0x%lx)->method_state)) {"
            [AI (cc_addr cc)]]) ++
   [T "    cfp->sp = cfp->bp + %d;" [AI (u32 (stack_size + 1))];
    T0 "    goto cancel;";
    T0 "  }";
    T0 "  {";
    T0 "    struct rb_calling_info calling;"] ++
   fprint_args (u32 (argc + 1)) (u32 (stack_size - argc - 1)) ++
   (if with_block
    then [T "    vm_caller_setup_arg_block(ec, cfp, &calling, 0x%lx, 0x%lx, FALSE);"
            [AI (val_z (operands 0)); AI (val_z (operands 2))]]
    else [T0 "    calling.block_handler = VM_BLOCK_HANDLER_NONE;"]) ++
   [T "    calling.argc = %d;" [AI (ci_orig_argc ci)];
    T "    calling.recv = stack[%d];" [AI (u32 (stack_size - 1 - argc))]] ++
   fprint_call_method (operands 0) (operands 1) (u32 (stack_size - argc - 1)) ++
   [T0 "  }"],
   u32 (stack_size - argc)).

End Calls.

Definition fprint_opt_call_variables (stack_size argc : Z) : list line :=
  [T "    VALUE recv = stack[%d];" [AI (u32 (stack_size - argc))]] ++
  (if 2 <=? argc then [T "    VALUE obj = stack[%d];" [AI (u32 (stack_size - (argc - 1)))]] else []) ++
  (if 3 <=? argc then [T "    VALUE obj2 = stack[%d];" [AI (u32 (stack_size - (argc - 2)))]] else []).

Definition fprint_opt_call_fallback (stack_size argc : Z) : list line :=
  [T0 "    if (result == Qundef) {";
   T "      cfp->sp = cfp->bp + %d;" [AI (u32 (stack_size + 1))];
   T0 "      goto cancel;";
   T0 "    }";
   T "    stack[%d] = result;" [AI (u32 (stack_size - argc))]].

(** Print optimized call with redefinition fallback; the stack size change
    it returns is [1 - argc].  [fprint_opt_call_with_key] prints the same
    lines (its [key] is not used). *)
Definition fprint_opt_call (stack_size argc : Z) (format : string) (va : list arg)
    : list line :=
  [T0 "  {"] ++ fprint_opt_call_variables stack_size argc ++
  [T0 "    VALUE result = "; T format va; T0 ";"] ++
  fprint_opt_call_fallback stack_size argc ++ [T0 "  }"].

Definition opt_call_stack (stack_size argc : Z) : Z := u32 (stack_size + (1 - argc)).

(** [rb_hash_foreach(operands[0], compile_case_dispatch_each, &arg)]:
    [last] is [arg.last_value] ([None] for [Qundef]). *)
Fixpoint compile_case_dispatch_each (base_pos : Z) (last : option Z)
    (entries : list (Z * Z)) : list line :=
  match entries with
  | [] => []
  | (_, value) :: rest =>
      if bool_decide (last = Some value) then compile_case_dispatch_each base_pos last rest
      else [T "    case %d:" [AI value];
            T "      goto label_%d;" [AI (u32 (base_pos + value))];
            T0 "      break;"] ++
           compile_case_dispatch_each base_pos (Some value) rest
  end.

Definition hash_entries (v : value) : list (Z * Z) :=
  match v with VHash _ es => es | _ => [] end.

Definition dq : string := String (ascii_of_nat 34) EmptyString.

Definition is_jump (i : insn) : bool :=
  match i with YARVINSN_jump => true | _ => false end.

Definition pc_line (body : rb_iseq_constant_body) (pos : Z) : line :=
  T "  cfp->pc = (VALUE *)0x%lx;" [AI (iseq_encoded_addr body + SIZEOF_VALUE * pos)].

Definition label_line (pos : Z) (i : insn) : line :=
  T "label_%d: /* %s */" [AI pos; AS (insn_name i)].

(** What the [switch (insn)] of [compile_insn] does for one instruction:
    the lines it prints to the C file, whether it sets
    [status->success = FALSE] and what it prints to stderr then, the
    [compile_insns] call it makes for the fall-through of a conditional
    branch ([Some (stack_size, pos)]), and the new [stack_size],
    [finish_p] and [next_pos]. *)
Record insn_code := {
  code_lines : list line;
  code_fail : bool;
  code_warn : list line;
  code_branch : option (Z * Z);
  code_stack : Z;
  code_finish : bool;
  code_next : Z
}.

Definition emits (ls : list line) (stack_size next_pos : Z) : insn_code :=
  {| code_lines := ls; code_fail := false; code_warn := []; code_branch := None;
     code_stack := stack_size; code_finish := false; code_next := next_pos |}.

(** The cases of the [switch (insn)] in [compile_insn]; [ss] is
    [b->stack_size] on entry. *)
Definition compile_insn_switch (env : compile_env) (body : rb_iseq_constant_body)
    (insn : insn) (pos : Z) (ss : Z) : insn_code :=
  let operands k := encoded_at body (pos + 1 + k) in
  let op k := val_z (operands k) in
  let opu k := u32 (op k) in
  let inc := u32 (ss + 1) in
  let dec := u32 (ss - 1) in
  let next_pos := u32 (pos + insn_len insn) in
  let opts := mjit_opts env in
    match insn with
    | YARVINSN_nop => emits [] ss next_pos
    | YARVINSN_getlocal => (emits (fprint_getlocal ss (op 0) (op 1)) (inc) next_pos)
    | YARVINSN_setlocal => (emits (fprint_setlocal dec (op 0) (op 1)) (dec) next_pos)
    | YARVINSN_getspecial =>
        (emits [T "  stack[%d] = vm_getspecial(ec, VM_EP_LEP(cfp->ep), 0x%lx, 0x%lx);" [AI ss; AI (op 0); AI (op 1)]] (inc) next_pos)
    | YARVINSN_setspecial =>
        (emits [T "  lep_svar_set(ec, VM_EP_LEP(cfp->ep), 0x%lx, stack[%d]);" [AI (op 0); AI dec]] (dec) next_pos)
    | YARVINSN_getinstancevariable =>
        (emits [T "  stack[%d] = vm_getinstancevariable(cfp->self, 0x%lx, 0x%lx);" [AI ss; AI (op 0); AI (op 1)]] (inc) next_pos)
    | YARVINSN_setinstancevariable =>
        (emits [T "  vm_setinstancevariable(cfp->self, 0x%lx, stack[%d], 0x%lx);" [AI (op 0); AI dec; AI (op 1)]] (dec) next_pos)
    | YARVINSN_getclassvariable =>
        (emits [T "  stack[%d] = rb_cvar_get(vm_get_cvar_base(rb_vm_get_cref(cfp->ep), cfp), 0x%lx);" [AI ss; AI (op 0)]] (inc) next_pos)
    | YARVINSN_setclassvariable =>
        (emits [T0 "  vm_ensure_not_refinement_module(cfp->self);";
                  T "  rb_cvar_set(vm_get_cvar_base(rb_vm_get_cref(cfp->ep), cfp), 0x%lx, stack[%d]);" [AI (op 0); AI dec]] (dec) next_pos)
    | YARVINSN_getconstant =>
        (emits [T "  stack[%d] = vm_get_ev_const(ec, stack[%d], 0x%lx, 0);" [AI dec; AI dec; AI (op 0)]] ss next_pos)
    | YARVINSN_setconstant =>
        (emits [T "  vm_check_if_namespace(stack[%d]);" [AI (u32 (ss - 2))];
                  T0 "  vm_ensure_not_refinement_module(cfp->self);";
                  T "  rb_const_set(stack[%d], 0x%lx, stack[%d]);" [AI (u32 (ss - 2)); AI (op 0); AI dec]] ss next_pos)
    | YARVINSN_getglobal =>
        (emits [T "  stack[%d] = GET_GLOBAL((VALUE)0x%lx);" [AI ss; AI (op 0)]] (inc) next_pos)
    | YARVINSN_setglobal =>
        (emits [T "  SET_GLOBAL((VALUE)0x%lx, stack[%d]);" [AI (op 0); AI dec]] (dec) next_pos)
    | YARVINSN_putnil => (emits [T "  stack[%d] = Qnil;" [AI ss]] (inc) next_pos)
    | YARVINSN_putself => (emits [T "  stack[%d] = cfp->self;" [AI ss]] (inc) next_pos)
    | YARVINSN_putobject =>
        (emits [T "  stack[%d] = (VALUE)0x%lx;" [AI ss; AI (op 0)]] (inc) next_pos)
    | YARVINSN_putspecialobject =>
        (emits [T "  stack[%d] = vm_get_special_object(cfp->ep, (enum vm_special_object_type)0x%lx);" [AI ss; AI (op 0)]] (inc) next_pos)
    | YARVINSN_putiseq =>
        (emits [T "  stack[%d] = (VALUE)0x%lx;" [AI ss; AI (op 0)]] (inc) next_pos)
    | YARVINSN_putstring =>
        (emits [T "  stack[%d] = rb_str_resurrect(0x%lx);" [AI ss; AI (op 0)]] (inc) next_pos)
    | YARVINSN_concatstrings =>
        (emits [T "  stack[%d] = rb_str_concat_literals(0x%lx, stack + %d);"
                    [AI (u32 (ss - opu 0)); AI (op 0); AI (u32 (ss - opu 0))]] ((u32 (ss + 1 - opu 0))) next_pos)
    | YARVINSN_tostring =>
        (emits [T "  stack[%d] = rb_obj_as_string_result(stack[%d], stack[%d]);" [AI (u32 (ss - 2)); AI dec; AI (u32 (ss - 2))]] (dec) next_pos)
    | YARVINSN_freezestring =>
        (emits [T "  vm_freezestring(stack[%d], 0x%lx);" [AI dec; AI (op 0)]] ss next_pos)
    | YARVINSN_toregexp =>
        (emits [T0 "  {";
                  T0 "    VALUE rb_reg_new_ary(VALUE ary, int options);";
                  T0 "    VALUE rb_ary_tmp_new_from_values(VALUE, long, const VALUE *);";
                  T "    const VALUE ary = rb_ary_tmp_new_from_values(0, 0x%lx, stack + %d);" [AI (op 1); AI (u32 (ss - opu 1))];
                  T "    stack[%d] = rb_reg_new_ary(ary, (int)0x%lx);" [AI (u32 (ss - opu 1)); AI (op 0)];
                  T0 "    rb_ary_clear(ary);";
                  T0 "  }"] ((u32 (ss + 1 - opu 1))) next_pos)
    | YARVINSN_intern =>
        (emits [T "  stack[%d] = rb_str_intern(stack[%d]);" [AI dec; AI dec]] ss next_pos)
    | YARVINSN_newarray =>
        (emits [T "  stack[%d] = rb_ary_new4(0x%lx, stack + %d);" [AI (u32 (ss - opu 0)); AI (op 0); AI (u32 (ss - opu 0))]] ((u32 (ss + 1 - opu 0))) next_pos)
    | YARVINSN_duparray =>
        (emits [T "  stack[%d] = rb_ary_resurrect(0x%lx);" [AI ss; AI (op 0)]] (inc) next_pos)
    | YARVINSN_expandarray =>
        let space_size := u32 (opu 0 + u32 (Z.land (op 1) 1)) in
        (* probably vm_expandarray should be optimized for JIT *)
        (emits ([T "  vm_expandarray(cfp, stack[%d], 0x%lx, (int)0x%lx);" [AI dec; AI (op 0); AI (op 1)]] ++
                  flat_map (fun i : nat =>
                              [T0 "  cfp->sp--;";
                               T "  stack[%d] = *(cfp->sp);" [AI (u32 (dec + space_size - 1 - Z.of_nat i))]])
                           (seq 0 (Z.to_nat space_size))) ((u32 (dec + space_size))) next_pos)
    | YARVINSN_concatarray =>
        (emits [T "  stack[%d] = vm_concat_array(stack[%d], stack[%d]);" [AI (u32 (ss - 2)); AI (u32 (ss - 2)); AI dec]] (dec) next_pos)
    | YARVINSN_splatarray =>
        (emits [T "  stack[%d] = vm_splat_array(0x%lx, stack[%d]);" [AI dec; AI (op 0); AI dec]] ss next_pos)
    | YARVINSN_newhash =>
        (emits ([T0 "  {"; T0 "    VALUE val;";
                   T "    RUBY_DTRACE_CREATE_HOOK(HASH, 0x%lx);" [AI (op 0)];
                   T "    val = rb_hash_new_with_size(0x%lx / 2);" [AI (op 0)]] ++
                  (if negb (op 0 =? 0)
                   then [T "    rb_hash_bulk_insert(0x%lx, stack + %d, val);" [AI (op 0); AI (u32 (ss - opu 0))]]
                   else []) ++
                  [T "    stack[%d] = val;" [AI (u32 (ss - opu 0))]; T0 "  }"]) ((u32 (ss + 1 - opu 0))) next_pos)
    | YARVINSN_newrange =>
        (emits [T "  stack[%d] = rb_range_new(stack[%d], stack[%d], (int)0x%lx);" [AI (u32 (ss - 2)); AI (u32 (ss - 2)); AI dec; AI (op 0)]] (dec) next_pos)
    | YARVINSN_pop => emits [] (dec) next_pos
    | YARVINSN_dup => (emits [T "  stack[%d] = stack[%d];" [AI ss; AI dec]] (inc) next_pos)
    | YARVINSN_dupn =>
        (emits [T "  MEMCPY(stack + %d, stack + %d, VALUE, 0x%lx);" [AI ss; AI (u32 (ss - opu 0)); AI (op 0)]] ((u32 (ss + opu 0))) next_pos)
    | YARVINSN_swap =>
        (emits [T0 "  {";
                  T "    VALUE tmp = stack[%d];" [AI dec];
                  T "    stack[%d] = stack[%d];" [AI dec; AI (u32 (ss - 2))];
                  T "    stack[%d] = tmp;" [AI (u32 (ss - 2))];
                  T0 "  }"] ss next_pos)
    | YARVINSN_reverse =>
        let n := opu 0 in
        let base := u32 (ss - n) in
        (emits ([T0 "  {"; T0 "    VALUE v0;"; T0 "    VALUE v1;"] ++
                  flat_map (fun i : nat =>
                              let i := Z.of_nat i in
                              [T "    v0 = stack[%d];" [AI (u32 (base + i))];
                               T "    v1 = stack[%d];" [AI (u32 (base + n - i - 1))];
                               T "    stack[%d] = v1;" [AI (u32 (base + i))];
                               T "    stack[%d] = v0;" [AI (u32 (base + n - i - 1))]])
                           (seq 0 (Z.to_nat (n / 2))) ++
                  [T0 "  }"]) ss next_pos)
    | YARVINSN_reput => (emits [T "  stack[%d] = stack[%d];" [AI dec; AI dec]] ss next_pos)
    | YARVINSN_topn =>
        (emits [T "  stack[%d] = stack[%d];" [AI ss; AI (u32 (ss - opu 0))]] (inc) next_pos)
    | YARVINSN_setn =>
        (emits [T "  stack[%d] = stack[%d];" [AI (u32 (ss - 1 - opu 0)); AI dec]] ss next_pos)
    | YARVINSN_adjuststack => emits [] ((u32 (ss - opu 0))) next_pos
    | YARVINSN_defined =>
        (emits [T "  stack[%d] = vm_defined(ec, cfp, 0x%lx, 0x%lx, 0x%lx, stack[%d]);"
                    [AI dec; AI (op 0); AI (op 1); AI (op 2); AI dec]] ss next_pos)
    | YARVINSN_checkmatch =>
        (emits [T "  stack[%d] = vm_check_match(ec, stack[%d], stack[%d], 0x%lx);" [AI (u32 (ss - 2)); AI (u32 (ss - 2)); AI dec; AI (op 0)]] (dec) next_pos)
    | YARVINSN_checkkeyword =>
        (emits [T "  stack[%d] = vm_check_keyword(0x%lx, 0x%lx, cfp->ep);" [AI ss; AI (op 0); AI (op 1)]] (inc) next_pos)
    | YARVINSN_trace2 =>
        (emits [T "  vm_dtrace((rb_event_flag_t)0x%lx, ec);" [AI (op 0)];
                  T "  EXEC_EVENT_HOOK(ec, (rb_event_flag_t)0x%lx, cfp->self, 0, 0, 0, 0x%lx);" [AI (op 0); AI (op 1)]] ss next_pos)
    | YARVINSN_send =>
        let '(ls, n) := compile_send env operands ss true in (emits ls (n) next_pos)
    | YARVINSN_opt_str_freeze =>
        (emits [T0 "  if (BASIC_OP_UNREDEFINED_P(BOP_FREEZE, STRING_REDEFINED_OP_FLAG)) {";
                  T "    stack[%d] = 0x%lx;" [AI ss; AI (op 0)];
                  T0 "  } else {";
                  T "    stack[%d] = rb_funcall(rb_str_resurrect(0x%lx), idFreeze, 0);" [AI ss; AI (op 0)];
                  T0 "  }"] (inc) next_pos)
    | YARVINSN_opt_str_uminus =>
        (emits [T0 "  if (BASIC_OP_UNREDEFINED_P(BOP_UMINUS, STRING_REDEFINED_OP_FLAG)) {";
                  T "    stack[%d] = 0x%lx;" [AI ss; AI (op 0)];
                  T0 "  } else {";
                  T "    stack[%d] = rb_funcall(rb_str_resurrect(0x%lx), idUMinus, 0);" [AI ss; AI (op 0)];
                  T0 "  }"] (inc) next_pos)
    | YARVINSN_opt_newarray_max =>
        (emits [T "  stack[%d] = vm_opt_newarray_max(0x%lx, stack + %d);" [AI (u32 (ss - opu 0)); AI (op 0); AI (u32 (ss - opu 0))]] ((u32 (ss + 1 - opu 0))) next_pos)
    | YARVINSN_opt_newarray_min =>
        (emits [T "  stack[%d] = vm_opt_newarray_min(0x%lx, stack + %d);" [AI (u32 (ss - opu 0)); AI (op 0); AI (u32 (ss - opu 0))]] ((u32 (ss + 1 - opu 0))) next_pos)
    | YARVINSN_opt_send_without_block =>
        let '(ls, n) := compile_send env operands ss false in (emits ls (n) next_pos)
    | YARVINSN_invokesuper =>
        let ci := as_ci (operands 0) in
        let push_count := u32 (ci_orig_argc ci + (if flag_set (ci_flag ci) VM_CALL_ARGS_BLOCKARG then 1 else 0)) in
        let rp := u32 (ss - push_count - 1) in
        (emits ([T0 "  {";
                   T0 "    struct rb_calling_info calling;";
                   T "    calling.argc = %d;" [AI (ci_orig_argc ci)]] ++
                  fprint_args (u32 (push_count + 1)) rp ++
                  [T "    vm_caller_setup_arg_block(ec, cfp, &calling, 0x%lx, 0x%lx, TRUE);" [AI (op 0); AI (op 2)];
                   T0 "    calling.recv = cfp->self;";
                   T "    vm_search_super_method(ec, cfp, &calling, 0x%lx, 0x%lx);" [AI (op 0); AI (op 1)];
                   T0 "    {";
                   T "      VALUE v = (*((CALL_CACHE)0x%lx)->call)(ec, cfp, &calling, 0x%lx, 0x%lx);" [AI (op 1); AI (op 0); AI (op 1)];
                   T0 "      if (v == Qundef && (v = mjit_exec(ec)) == Qundef) {";
                   T0 "        VM_ENV_FLAGS_SET(ec->cfp->ep, VM_FRAME_FLAG_FINISH);";
                   T "        stack[%d] = vm_exec(ec);" [AI rp];
                   T0 "      } else {";
                   T "        stack[%d] = v;" [AI rp];
                   T0 "      }";
                   T0 "    }";
                   T0 "  }"]) ((u32 (ss - push_count))) next_pos)
    | YARVINSN_invokeblock =>
        let ci := as_ci (operands 0) in
        let argc := u32 (ci_orig_argc ci) in
        let rp := u32 (ss - argc) in
        (emits ([T0 "  {";
                   T0 "    struct rb_calling_info calling;";
                   T "    calling.argc = %d;" [AI (ci_orig_argc ci)];
                   T0 "    calling.block_handler = VM_BLOCK_HANDLER_NONE;";
                   T0 "    calling.recv = cfp->self;"] ++
                  fprint_args argc rp ++
                  [T "    stack[%d] = vm_invoke_block(ec, cfp, &calling, 0x%lx);" [AI rp; AI (op 0)];
                   T "    if (stack[%d] == Qundef) {" [AI rp];
                   T0 "      VM_ENV_FLAGS_SET(ec->cfp->ep, VM_FRAME_FLAG_FINISH);";
                   T "      stack[%d] = vm_exec(ec);" [AI rp];
                   T0 "    }";
                   T0 "  }"]) ((u32 (ss + 1 - argc))) next_pos)
    | YARVINSN_leave =>
        (* NOTE: We don't use YARV's stack on JIT. So vm_stack_consistency_error
           isn't run during execution and we check stack_size here instead. *)
        {| code_fail := negb (ss =? 1);
           code_warn := if negb (ss =? 1) && (opt_warnings opts || negb (opt_verbose opts =? 0))
                        then [T "MJIT warning: Unexpected JIT stack_size on leave: %d" [AI ss]]
                        else [];
           (* the build without OPT_CALL_THREADED_CODE *)
           code_lines := [T0 "  RUBY_VM_CHECK_INTS(ec);";
                          T0 "  vm_pop_frame(ec, cfp, cfp->ep);";
                          T "  return stack[%d];" [AI dec]];
           code_branch := None; code_stack := ss; code_finish := true; code_next := next_pos |}
    | YARVINSN_throw =>
        {| code_lines := [T0 "  RUBY_VM_CHECK_INTS(ec);";
                          T "  THROW_EXCEPTION(vm_throw(ec, cfp, 0x%lx, stack[%d]));" [AI (op 0); AI dec]];
           code_fail := false; code_warn := []; code_branch := None;
           code_stack := dec; code_finish := true; code_next := next_pos |}
    | YARVINSN_jump =>
        let next_pos := u32 (pos + insn_len insn + opu 0) in
        emits [T0 "  RUBY_VM_CHECK_INTS(ec);"; T "  goto label_%d;" [AI next_pos]] ss next_pos
    | YARVINSN_branchif =>
        let target := u32 (pos + insn_len insn + opu 0) in
        {| code_lines := [T "  if (RTEST(stack[%d])) {" [AI dec];
                          T0 "    RUBY_VM_CHECK_INTS(ec);";
                          T "    goto label_%d;" [AI target];
                          T0 "  }"];
           code_fail := false; code_warn := [];
           code_branch := Some (dec, u32 (pos + insn_len insn));
           code_stack := dec; code_finish := false; code_next := target |}
    | YARVINSN_branchunless =>
        let target := u32 (pos + insn_len insn + opu 0) in
        {| code_lines := [T "  if (!RTEST(stack[%d])) {" [AI dec];
                          T0 "    RUBY_VM_CHECK_INTS(ec);";
                          T "    goto label_%d;" [AI target];
                          T0 "  }"];
           code_fail := false; code_warn := [];
           code_branch := Some (dec, u32 (pos + insn_len insn));
           code_stack := dec; code_finish := false; code_next := target |}
    | YARVINSN_branchnil =>
        let target := u32 (pos + insn_len insn + opu 0) in
        {| code_lines := [T "  if (NIL_P(stack[%d])) {" [AI dec];
                          T0 "    RUBY_VM_CHECK_INTS(ec);";
                          T "    goto label_%d;" [AI target];
                          T0 "  }"];
           code_fail := false; code_warn := [];
           code_branch := Some (dec, u32 (pos + insn_len insn));
           code_stack := dec; code_finish := false; code_next := target |}
    | YARVINSN_branchiftype =>
        (emits [T "  if (TYPE(stack[%d]) == (int)0x%lx) {" [AI dec; AI (op 0)];
                  T0 "    RUBY_VM_CHECK_INTS(ec);";
                  T "    goto label_%d;" [AI (u32 (pos + insn_len insn + opu 1))];
                  T0 "  }"] (dec) next_pos)
    | YARVINSN_getinlinecache =>
        (emits [T "  stack[%d] = vm_ic_hit_p(0x%lx, cfp->ep);" [AI ss; AI (op 1)];
                  T "  if (stack[%d] != Qnil) {" [AI ss];
                  T "    goto label_%d;" [AI (u32 (pos + insn_len insn + opu 0))];
                  T0 "  }"] (inc) next_pos)
    | YARVINSN_setinlinecache =>
        (emits [T "  vm_ic_update(0x%lx, stack[%d], cfp->ep);" [AI (op 0); AI dec]] ss next_pos)
    | YARVINSN_opt_case_dispatch =>
        let base_pos := u32 (pos + insn_len insn) in
        (emits ([T "  switch (vm_case_dispatch(0x%lx, 0x%lx, stack[%d])) {" [AI (op 0); AI (op 1); AI dec]] ++
                  compile_case_dispatch_each base_pos None (hash_entries (operands 0)) ++
                  [T "    case %lu:" [AI (op 1)];
                   T "      goto label_%lu;" [AI (base_pos + op 1)];
                   T0 "  }"]) (dec) next_pos)
    | YARVINSN_opt_plus => (emits (fprint_opt_call ss 2 "vm_opt_plus(recv, obj)" []) ((opt_call_stack ss 2)) next_pos)
    | YARVINSN_opt_minus => (emits (fprint_opt_call ss 2 "vm_opt_minus(recv, obj)" []) ((opt_call_stack ss 2)) next_pos)
    | YARVINSN_opt_mult => (emits (fprint_opt_call ss 2 "vm_opt_mult(recv, obj)" []) ((opt_call_stack ss 2)) next_pos)
    | YARVINSN_opt_div => (emits (fprint_opt_call ss 2 "vm_opt_div(recv, obj)" []) ((opt_call_stack ss 2)) next_pos)
    | YARVINSN_opt_mod => (emits (fprint_opt_call ss 2 "vm_opt_mod(recv, obj)" []) ((opt_call_stack ss 2)) next_pos)
    | YARVINSN_opt_eq =>
        (emits (fprint_opt_call ss 2 "opt_eq_func(recv, obj, 0x%lx, 0x%lx)" [AI (op 0); AI (op 1)]) ((opt_call_stack ss 2)) next_pos)
    | YARVINSN_opt_neq =>
        (emits (fprint_opt_call ss 2 "vm_opt_neq(0x%lx, 0x%lx, 0x%lx, 0x%lx, recv, obj)" [AI (op 0); AI (op 1); AI (op 2); AI (op 3)]) ((opt_call_stack ss 2)) next_pos)
    | YARVINSN_opt_lt => (emits (fprint_opt_call ss 2 "vm_opt_lt(recv, obj)" []) ((opt_call_stack ss 2)) next_pos)
    | YARVINSN_opt_le => (emits (fprint_opt_call ss 2 "vm_opt_le(recv, obj)" []) ((opt_call_stack ss 2)) next_pos)
    | YARVINSN_opt_gt => (emits (fprint_opt_call ss 2 "vm_opt_gt(recv, obj)" []) ((opt_call_stack ss 2)) next_pos)
    | YARVINSN_opt_ge => (emits (fprint_opt_call ss 2 "vm_opt_ge(recv, obj)" []) ((opt_call_stack ss 2)) next_pos)
    | YARVINSN_opt_ltlt => (emits (fprint_opt_call ss 2 "vm_opt_ltlt(recv, obj)" []) ((opt_call_stack ss 2)) next_pos)
    | YARVINSN_opt_aref => (emits (fprint_opt_call ss 2 "mjit_opt_aref(recv, obj)" []) ((opt_call_stack ss 2)) next_pos)
    | YARVINSN_opt_aset => (emits (fprint_opt_call ss 3 "vm_opt_aset(recv, obj, obj2)" []) ((opt_call_stack ss 3)) next_pos)
    | YARVINSN_opt_aset_with =>
        (emits (fprint_opt_call ss 2 "vm_opt_aset_with(recv, 0x%lx, obj)" [AI (op 2)]) ((opt_call_stack ss 2)) next_pos)
    | YARVINSN_opt_aref_with =>
        (emits (fprint_opt_call ss 1 "vm_opt_aref_with(recv, 0x%lx)" [AI (op 2)]) ((opt_call_stack ss 1)) next_pos)
    | YARVINSN_opt_length => (emits (fprint_opt_call ss 1 "vm_opt_length(recv, BOP_LENGTH)" []) ss next_pos)
    | YARVINSN_opt_size => (emits (fprint_opt_call ss 1 "vm_opt_length(recv, BOP_SIZE)" []) ss next_pos)
    | YARVINSN_opt_empty_p => (emits (fprint_opt_call ss 1 "vm_opt_empty_p(recv)" []) ss next_pos)
    | YARVINSN_opt_succ => (emits (fprint_opt_call ss 1 "vm_opt_succ(recv)" []) ss next_pos)
    | YARVINSN_opt_not =>
        (emits (fprint_opt_call ss 1 "vm_opt_not(0x%lx, 0x%lx, recv)" [AI (op 0); AI (op 1)]) ss next_pos)
    | YARVINSN_opt_regexpmatch1 =>
        (emits [T "  stack[%d] = vm_opt_regexpmatch1((VALUE)0x%lx, stack[%d]);" [AI dec; AI (op 0); AI dec]] ss next_pos)
    | YARVINSN_opt_regexpmatch2 =>
        (emits (fprint_opt_call ss 2 "vm_opt_regexpmatch2(recv, obj)" []) ((opt_call_stack ss 2)) next_pos)
    | YARVINSN_bitblt =>
        (emits [T (String.append "  stack[%d] = rb_str_new2("
                      (String.append dq (String.append "a bit of bacon, lettuce and tomato" (String.append dq ");"))))
                    [AI ss]] (inc) next_pos)
    | YARVINSN_answer => (emits [T "  stack[%d] = INT2FIX(42);" [AI ss]] (inc) next_pos)
    | YARVINSN_getlocal_OP__WC__0 => (emits (fprint_getlocal ss (op 0) 0) (inc) next_pos)
    | YARVINSN_getlocal_OP__WC__1 => (emits (fprint_getlocal ss (op 0) 1) (inc) next_pos)
    | YARVINSN_setlocal_OP__WC__0 => (emits (fprint_setlocal dec (op 0) 0) (dec) next_pos)
    | YARVINSN_setlocal_OP__WC__1 => (emits (fprint_setlocal dec (op 0) 1) (dec) next_pos)
    | YARVINSN_putobject_OP_INT2FIX_O_0_C_ => (emits [T "  stack[%d] = INT2FIX(0);" [AI ss]] (inc) next_pos)
    | YARVINSN_putobject_OP_INT2FIX_O_1_C_ => (emits [T "  stack[%d] = INT2FIX(1);" [AI ss]] (inc) next_pos)
    | YARVINSN_getblockparam | YARVINSN_setblockparam | YARVINSN_getblockparamproxy
    | YARVINSN_defineclass | YARVINSN_once | YARVINSN_opt_call_c_function
    | YARVINSN_other _ =>
        (* default: the instruction is not supported *)
        {| code_lines := []; code_fail := true;
           code_warn := if opt_warnings opts || (3 <=? opt_verbose opts)
                        then [T "MJIT warning: Failed to compile instruction: %s (%s: %d...)"
                                [AS (insn_name insn); AS (insn_op_types env insn);
                                 AI (if 0 <? insn_len insn then insn_op_type env insn 0 else 0)]]
                        else [];
           code_branch := None; code_stack := ss; code_finish := false; code_next := next_pos |}
    end.

(** Compile one insn; returns the status, the branch (its [stack_size]
    and [finish_p] updated) and the next position.  [compile_insns_rec]
    is the recursive [compile_insns] call used for the fall-through of a
    conditional branch.  The [switch] only prints to the C file, to stderr
    and sets [success], in that order per case, so it is applied here as
    [compile_insn_switch] computes it. *)
Definition compile_insn (env : compile_env)
    (compile_insns_rec : Z -> Z -> compile_status -> compile_status)
    (body : rb_iseq_constant_body) (insn : insn) (pos : Z)
    (st : compile_status) (b : compile_branch)
    : compile_status * compile_branch * Z :=
  (* Move program counter to meet catch table condition and for JIT
     execution cancellation. *)
  let st := emit st [pc_line body pos] in
  let c := compile_insn_switch env body insn pos (stack_size b) in
  let st := warn st (code_warn c) in
  let st := if code_fail c then fail st else st in
  let st := emit st (code_lines c) in
  let st := match code_branch c with
            | Some (ss, p) => compile_insns_rec ss p st
            | None => st
            end in
  let b := {| stack_size := code_stack c; finish_p := finish_p b || code_finish c |} in
  let next_pos := code_next c in
  (* if next_pos is already compiled, next instruction won't be compiled in
     C code and needs `goto`. *)
  let st := if ((next_pos <? iseq_size body) && is_compiled st next_pos) || is_jump insn
            then emit st [T "  goto label_%d;" [AI next_pos]]
            else st in
  (st, b, next_pos).

(** [compile_insns]: compile one conditional branch.  The C [while] loop
    and the recursion through [compile_insn] share one bound [fuel]; each
    loop iteration and each nested call spends one unit of it.
    [mjit_compile] starts with [iseq_size + 1] units, which never runs out
    (see [C9]); running out is recorded in the ghost field [exhausted]. *)
Fixpoint compile_insns_loop (fuel : nat) (env : compile_env)
    (body : rb_iseq_constant_body) (b : compile_branch) (pos : Z)
    (st : compile_status) {struct fuel} : compile_status :=
  match fuel with
  | O => set_exhausted st
  | S fuel' =>
      if (pos <? iseq_size body) && negb (is_compiled st pos) && negb (finish_p b) then
        let insn := decode_insn (encoded_at body pos) in
        let st := mark_compiled st pos in
        let st := emit st [label_line pos insn] in
        let '(st, b', next_pos) :=
          compile_insn env
            (fun ss p s => compile_insns_loop fuel' env body {| stack_size := ss; finish_p := false |} p s)
            body insn pos st b in
        let st := log_step st {| step_pos := pos; step_insn := insn;
                                 step_before := stack_size b; step_after := stack_size b' |} in
        let st := if success st && (stack_size b' >? stack_max body)
                  then fail (if opt_warnings (mjit_opts env) || negb (opt_verbose (mjit_opts env) =? 0)
                             then warn st [T0 "MJIT warning: JIT stack exceeded its max"]
                             else st)
                  else st in
        if negb (success st) then st
        else compile_insns_loop fuel' env body b' next_pos st
      else st
  end.

Definition compile_insns (fuel : nat) (env : compile_env) (body : rb_iseq_constant_body)
    (stack_size : Z) (pos : Z) (st : compile_status) : compile_status :=
  compile_insns_loop fuel env body {| stack_size := stack_size; finish_p := false |} pos st.

(** Print basic block code to cancel JIT execution. *)
Definition compile_cancel_handler (body : rb_iseq_constant_body) : list line :=
  [T0 "cancel:"] ++
  map (fun i : nat =>
         T "  *((VALUE *)cfp->bp + %d) = stack[%d];" [AI (Z.of_nat i + 1); AI (Z.of_nat i)])
      (seq 0 (Z.to_nat (stack_max body))) ++
  [T0 "  return Qundef;"].

Definition func_header (funcname : string) : line :=
  T "VALUE %s(rb_execution_context_t *ec, rb_control_frame_t *cfp) {" [AS funcname].

Definition stack_decl (n : Z) : line := T "  VALUE stack[%d];" [AI n].

(** Simulate `opt_pc` in setup_parameters_complex. *)
Definition opt_pc_switch (body : rb_iseq_constant_body) : list line :=
  if param_has_opt body then
    [T0 EmptyString; T0 "  switch (cfp->pc - cfp->iseq->body->iseq_encoded) {"] ++
    flat_map (fun i : nat =>
                let pc_offset := nth i (param_opt_table body) 0 in
                [T "    case %ld:" [AI pc_offset]; T "      goto label_%ld;" [AI pc_offset]])
             (seq 0 (Z.to_nat (param_opt_num body + 1))) ++
    [T0 "  }"]
  else [].

Definition initial_status (body : rb_iseq_constant_body) : compile_status :=
  {| success := true; compiled_for_pos := repeat false (Z.to_nat (iseq_size body));
     out := []; errs := []; visited := []; exhausted := false |}.

(** Compile ISeq to C code.  The C function returns [status.success]; the
    whole final status (with the C file in [out]) is returned here. *)
Definition mjit_compile (env : compile_env) (body : rb_iseq_constant_body)
    (funcname : string) : compile_status :=
  let st := initial_status body in
  let st := emit st [func_header funcname] in
  let st := if 0 <? stack_max body then emit st [stack_decl (stack_max body)] else st in
  let st := emit st (opt_pc_switch body) in
  let st := compile_insns (S (Z.to_nat (iseq_size body))) env body 0 0 st in
  let st := emit st (compile_cancel_handler body) in
  emit st [T0 "}"].

(** Sample input: [putobject 1; putobject 2; opt_plus; leave]. *)
Definition opts0 : mjit_options :=
  {| opt_on := true; opt_llvm := false; opt_save_temps := false; opt_warnings := false;
     opt_debug := false; opt_verbose := 0; opt_max_cache_size := 1000 |}.
Definition env0 : compile_env :=
  {| mjit_opts := opts0; global_method_state := 1;
     insn_op_types := fun _ => EmptyString; insn_op_type := fun _ _ => 0 |}.

Definition mk_body (code : list value) (smax : Z) : rb_iseq_constant_body :=
  {| iseq_encoded := code; iseq_encoded_addr := 4096; iseq_size := Z.of_nat (length code);
     stack_max := smax; param_has_opt := false; param_opt_num := 0; param_opt_table := [] |}.

Definition body_plus : rb_iseq_constant_body :=
  mk_body [VInsn YARVINSN_putobject; VObj 3; VInsn YARVINSN_putobject; VObj 5;
           VInsn YARVINSN_opt_plus; VNum 0; VNum 0; VInsn YARVINSN_leave] 2.

(** ** Failure conditions of [compile_insns], read off the source *)

(** The instructions handled by the [default] case of the [switch]. *)
Definition unsupported (i : insn) : bool :=
  match i with
  | YARVINSN_getblockparam | YARVINSN_setblockparam | YARVINSN_getblockparamproxy
  | YARVINSN_defineclass | YARVINSN_once | YARVINSN_opt_call_c_function
  | YARVINSN_other _ => true
  | _ => false
  end.

Definition is_leave (i : insn) : bool :=
  match i with YARVINSN_leave => true | _ => false end.

(** A [compile_insn] step clears [success]: an unsupported instruction, a
    [leave] entered with [stack_size != 1], or a [stack_size] above
    [stack_max] after the instruction. *)
Definition step_fails (stack_max : Z) (s : step) : bool :=
  unsupported (step_insn s) ||
  (is_leave (step_insn s) && negb (step_before s =? 1)) ||
  (step_after s >? stack_max).

Definition steps_ok (stack_max : Z) (l : list step) : bool :=
  forallb (fun s => negb (step_fails stack_max s)) l.

(** ** Shapes of emitted lines *)

Definition line_fmt (l : line) : string := match l with LText f _ => f end.

Definition fmt_label : string := "label_%d: /* %s */".
Definition fmt_stack_decl : string := "  VALUE stack[%d];".
Definition fmt_cancel_label : string := "cancel:".
Definition fmt_return_undef : string := "  return Qundef;".
Definition fmt_write_back : string := "  *((VALUE *)cfp->bp + %d) = stack[%d];".
Definition fmt_close : string := "}".
Definition fmt_header : string := "VALUE %s(rb_execution_context_t *ec, rb_control_frame_t *cfp) {".

(** Formats that only [compile_insns] (labels) or [mjit_compile] and
    [compile_cancel_handler] print. *)
Definition reserved_fmt (f : string) : bool :=
  existsb (String.eqb f)
    [fmt_label; fmt_stack_decl; fmt_cancel_label; fmt_return_undef; fmt_write_back;
     fmt_close; fmt_header].

Definition is_goto_cancel (l : line) : bool :=
  String.eqb (line_fmt l) "    goto cancel;" || String.eqb (line_fmt l) "      goto cancel;".

(** [cfp->sp = cfp->bp + k], as printed by [compile_send] and
    [fprint_opt_call_fallback]. *)
Definition is_sp_store (l : line) (k : Z) : Prop :=
  l = T "    cfp->sp = cfp->bp + %d;" [AI k] \/ l = T "      cfp->sp = cfp->bp + %d;" [AI k].

(** Lines printed by one case of the [switch]: no reserved format, and
    every [goto cancel] right after a store [cfp->sp = cfp->bp + k]. *)
Fixpoint code_ok (k : Z) (prev : option line) (ls : list line) : Prop :=
  match ls with
  | [] => True
  | l :: r =>
      reserved_fmt (line_fmt l) = false /\
      (is_goto_cancel l = true -> exists l', prev = Some l' /\ is_sp_store l' k) /\
      code_ok k (Some l) r
  end.

(** Formats printed only by [mjit_compile] and [compile_cancel_handler]. *)
Definition out_reserved_fmt (f : string) : bool :=
  existsb (String.eqb f)
    [fmt_stack_decl; fmt_cancel_label; fmt_return_undef; fmt_write_back; fmt_close; fmt_header].

Definition not_label (q : option line) : Prop := forall p n, q <> Some (label_line p n).

(** Every label line is directly followed by the [cfp->pc] store of its
    position ([prev] is the line before [ls]). *)
Fixpoint labels_ok (body : rb_iseq_constant_body) (prev : option line) (ls : list line) : Prop :=
  match ls with
  | [] => not_label prev
  | l :: r => (forall p n, prev = Some (label_line p n) -> l = pc_line body p) /\
              labels_ok body (Some l) r
  end.

(** Every [goto cancel] is directly preceded by [cfp->sp = cfp->bp + top + 1]
    with [top <= stack_max]. *)
Fixpoint cancels_ok (smax : Z) (prev : option line) (ls : list line) : Prop :=
  match ls with
  | [] => True
  | l :: r =>
      (is_goto_cancel l = true ->
       exists top l', prev = Some l' /\ 0 <= top <= smax /\ is_sp_store l' (u32 (top + 1))) /\
      cancels_ok smax (Some l) r
  end.

(** What a call of [compile_insns] that started with [stack_size = ss]
    appends: lines [c] to the C file and steps [new]. *)
Definition chunk_ok (body : rb_iseq_constant_body) (succ : bool) (ss : Z)
    (c : list line) (new : list step) : Prop :=
  Forall (fun l => out_reserved_fmt (line_fmt l) = false) c /\
  (forall q, not_label q -> labels_ok body q c) /\
  (succ = true -> 0 <= ss <= stack_max body -> forall q, cancels_ok (stack_max body) q c) /\
  Forall (fun s => In (label_line (step_pos s) (step_insn s)) c) new.

Definition grows (body : rb_iseq_constant_body) (ss : Z) (st st' : compile_status) : Prop :=
  exists c new, out st' = out st ++ c /\ visited st' = visited st ++ new /\
                chunk_ok body (success st') ss c new.

(** * Part 2: the unit queue of mjit.c

    The queue is a doubly linked list of [struct rb_mjit_unit] in the C
    heap, headed by [unit_queue].  The heap is a finite map from unit
    addresses to unit records; a read or write through an address not in
    the map (a [NULL] or dangling pointer) is undefined in C and gives
    [None] here. *)
Module MjitQueue.

Record rb_mjit_unit := {
  id : Z;
  next : option Z;       (* [NULL] is [None] *)
  prev : option Z;
  iseq : option Z }.     (* the iseq's address, [NULL] once it is GCed *)

Record queue_state := {
  units : gmap Z rb_mjit_unit;
  unit_queue : option Z;
  (* [iseq->body->total_calls] of every live iseq, by the iseq's address *)
  total_calls : Z -> Z }.

Definition set_units (s : queue_state) (h : gmap Z rb_mjit_unit) : queue_state :=
  {| units := h; unit_queue := unit_queue s; total_calls := total_calls s |}.

Definition set_unit_queue (s : queue_state) (q : option Z) : queue_state :=
  {| units := units s; unit_queue := q; total_calls := total_calls s |}.

(** [p->next = v] and [p->prev = v]. *)
Definition set_next (s : queue_state) (p : Z) (v : option Z) : option queue_state :=
  U ← units s !! p;
  Some (set_units s (<[p := {| id := id U; next := v; prev := prev U; iseq := iseq U |}]> (units s))).

Definition set_prev (s : queue_state) (p : Z) (v : option Z) : option queue_state :=
  U ← units s !! p;
  Some (set_units s (<[p := {| id := id U; next := next U; prev := v; iseq := iseq U |}]> (units s))).

(** [unit->next] and [unit->prev], read from the current heap. *)
Definition next_of (s : queue_state) (u : Z) : option (option Z) := U ← units s !! u; Some (next U).
Definition prev_of (s : queue_state) (u : Z) : option (option Z) := U ← units s !! u; Some (prev U).

(** Dereference a pointer that must not be [NULL]. *)
Definition deref (p : option Z) : option Z := p.

Definition remove_from_unit_queue (unit : Z) (s : queue_state) : option queue_state :=
  U ← units s !! unit;
  match prev U, next U with
  | Some _, Some _ =>
      (* unit->prev->next = unit->next; *)
      p ← prev_of s unit ≫= deref; n ← next_of s unit;
      s ← set_next s p n;
      (* unit->next->prev = unit->prev; *)
      n ← next_of s unit ≫= deref; p ← prev_of s unit;
      set_prev s n p
  | None, Some _ =>
      (* unit_queue = unit->next; unit->next->prev = NULL; *)
      n ← next_of s unit;
      let s := set_unit_queue s n in
      n ← next_of s unit ≫= deref;
      set_prev s n None
  | Some _, None =>
      (* unit->prev->next = NULL; *)
      p ← prev_of s unit ≫= deref;
      set_next s p None
  | None, None => Some (set_unit_queue s None)
  end.

(** The [for] loop of [get_from_unit_queue]; [fuel] bounds the walk (the
    list is finite, see [C3]). *)
Fixpoint find_best (fuel : nat) (s : queue_state) (unit dequeued : option Z)
    : option (option Z) :=
  match unit with
  | None => Some dequeued
  | Some u =>
      match fuel with
      | O => None
      | S fuel' =>
          U ← units s !! u;
          match iseq U with
          | None => find_best fuel' s (next U) dequeued   (* continue *)
          | Some i =>
              match dequeued with
              | None => find_best fuel' s (next U) (Some u)
              | Some d =>
                  D ← units s !! d; di ← iseq D;
                  if total_calls s di <? total_calls s i
                  then find_best fuel' s (next U) (Some u)
                  else find_best fuel' s (next U) dequeued
              end
          end
      end
  end.

Definition get_from_unit_queue (s : queue_state) : option (option Z * queue_state) :=
  match unit_queue s with
  | None => Some (None, s)
  | Some _ =>
      dequeued ← find_best (S (size (units s))) s (unit_queue s) None;
      match dequeued with
      | None => Some (None, s)
      | Some u => s' ← remove_from_unit_queue u s; Some (Some u, s')
      end
  end.

(** The walk [tail = tail->next] of [add_to_unit_queue]. *)
Fixpoint find_tail (fuel : nat) (s : queue_state) (tail : Z) : option Z :=
  match fuel with
  | O => None
  | S fuel' =>
      T ← units s !! tail;
      match next T with None => Some tail | Some n => find_tail fuel' s n end
  end.

Definition add_to_unit_queue (unit : Z) (s : queue_state) : option queue_state :=
  match unit_queue s with
  | None => Some (set_unit_queue s (Some unit))
  | Some head =>
      tail ← find_tail (S (size (units s))) s head;
      s ← set_next s tail (Some unit);
      set_prev s unit (Some tail)
  end.

(** [l] is the list from [cur] on: each unit's [prev] is the one before
    it ([prev0] for the first), the last one's [next] is [nxt], and
    [last] is the last unit ([prev0] if [l] is empty). *)
Fixpoint lseg (h : gmap Z rb_mjit_unit) (prev0 cur : option Z) (l : list Z)
    (last nxt : option Z) : Prop :=
  match l with
  | [] => prev0 = last /\ cur = nxt
  | u :: r => cur = Some u /\
      exists U, h !! u = Some U /\ prev U = prev0 /\ lseg h (Some u) (next U) r last nxt
  end.

(** The queue holds the units [l], in this order. *)
Definition repr (s : queue_state) (l : list Z) : Prop :=
  List.NoDup l /\ exists last, lseg (units s) None (unit_queue s) l last None.

(** [unit->iseq->body->total_calls] if [unit->iseq] is not [NULL]. *)
Definition unit_calls (s : queue_state) (u : Z) : option Z :=
  U ← units s !! u; i ← iseq U; Some (total_calls s i).

(** The choice of the [for] loop, on the list of units. *)
Fixpoint best_list (s : queue_state) (l : list Z) (d : option Z) : option Z :=
  match l with
  | [] => d
  | u :: r =>
      match unit_calls s u with
      | None => best_list s r d
      | Some c =>
          match d with
          | None => best_list s r (Some u)
          | Some d' =>
              match unit_calls s d' with
              | Some cd => if cd <? c then best_list s r (Some u) else best_list s r d
              | None => d
              end
          end
      end
  end.

End MjitQueue.
Import MjitQueue.

(** * Part 3: the worker thread, the GC hooks and the client (mjit.c)

    Interleavings are a step relation on the shared state and the
    program counters of the two threads: the worker and the client (the
    Ruby thread, which runs the GC hooks, [mjit_add_iseq_to_process] and
    [mjit_finish]).  Taking the mutex is a step that needs it free; a
    [pthread_cond_wait] releases it, and the waiting thread may take it
    back whenever it is free (any wake-up, spurious ones included).  Code
    that only touches thread-local data (writing the C file, running the
    C compiler, loading the object) is one local step.  The model starts
    after [make_pch] succeeded and [mjit_finish] saw the PCH ready. *)
Module Engine.

Inductive thread := Worker | Client.

Inductive wpc :=
| W_HEAD                   (* while (!finish_worker_p) *)
| W_LOCK_DEQ               (* CRITICAL_SECTION_START "in worker dequeue" *)
| W_INNER                  (* while (unit_queue == NULL && !finish_worker_p), holding the mutex *)
| W_WAIT_UNIT              (* pthread_cond_wait(&mjit_worker_wakeup) *)
| W_LOCK_GC                (* convert_unit_to_func: CRITICAL_SECTION_START before mjit_compile *)
| W_CHECK_GC               (* while (in_gc), holding the mutex *)
| W_WAIT_GC                (* pthread_cond_wait(&mjit_gc_wakeup) *)
| W_SET_JIT                (* in_jit = TRUE, holding the mutex *)
| W_COMPILE                (* mjit_compile(f, unit->iseq->body, funcname) *)
| W_LOCK_JIT_END           (* CRITICAL_SECTION_START after mjit_compile *)
| W_CLEAR_JIT              (* in_jit = FALSE; signal; holding the mutex *)
| W_BUILD                  (* compile_c_to_so, load_func_from_so *)
| W_LOCK_PUBLISH           (* CRITICAL_SECTION_START "in jit func replace" *)
| W_PUBLISH                (* ATOMIC_SET(unit->iseq->body->jit_func, func), holding the mutex *)
| W_LOCK_END               (* CRITICAL_SECTION_START at the end of worker *)
| W_SET_FINISHED           (* worker_finished = TRUE, holding the mutex *)
| W_UNLOCK_END             (* CRITICAL_SECTION_FINISH at the end of worker *)
| W_DONE.

Inductive cpc :=
| C_IDLE
| C_LOCK_GC_START          (* mjit_gc_start_hook: CRITICAL_SECTION_START *)
| C_CHECK_JIT              (* while (in_jit), holding the mutex *)
| C_WAIT_JIT               (* pthread_cond_wait(&mjit_client_wakeup) *)
| C_SET_GC                 (* in_gc = TRUE, holding the mutex *)
| C_IN_GC                  (* the GC runs *)
| C_LOCK_GC_FINISH         (* mjit_gc_finish_hook: CRITICAL_SECTION_START *)
| C_CLEAR_GC               (* in_gc = FALSE; broadcast; holding the mutex *)
| C_FINISH_LOOP            (* mjit_finish: while (!worker_finished) *)
| C_DONE.

Record engine := {
  mutex : option thread;           (* the owner of mjit_engine_mutex *)
  in_gc : bool;
  in_jit : bool;
  finish_worker_p : bool;
  worker_finished : bool;
  queue : queue_state;             (* unit_queue and the units *)
  current_unit_num : Z;
  w_pc : wpc;
  w_unit : option Z;               (* the worker's local [unit] *)
  c_pc : cpc;
  (* ghost: get_from_unit_queue calls made with finish_worker_p set *)
  deq_after_finish : nat;
  (* ghost: the worker had passed its loop test when finish_worker_p was set *)
  finish_in_loop : bool }.

Definition with_mutex (e : engine) (m : option thread) : engine :=
  {| mutex := m; in_gc := in_gc e; in_jit := in_jit e; finish_worker_p := finish_worker_p e;
     worker_finished := worker_finished e; queue := queue e; current_unit_num := current_unit_num e;
     w_pc := w_pc e; w_unit := w_unit e; c_pc := c_pc e; deq_after_finish := deq_after_finish e;
     finish_in_loop := finish_in_loop e |}.

Definition with_w (e : engine) (pc : wpc) : engine :=
  {| mutex := mutex e; in_gc := in_gc e; in_jit := in_jit e; finish_worker_p := finish_worker_p e;
     worker_finished := worker_finished e; queue := queue e; current_unit_num := current_unit_num e;
     w_pc := pc; w_unit := w_unit e; c_pc := c_pc e; deq_after_finish := deq_after_finish e;
     finish_in_loop := finish_in_loop e |}.

Definition with_c (e : engine) (pc : cpc) : engine :=
  {| mutex := mutex e; in_gc := in_gc e; in_jit := in_jit e; finish_worker_p := finish_worker_p e;
     worker_finished := worker_finished e; queue := queue e; current_unit_num := current_unit_num e;
     w_pc := w_pc e; w_unit := w_unit e; c_pc := pc; deq_after_finish := deq_after_finish e;
     finish_in_loop := finish_in_loop e |}.

Definition with_flags (e : engine) (gc jit wf : bool) : engine :=
  {| mutex := mutex e; in_gc := gc; in_jit := jit; finish_worker_p := finish_worker_p e;
     worker_finished := wf; queue := queue e; current_unit_num := current_unit_num e;
     w_pc := w_pc e; w_unit := w_unit e; c_pc := c_pc e; deq_after_finish := deq_after_finish e;
     finish_in_loop := finish_in_loop e |}.

(** [unit = get_from_unit_queue()]; the ghost counter counts the calls
    made once [finish_worker_p] is set. *)
Definition with_dequeued (e : engine) (q : queue_state) (u : option Z) : engine :=
  {| mutex := mutex e; in_gc := in_gc e; in_jit := in_jit e; finish_worker_p := finish_worker_p e;
     worker_finished := worker_finished e; queue := q; current_unit_num := current_unit_num e;
     w_pc := w_pc e; w_unit := u; c_pc := c_pc e;
     deq_after_finish := if finish_worker_p e then S (deq_after_finish e) else deq_after_finish e;
     finish_in_loop := finish_in_loop e |}.

Definition with_queue (e : engine) (q : queue_state) (n : Z) : engine :=
  {| mutex := mutex e; in_gc := in_gc e; in_jit := in_jit e; finish_worker_p := finish_worker_p e;
     worker_finished := worker_finished e; queue := q; current_unit_num := n;
     w_pc := w_pc e; w_unit := w_unit e; c_pc := c_pc e; deq_after_finish := deq_after_finish e;
     finish_in_loop := finish_in_loop e |}.

(** The worker is past its loop test and before its [get_from_unit_queue]. *)
Definition in_loop (pc : wpc) : bool :=
  match pc with W_LOCK_DEQ | W_INNER | W_WAIT_UNIT => true | _ => false end.

(** [finish_worker_p = TRUE] in [mjit_finish], outside the mutex. *)
Definition with_finish (e : engine) : engine :=
  {| mutex := mutex e; in_gc := in_gc e; in_jit := in_jit e; finish_worker_p := true;
     worker_finished := worker_finished e; queue := queue e; current_unit_num := current_unit_num e;
     w_pc := w_pc e; w_unit := w_unit e; c_pc := c_pc e; deq_after_finish := deq_after_finish e;
     finish_in_loop := in_loop (w_pc e) |}.

(** [create_unit] (a zeroed unit) and [add_to_unit_queue] under the mutex. *)
Definition create_and_add (e : engine) (u i : Z) : option queue_state :=
  let q := queue e in
  let U := {| id := current_unit_num e; next := None; prev := None; iseq := Some i |} in
  add_to_unit_queue u (set_units q (<[u := U]> (units q))).

Inductive step : engine -> engine -> Prop :=
(* worker *)
| w_head_enter e : w_pc e = W_HEAD -> finish_worker_p e = false -> step e (with_w e W_LOCK_DEQ)
| w_head_exit e : w_pc e = W_HEAD -> finish_worker_p e = true -> step e (with_w e W_LOCK_END)
| w_lock_deq e : w_pc e = W_LOCK_DEQ -> mutex e = None ->
    step e (with_w (with_mutex e (Some Worker)) W_INNER)
| w_wait_unit e : w_pc e = W_INNER -> mutex e = Some Worker ->
    unit_queue (queue e) = None -> finish_worker_p e = false ->
    step e (with_w (with_mutex e None) W_WAIT_UNIT)
| w_wake_unit e : w_pc e = W_WAIT_UNIT -> mutex e = None ->
    step e (with_w (with_mutex e (Some Worker)) W_INNER)
| w_dequeue e q' u : w_pc e = W_INNER -> mutex e = Some Worker ->
    (unit_queue (queue e) <> None \/ finish_worker_p e = true) ->
    get_from_unit_queue (queue e) = Some (u, q') ->
    step e (with_w (with_mutex (with_dequeued e q' u) None)
                   (match u with Some _ => W_LOCK_GC | None => W_HEAD end))
| w_lock_gc e : w_pc e = W_LOCK_GC -> mutex e = None ->
    step e (with_w (with_mutex e (Some Worker)) W_CHECK_GC)
| w_wait_gc e : w_pc e = W_CHECK_GC -> mutex e = Some Worker -> in_gc e = true ->
    step e (with_w (with_mutex e None) W_WAIT_GC)
| w_wake_gc e : w_pc e = W_WAIT_GC -> mutex e = None ->
    step e (with_w (with_mutex e (Some Worker)) W_CHECK_GC)
| w_no_gc e : w_pc e = W_CHECK_GC -> mutex e = Some Worker -> in_gc e = false ->
    step e (with_w e W_SET_JIT)
| w_set_jit e : w_pc e = W_SET_JIT -> mutex e = Some Worker ->
    step e (with_w (with_mutex (with_flags e (in_gc e) true (worker_finished e)) None) W_COMPILE)
| w_compile e : w_pc e = W_COMPILE -> step e (with_w e W_LOCK_JIT_END)
| w_lock_jit_end e : w_pc e = W_LOCK_JIT_END -> mutex e = None ->
    step e (with_w (with_mutex e (Some Worker)) W_CLEAR_JIT)
| w_clear_jit e : w_pc e = W_CLEAR_JIT -> mutex e = Some Worker ->
    step e (with_w (with_mutex (with_flags e (in_gc e) false (worker_finished e)) None) W_BUILD)
| w_build e : w_pc e = W_BUILD -> step e (with_w e W_LOCK_PUBLISH)
| w_lock_publish e : w_pc e = W_LOCK_PUBLISH -> mutex e = None ->
    step e (with_w (with_mutex e (Some Worker)) W_PUBLISH)
| w_publish e : w_pc e = W_PUBLISH -> mutex e = Some Worker ->
    step e (with_w (with_mutex e None) W_HEAD)
| w_lock_end e : w_pc e = W_LOCK_END -> mutex e = None ->
    step e (with_w (with_mutex e (Some Worker)) W_SET_FINISHED)
| w_set_finished e : w_pc e = W_SET_FINISHED -> mutex e = Some Worker ->
    step e (with_w (with_flags e (in_gc e) (in_jit e) true) W_UNLOCK_END)
| w_unlock_end e : w_pc e = W_UNLOCK_END -> mutex e = Some Worker ->
    step e (with_w (with_mutex e None) W_DONE)
(* client: mjit_gc_start_hook and mjit_gc_finish_hook *)
| c_gc_start e : c_pc e = C_IDLE -> step e (with_c e C_LOCK_GC_START)
| c_lock_gc_start e : c_pc e = C_LOCK_GC_START -> mutex e = None ->
    step e (with_c (with_mutex e (Some Client)) C_CHECK_JIT)
| c_wait_jit e : c_pc e = C_CHECK_JIT -> mutex e = Some Client -> in_jit e = true ->
    step e (with_c (with_mutex e None) C_WAIT_JIT)
| c_wake_jit e : c_pc e = C_WAIT_JIT -> mutex e = None ->
    step e (with_c (with_mutex e (Some Client)) C_CHECK_JIT)
| c_no_jit e : c_pc e = C_CHECK_JIT -> mutex e = Some Client -> in_jit e = false ->
    step e (with_c e C_SET_GC)
| c_set_gc e : c_pc e = C_SET_GC -> mutex e = Some Client ->
    step e (with_c (with_mutex (with_flags e true (in_jit e) (worker_finished e)) None) C_IN_GC)
| c_gc_run e : c_pc e = C_IN_GC -> step e (with_c e C_LOCK_GC_FINISH)
| c_lock_gc_finish e : c_pc e = C_LOCK_GC_FINISH -> mutex e = None ->
    step e (with_c (with_mutex e (Some Client)) C_CLEAR_GC)
| c_clear_gc e : c_pc e = C_CLEAR_GC -> mutex e = Some Client ->
    step e (with_c (with_mutex (with_flags e false (in_jit e) (worker_finished e)) None) C_IDLE)
(* client: mjit_add_iseq_to_process *)
| c_add e u i q' : c_pc e = C_IDLE -> mutex e = None -> units (queue e) !! u = None ->
    create_and_add e u i = Some q' ->
    step e (with_queue e q' (current_unit_num e + 1))
(* client: mjit_finish *)
| c_finish e : c_pc e = C_IDLE -> step e (with_c (with_finish e) C_FINISH_LOOP)
| c_finish_wait e : c_pc e = C_FINISH_LOOP -> worker_finished e = false -> mutex e = None ->
    step e e
(* the loop test reads worker_finished without the mutex *)
| c_finish_done e : c_pc e = C_FINISH_LOOP -> worker_finished e = true -> step e (with_c e C_DONE).

Definition engine_init (q : queue_state) : engine :=
  {| mutex := None; in_gc := false; in_jit := false; finish_worker_p := false;
     worker_finished := false; queue := q; current_unit_num := 0; w_pc := W_HEAD; w_unit := None;
     c_pc := C_IDLE; deq_after_finish := 0; finish_in_loop := false |}.

Definition reachable (q : queue_state) (e : engine) : Prop := rtc step (engine_init q) e.

End Engine.
Import Engine.

(** * Part 4: loading the shared object and publishing the function *)

(** Modelled from the spec: the values of the entry slot
    [body->jit_func] other than function addresses.  They are declared
    in vm_core.h (outside the sources given here) as the distinct small
    integers below, under every function address; the spec names them
    "not yet attempted" and "not compilable". *)
Definition NOT_ADDED_JIT_ISEQ_FUNC : Z := 0.
Definition NOT_READY_JIT_ISEQ_FUNC : Z := 1.
Definition NOT_COMPILABLE_JIT_ISEQ_FUNC : Z := 2.
Definition LAST_JIT_ISEQ_FUNC : Z := 3.

(** [load_func_from_so]: [dlopen_res] is what [dlopen] returns ([None]
    for [NULL]), [dlsym_res] what [dlsym] returns ([0] for [NULL]) and
    [dl_error] what [dlerror] returns.  Returns the function, the lines
    printed to stderr and the new [unit->handle]. *)
Definition load_func_from_so (opts : mjit_options) (so_file funcname dl_error : string)
    (dlopen_res : option Z) (dlsym_res : Z) : Z * list line * option Z :=
  match dlopen_res with
  | None =>
      (NOT_ADDED_JIT_ISEQ_FUNC,
       if opt_warnings opts || negb (opt_verbose opts =? 0)
       then [T "MJIT warning: failure in loading code from '%s': %s" [AS so_file; AS dl_error]]
       else [],
       None)
  | Some handle => (dlsym_res, [], Some handle)
  end.

(** [convert_unit_to_func] after the translation: [cc_ok] is the result
    of [compile_c_to_so].  Lines printed by [verbose] are left out except
    where a level below 1 prints nothing anyway. *)
Definition convert_unit_to_func (env : compile_env) (body : rb_iseq_constant_body)
    (so_file funcname dl_error : string) (cc_ok : bool) (dlopen_res : option Z) (dlsym_res : Z)
    : Z * list line :=
  let st := mjit_compile env body funcname in
  if negb (success st) then (NOT_COMPILABLE_JIT_ISEQ_FUNC, [])
  else if negb cc_ok then (NOT_COMPILABLE_JIT_ISEQ_FUNC, [])
  else
    let '(func, errs, _) :=
      load_func_from_so (mjit_opts env) so_file funcname dl_error dlopen_res dlsym_res in
    (func, errs).

(** The worker: [if (unit->iseq) ATOMIC_SET(unit->iseq->body->jit_func, func)]. *)
Definition publish (unit_iseq : option Z) (jit_func func : Z) : Z :=
  match unit_iseq with Some _ => func | None => jit_func end.

(* ================================================================= *)
(** * Part 5: command lines, file names and the remaining entry points
    of mjit.c

    The argument arrays are those of the non-Mach build.  A C array of
    strings is the list of its slots, [None] for [NULL]. *)
Module MjitProcess.

Local Open Scope string_scope.

Definition c_argv := list (option string).

(** [args_len]: the index of the first [NULL].  [None] when the array
    holds no [NULL]: the loop would read past its end. *)
Fixpoint args_len (args : c_argv) : option nat :=
  match args with
  | [] => None
  | None :: _ => Some 0%nat
  | Some _ :: r => option_map S (args_len r)
  end.

(** [memmove(res + disp, args, len * sizeof(char * ))]: the first [len]
    slots of [args] written from index [disp] on. *)
Fixpoint memmove_args (res : c_argv) (disp : nat) (args : c_argv) (len : nat) : c_argv :=
  match len, args with
  | S len', a :: r => memmove_args (<[disp := a]> res) (S disp) r len'
  | _, _ => res
  end.

(** The first loop of [form_args]: [len += args_len(args)]. *)
Fixpoint sum_args_len (arrays : list c_argv) (len : nat) : option nat :=
  match arrays with
  | [] => Some len
  | a :: r => l ← args_len a; sum_args_len r (len + l)
  end.

(** The second loop: [len = args_len(args); memmove(...); disp += len]. *)
Fixpoint copy_args (arrays : list c_argv) (res : c_argv) (disp : nat) : option (c_argv * nat) :=
  match arrays with
  | [] => Some (res, disp)
  | a :: r => len ← args_len a; copy_args r (memmove_args res disp a len) (disp + len)
  end.

(** [form_args(num, a1, ..., anum)] with [arrays = [a1; ...; anum]].
    [alloc_ok] tells whether [xmalloc] returns a block of [len + 1]
    slots; they hold [garbage] until written.  [None] is a [NULL]
    result (or an array without its [NULL] marker). *)
Definition form_args (alloc_ok : bool) (garbage : option string) (arrays : list c_argv)
    : option c_argv :=
  len ← sum_args_len arrays 0;
  if negb alloc_ok then None else
  match copy_args arrays (repeat garbage (S len)) 0 with
  | Some (res, disp) => Some (<[disp := None]> res)
  | None => None
  end.

(** A [NULL]-terminated array literal. *)
Definition argv (l : list string) : c_argv := (map Some l ++ [None])%list.

Definition GCC_COMMON_ARGS_DEBUG : c_argv :=
  argv ["gcc"; "-O0"; "-g"; "-Wfatal-errors"; "-fPIC"; "-shared"; "-w"; "-pipe";
        "-nostartfiles"; "-nodefaultlibs"; "-nostdlib"].
Definition GCC_COMMON_ARGS : c_argv :=
  argv ["gcc"; "-O2"; "-Wfatal-errors"; "-fPIC"; "-shared"; "-w"; "-pipe";
        "-nostartfiles"; "-nodefaultlibs"; "-nostdlib"].
Definition GCC_USE_PCH_ARGS : c_argv := argv ["-I/tmp"].
Definition GCC_EMIT_PCH_ARGS : c_argv := argv [].
Definition LLVM_COMMON_ARGS_DEBUG : c_argv :=
  argv ["clang"; "-O0"; "-g"; "-fPIC"; "-shared"; "-I/usr/local/include";
        "-L/usr/local/lib"; "-w"; "-bundle"].
Definition LLVM_COMMON_ARGS : c_argv :=
  argv ["clang"; "-O2"; "-fPIC"; "-shared"; "-I/usr/local/include";
        "-L/usr/local/lib"; "-w"; "-bundle"].
Definition LLVM_USE_PCH_ARGS : c_argv :=
  [Some "-include-pch"; None; Some "-Wl,-undefined"; Some "-Wl,dynamic_lookup"; None].
Definition LLVM_EMIT_PCH_ARGS : c_argv := argv ["-emit-pch"].

(** [cc_path = mjit_opts.llvm ? LLVM_PATH : GCC_PATH] in [mjit_init]. *)
Definition cc_path (opts : mjit_options) : string :=
  if opt_llvm opts then "clang" else "gcc".

(** [(mjit_opts.debug ? XXX_COMMON_ARGS_DEBUG : XXX_COMMON_ARGS)]. *)
Definition common_args (opts : mjit_options) : c_argv :=
  if opt_llvm opts then (if opt_debug opts then LLVM_COMMON_ARGS_DEBUG else LLVM_COMMON_ARGS)
  else (if opt_debug opts then GCC_COMMON_ARGS_DEBUG else GCC_COMMON_ARGS).

(** The [args] [make_pch] passes to [exec_process]:
    [input = {header_file, NULL}], [output = {"-o", pch_file, NULL}]. *)
Definition make_pch_args (opts : mjit_options) (header_file pch_file : option string)
    (alloc_ok : bool) (garbage : option string) : option c_argv :=
  let input := [header_file; None] in
  let output := [Some "-o"; pch_file; None] in
  if opt_llvm opts
  then form_args alloc_ok garbage [common_args opts; LLVM_EMIT_PCH_ARGS; input; output]
  else form_args alloc_ok garbage [common_args opts; GCC_EMIT_PCH_ARGS; input; output].

(** The [args] [compile_c_to_so] passes to [exec_process]; with LLVM it
    first sets [LLVM_USE_PCH_ARGS[1] = pch_file]. *)
Definition compile_c_to_so_args (opts : mjit_options) (pch_file : option string)
    (c_file so_file : string) (alloc_ok : bool) (garbage : option string) : option c_argv :=
  let input := [Some c_file; None] in
  let output := [Some "-o"; Some so_file; None] in
  if opt_llvm opts
  then form_args alloc_ok garbage
         [common_args opts; <[1%nat := pch_file]> LLVM_USE_PCH_ARGS; input; output]
  else form_args alloc_ok garbage [common_args opts; GCC_USE_PCH_ARGS; input; output].

(** The decimal conversion of [printf]: the digits of [n], most
    significant first, put before [acc]; [fuel] bounds their number. *)
Fixpoint dec_aux (fuel : nat) (n : N) (acc : string) : string :=
  match fuel with
  | O => acc
  | S fuel' =>
      let acc' := String (ascii_of_N (48 + N.modulo n 10)) acc in
      if (n <? 10)%N then acc' else dec_aux fuel' (N.div n 10) acc'
  end.

(** [%lu] of an [unsigned long] (64 bits, at most 20 digits). *)
Definition fmt_lu (n : Z) : string := dec_aux 20 (Z.to_N (n mod 2 ^ 64)%Z) EmptyString.

(** [%d] of an [int] (at most 10 digits and the sign). *)
Definition fmt_d (n : Z) : string :=
  if (n <? 0)%Z then String "-" (dec_aux 10 (Z.to_N (- n)%Z) EmptyString)
  else dec_aux 10 (Z.to_N n) EmptyString.

(** [sprint_uniq_filename(str, id, prefix, suffix)], [getpid()] being [pid]:
    [sprintf(str, "/tmp/%sp%luu%lu%s", prefix, (unsigned long) getpid(), id, suffix)]. *)
Definition sprint_uniq_filename (pid id : Z) (prefix suffix : string) : string :=
  ("/tmp/" ++ prefix ++ "p" ++ fmt_lu pid ++ "u" ++ fmt_lu id ++ suffix)%string.

(** The names [convert_unit_to_func] builds for the unit [unit_id]
    (into [c_file[70]], [so_file[70]] and [funcname[35]]), and the name
    [mjit_init] builds for the precompiled header
    ([get_uniq_filename(0, "_mjit_h", ".h.gch")], through [str[70]]). *)
Definition unit_c_file (pid unit_id : Z) : string := sprint_uniq_filename pid unit_id "_mjit" ".c".
Definition unit_so_file (pid unit_id : Z) : string := sprint_uniq_filename pid unit_id "_mjit" ".so".
Definition unit_funcname (unit_id : Z) : string := ("_mjit" ++ fmt_d unit_id)%string.
Definition pch_file_name (pid : Z) : string := sprint_uniq_filename pid 0 "_mjit_h" ".h.gch".

(** [for (s = pch_file; strcmp(s, ".gch") != 0; s++) fprintf(f, "%c", *s);]
    in [convert_unit_to_func]: the characters printed, or [None] once
    [s] steps past the terminating NUL. *)
Fixpoint print_pch_stem (s : string) : option string :=
  if String.eqb s ".gch" then Some EmptyString else
  match s with
  | EmptyString => None
  | String c r => option_map (String c) (print_pch_stem r)
  end.

(** What [convert_unit_to_func] writes before the translation (the
    newline dropped): [#include "<pch_file without .gch>"] unless LLVM
    is used. *)
Definition c_file_prelude (opts : mjit_options) (pch_file : string) : option (list string) :=
  if opt_llvm opts then Some []
  else option_map (fun stem => [("#include " ++ dq ++ stem ++ dq)%string]) (print_pch_stem pch_file).

(** [mjit_free_iseq] once MJIT is initialised, under the mutex:
    [if (iseq->body->jit_unit) iseq->body->jit_unit->iseq = NULL].
    [jit_unit] is [iseq->body->jit_unit] ([None] for [NULL]); the result
    is [None] if it does not point to a unit of the heap. *)
Definition mjit_free_iseq (jit_unit : option Z) (s : queue_state) : option queue_state :=
  match jit_unit with
  | None => Some s
  | Some u =>
      U ← units s !! u;
      Some (set_units s (<[u := {| id := id U; next := next U; prev := prev U; iseq := None |}]>
                           (units s)))
  end.

End MjitProcess.
Import MjitProcess.

(** * Auxiliary definitions for the proofs *)

Definition cfp_le (a b : list bool) : Prop :=
  length a = length b /\ forall n, nth n a false = true -> nth n b false = true.

Fixpoint unmarked (l : list bool) : nat :=
  match l with
  | [] => O
  | x :: r => ((if x then 0 else 1) + unmarked r)%nat
  end.

Definition is_marked (st : compile_status) (p : Z) : Prop := is_compiled st p = true.

(** [st'] extends [st]: the marks only grow, and the steps logged in
    between are at distinct in-range positions, unmarked in [st] and
    marked in [st']. *)
Definition visits_fresh (body : rb_iseq_constant_body) (st st' : compile_status) : Prop :=
  cfp_le (compiled_for_pos st) (compiled_for_pos st') /\
  exists new, visited st' = visited st ++ new /\ NoDup (map step_pos new) /\
    Forall (fun s => 0 <= step_pos s < iseq_size body /\
                     is_compiled st (step_pos s) = false /\
                     is_compiled st' (step_pos s) = true) new.

(** The fields of the status that only [compile_insns] changes. *)
Definition same_fields (s s' : compile_status) : Prop :=
  compiled_for_pos s' = compiled_for_pos s /\ visited s' = visited s /\
  exhausted s' = exhausted s.

(** The status [compile_insns] starts from in [mjit_compile]. *)
Definition status_before_insns (env : compile_env) (body : rb_iseq_constant_body)
    (funcname : string) : compile_status :=
  let st := initial_status body in
  let st := emit st [func_header funcname] in
  let st := if 0 <? stack_max body then emit st [stack_decl (stack_max body)] else st in
  emit st (opt_pc_switch body).

Definition success_tracks (smax : Z) (s s' : compile_status) : Prop :=
  exists new, visited s' = visited s ++ new /\ success s' = success s && steps_ok smax new.

Fixpoint last_line (prev : option line) (ls : list line) : option line :=
  match ls with [] => prev | l :: r => last_line (Some l) r end.

Definition goto_label_line (p : Z) : line := T "  goto label_%d;" [AI p].

Definition plain_line (l : line) : bool :=
  negb (is_goto_cancel l) && negb (String.eqb (line_fmt l) fmt_label) &&
  negb (String.eqb (line_fmt l) fmt_cancel_label).

(** Running the [*((VALUE * )cfp->bp + a) = stack[b];] lines of the cancel
    handler on the VM stack memory [mem] (indexed in [VALUE]s), with the
    local array [stack] and the frame's [cfp->bp]; other lines write no
    VM stack slot. *)
Definition exec_line (stack : Z -> Z) (bp : Z) (mem : Z -> Z) (l : line) : Z -> Z :=
  match l with
  | LText f [AI a; AI b] =>
      if String.eqb f fmt_write_back then fun x => if x =? bp + a then stack b else mem x
      else mem
  | _ => mem
  end.

Definition exec_lines (stack : Z -> Z) (bp : Z) (mem : Z -> Z) (ls : list line) : Z -> Z :=
  fold_left (exec_line stack bp) ls mem.

Definition body_push : rb_iseq_constant_body :=
  mk_body [VInsn YARVINSN_putobject; VObj 3; VInsn YARVINSN_leave] 0.

(** A queue of three units; the middle one's iseq was GCed. *)
Definition q0 : queue_state :=
  {| units := <[1 := {| id := 0; next := Some 2; prev := None; iseq := Some 10 |}]>
             (<[2 := {| id := 1; next := Some 3; prev := Some 1; iseq := None |}]>
             (<[3 := {| id := 2; next := None; prev := Some 2; iseq := Some 30 |}]> ∅));
     unit_queue := Some 1;
     total_calls := fun i => if i =? 10 then 7 else if i =? 30 then 9 else 0 |}.

Definition gc_inv (e : engine) : Prop :=
  ~ (in_jit e = true /\ in_gc e = true) /\
  (w_pc e = W_SET_JIT -> mutex e = Some Worker /\ in_gc e = false) /\
  (c_pc e = C_SET_GC -> mutex e = Some Client /\ in_jit e = false).


(** The queue [q0] once its best unit (3) is dequeued. *)
Definition q0_after : queue_state :=
  match get_from_unit_queue q0 with Some (_, q') => q' | None => q0 end.

(** The recursive call [compile_insns] makes from [compile_insn]. *)
Definition loop_rec (env : compile_env) (body : rb_iseq_constant_body) (fuel : nat)
    : Z -> Z -> compile_status -> compile_status :=
  fun ss p s => compile_insns_loop fuel env body {| stack_size := ss; finish_p := false |} p s.

(** The strings of a C array before its [NULL] marker. *)
Fixpoint c_strings (a : c_argv) : list string :=
  match a with
  | [] => []
  | None :: _ => []
  | Some x :: r => x :: c_strings r
  end.

(** Decimal digits, and the value of a digit string read by [strtoul]. *)
Definition is_digit (c : ascii) : bool :=
  (48 <=? N_of_ascii c)%N && (N_of_ascii c <=? 57)%N.

Fixpoint all_digits (s : string) : bool :=
  match s with
  | EmptyString => true
  | String c r => is_digit c && all_digits r
  end.

Definition starts_nondigit (s : string) : bool :=
  match s with
  | EmptyString => true
  | String c _ => negb (is_digit c)
  end.

Fixpoint dec_value (v : N) (s : string) : N :=
  match s with
  | EmptyString => v
  | String c r => dec_value (v * 10 + (N_of_ascii c - 48))%N r
  end.

(** The worker holds the mutex only at these points, the client only at
    those. *)
Definition w_holds (pc : wpc) : bool :=
  match pc with
  | W_INNER | W_CHECK_GC | W_SET_JIT | W_CLEAR_JIT | W_PUBLISH | W_SET_FINISHED | W_UNLOCK_END => true
  | _ => false
  end.

Definition c_holds (pc : cpc) : bool :=
  match pc with C_CHECK_JIT | C_SET_GC | C_CLEAR_GC => true | _ => false end.

Definition in_jit_section (pc : wpc) : bool :=
  match pc with W_COMPILE | W_LOCK_JIT_END | W_CLEAR_JIT => true | _ => false end.

Definition shut_inv (e : engine) : Prop :=
  (worker_finished e = true <-> w_pc e = W_UNLOCK_END \/ w_pc e = W_DONE) /\
  (c_pc e = C_DONE -> worker_finished e = true) /\
  (in_jit e = true -> in_jit_section (w_pc e) = true) /\
  (mutex e = Some Worker -> w_holds (w_pc e) = true) /\
  (mutex e = Some Client -> c_holds (c_pc e) = true).


(** The worker is past its main loop. *)
Definition exit_pc (pc : wpc) : bool :=
  match pc with W_LOCK_END | W_SET_FINISHED | W_UNLOCK_END | W_DONE => true | _ => false end.

Definition exit_inv (e : engine) : Prop :=
  (exit_pc (w_pc e) = true -> finish_worker_p e = true) /\
  (w_pc e = W_SET_FINISHED -> mutex e = Some Worker) /\
  (w_pc e = W_UNLOCK_END -> mutex e = Some Worker).

(** The operations of mjit.c on the unit queue: [get_from_unit_queue] (in
    [worker]), [create_unit] and [add_to_unit_queue] of a newly allocated
    unit (in [mjit_add_iseq_to_process]) and [mjit_free_iseq] (by the GC). *)
Inductive queue_op : queue_state -> queue_state -> Prop :=
| qop_get s v s' : get_from_unit_queue s = Some (v, s') -> queue_op s s'
| qop_add e w i s' : units (queue e) !! w = None -> create_and_add e w i = Some s' ->
    queue_op (queue e) s'
| qop_free s w s' : mjit_free_iseq (Some w) s = Some s' -> queue_op s s'.

(** * Proofs: the translator *)

Example body_plus_ok : success (mjit_compile env0 body_plus "_mjit0") = true.
Proof. vm_compute. reflexivity. Qed.

Example q0_best : option_map fst (get_from_unit_queue q0) = Some (Some 3).
Proof. reflexivity. Qed.

(** ** Positions marked in [compiled_for_pos] *)

Lemma nth_insert_true (l : list bool) (k n : nat) :
  nth n (<[k := true]> l) false =
  if decide (n = k /\ (k < length l)%nat) then true else nth n l false.
Proof.
  revert k n; induction l as [|x l IH]; intros [|k] [|n]; simpl; auto.
  all: try rewrite IH; repeat destruct (decide _); try reflexivity; exfalso; lia.
Qed.

Lemma insert_true_length (l : list bool) k : length (<[k := true]> l) = length l.
Proof. apply length_insert. Qed.

Lemma cfp_le_refl l : cfp_le l l.
Proof. split; auto. Qed.

Lemma cfp_le_trans a b c : cfp_le a b -> cfp_le b c -> cfp_le a c.
Proof. intros [H1 H2] [H3 H4]; split; [congruence | auto]. Qed.

Lemma cfp_le_insert l k : cfp_le l (<[k := true]> l).
Proof.
  split; [symmetry; apply insert_true_length|].
  intros n Hn. rewrite nth_insert_true. destruct (decide _); auto.
Qed.

Lemma unmarked_insert (l : list bool) k :
  (k < length l)%nat -> nth k l false = false ->
  S (unmarked (<[k := true]> l)) = unmarked l.
Proof.
  revert k; induction l as [|x l IH]; intros [|k] Hk Hx; simpl in *; try lia.
  - subst x. reflexivity.
  - rewrite <- (IH k); [destruct x; lia | lia | assumption].
Qed.

Lemma unmarked_le a b : cfp_le a b -> (unmarked b <= unmarked a)%nat.
Proof.
  revert b; induction a as [|x a IH]; intros [|y b] [Hl Hn]; simpl in *; try lia.
  assert (Hab : cfp_le a b).
  { split; [lia|]. intros n H. apply (Hn (S n)). exact H. }
  specialize (IH b Hab). specialize (Hn O). simpl in Hn.
  destruct x, y; try lia; discriminate (Hn eq_refl).
Qed.

Lemma unmarked_le_length l : (unmarked l <= length l)%nat.
Proof. induction l as [|[] l IH]; simpl; lia. Qed.

(** ** Compilation visits each position at most once *)

Lemma is_compiled_le st st' p :
  cfp_le (compiled_for_pos st) (compiled_for_pos st') ->
  is_compiled st p = true -> is_compiled st' p = true.
Proof. intros [_ H]. apply H. Qed.

Lemma visits_fresh_same body st st' :
  compiled_for_pos st' = compiled_for_pos st -> visited st' = visited st ->
  visits_fresh body st st'.
Proof.
  intros Hc Hv. split; [rewrite Hc; apply cfp_le_refl|].
  exists []. rewrite Hv, app_nil_r. repeat split; constructor.
Qed.

Lemma visits_fresh_trans body s1 s2 s3 :
  visits_fresh body s1 s2 -> visits_fresh body s2 s3 -> visits_fresh body s1 s3.
Proof.
  intros [Hle1 (n1 & Hv1 & Hnd1 & Hf1)] [Hle2 (n2 & Hv2 & Hnd2 & Hf2)].
  split; [eapply cfp_le_trans; eauto|].
  exists (n1 ++ n2). split; [rewrite Hv2, Hv1, app_assoc; reflexivity|]. split.
  - rewrite map_app. apply NoDup_app. split; [exact Hnd1|]. split; [|exact Hnd2].
    intros x Hx1 Hx2.
    apply list_elem_of_In, in_map_iff in Hx1 as (s & <- & Hs1).
    apply list_elem_of_In, in_map_iff in Hx2 as (s' & Hs' & Hs2).
    rewrite Forall_forall in Hf1, Hf2.
    apply list_elem_of_In in Hs1, Hs2.
    destruct (Hf1 s Hs1) as (_ & _ & Ht). destruct (Hf2 s' Hs2) as (_ & Hf & _).
    rewrite Hs' in Hf. congruence.
  - apply Forall_app. split.
    + eapply Forall_impl; [exact Hf1|]. intros s (Hr & Ha & Hb).
      repeat split; try lia; auto. eapply is_compiled_le; eauto.
    + eapply Forall_impl; [exact Hf2|]. intros s (Hr & Ha & Hb).
      repeat split; try lia; auto.
      destruct (is_compiled s1 (step_pos s)) eqn:E; auto.
      rewrite (is_compiled_le _ _ _ Hle1 E) in Ha. discriminate.
Qed.

Lemma visits_fresh_frame body s0 s1 s2 s3 :
  compiled_for_pos s1 = compiled_for_pos s0 -> visited s1 = visited s0 ->
  visits_fresh body s1 s2 ->
  compiled_for_pos s3 = compiled_for_pos s2 -> visited s3 = visited s2 ->
  visits_fresh body s0 s3.
Proof.
  intros Hc1 Hv1 H Hc3 Hv3.
  eapply visits_fresh_trans; [apply visits_fresh_same; eauto|].
  eapply visits_fresh_trans; [exact H|apply visits_fresh_same; eauto].
Qed.

Lemma u32_range x : 0 <= u32 x < 2 ^ 32.
Proof. unfold u32. apply Z.mod_pos_bound. lia. Qed.

(** Positions computed by the [switch] are [unsigned int]s. *)
Lemma switch_positions env body i pos ss :
  let c := compile_insn_switch env body i pos ss in
  0 <= code_next c /\ (forall ss' p, code_branch c = Some (ss', p) -> 0 <= p).
Proof.
  destruct i; cbn; try (destruct (compile_send _ _ _ _)); cbn;
    (split; [apply u32_range|]); intros ss' p H; try discriminate;
    injection H as _ <-; apply u32_range.
Qed.

(** [compile_insn] changes [compiled_for_pos], [visited] and [exhausted]
    only through its nested [compile_insns] call. *)
Lemma compile_insn_fields env rec body i pos st b
    (P : compile_status -> compile_status -> Prop) :
  (forall s0 s1 s2 s3, same_fields s0 s1 -> P s1 s2 -> same_fields s2 s3 -> P s0 s3) ->
  (forall s, P s s) ->
  (forall ss p s, 0 <= p -> same_fields st s -> P s (rec ss p s)) ->
  P st (fst (fst (compile_insn env rec body i pos st b))).
Proof.
  intros Hframe Hrefl Hrec. unfold compile_insn. cbv zeta.
  pose proof (switch_positions env body i pos (stack_size b)) as [_ Hp]. cbv zeta in Hp.
  destruct (compile_insn_switch env body i pos (stack_size b))
    as [ls fl w br stk fin nx]; cbn [code_lines code_fail code_warn code_branch code_next fst] in *.
  set (s1 := emit _ ls).
  assert (H1 : same_fields st s1) by (subst s1; destruct fl; repeat split).
  destruct br as [[ss p]|].
  - apply (Hframe st s1 (rec ss p s1)); auto.
    + apply Hrec; eauto.
    + destruct (_ || _); repeat split.
  - apply (Hframe st s1 s1); auto. destruct (_ || _); repeat split.
Qed.

Lemma compile_insn_next_nonneg env rec body i pos st b :
  0 <= snd (compile_insn env rec body i pos st b).
Proof. apply (switch_positions env body i pos (stack_size b)). Qed.

Lemma is_compiled_mark st pos :
  0 <= pos -> (Z.to_nat pos < length (compiled_for_pos st))%nat ->
  is_compiled (mark_compiled st pos) pos = true.
Proof.
  intros H0 Hl. unfold is_compiled, mark_compiled; cbn.
  rewrite nth_insert_true. destruct (decide _) as [|Hn]; [reflexivity|]. exfalso; lia.
Qed.

Lemma visits_fresh_log body st st1 st2 s :
  cfp_le (compiled_for_pos st) (compiled_for_pos st1) -> visited st1 = visited st ->
  visits_fresh body st1 st2 ->
  is_compiled st (step_pos s) = false -> is_compiled st1 (step_pos s) = true ->
  0 <= step_pos s < iseq_size body ->
  visits_fresh body st (log_step st2 s).
Proof.
  intros Hle Hv [Hle2 (new & Hv2 & Hnd & Hf)] Hs0 Hs1 Hr.
  split; [eapply cfp_le_trans; eauto|].
  exists (new ++ [s]). split; [cbn; rewrite Hv2, Hv, app_assoc; reflexivity|]. split.
  - rewrite map_app. apply NoDup_app. split; [exact Hnd|]. split; [|apply NoDup_singleton].
    intros x Hx1 Hx2. apply list_elem_of_singleton in Hx2. subst x.
    apply list_elem_of_In, in_map_iff in Hx1 as (s' & Hs' & Hin).
    apply list_elem_of_In in Hin. rewrite Forall_forall in Hf.
    destruct (Hf s' Hin) as (_ & Hfalse & _). congruence.
  - apply Forall_app. split.
    + eapply Forall_impl; [exact Hf|]. intros s' (Hr' & Ha & Hb).
      repeat split; try lia; auto.
      destruct (is_compiled st (step_pos s')) eqn:E; auto.
      rewrite (is_compiled_le _ _ _ Hle E) in Ha. discriminate.
    + apply Forall_singleton. repeat split; try lia; auto.
      eapply is_compiled_le; eauto.
Qed.

Section Loop.
Variable env : compile_env.
Variable body : rb_iseq_constant_body.

Lemma compile_insn_visits_fresh fuel insn pos st1 b :
  (forall b pos st, 0 <= pos -> length (compiled_for_pos st) = Z.to_nat (iseq_size body) ->
     visits_fresh body st (compile_insns_loop fuel env body b pos st)) ->
  length (compiled_for_pos st1) = Z.to_nat (iseq_size body) ->
  visits_fresh body st1 (fst (fst (compile_insn env (loop_rec env body fuel) body insn pos st1 b))).
Proof.
  intros IH Hlen. apply compile_insn_fields.
  - intros s0 s1 s2 s3 (? & ? & _) Hm (? & ? & _). eapply visits_fresh_frame; eauto.
  - intros; apply visits_fresh_same; auto.
  - intros ss p s Hp (Hc & _). apply IH; [exact Hp|]. rewrite Hc; exact Hlen.
Qed.

Lemma loop_visits_fresh fuel b pos st :
  0 <= pos -> length (compiled_for_pos st) = Z.to_nat (iseq_size body) ->
  visits_fresh body st (compile_insns_loop fuel env body b pos st).
Proof.
  revert b pos st; induction fuel as [|fuel IH]; intros b pos st Hpos Hlen; cbn [compile_insns_loop].
  - apply visits_fresh_same; reflexivity.
  - destruct ((pos <? iseq_size body) && negb (is_compiled st pos) && negb (finish_p b)) eqn:G;
      [|apply visits_fresh_same; reflexivity].
    apply andb_true_iff in G as [G _]. apply andb_true_iff in G as [Hlt Hun].
    apply Z.ltb_lt in Hlt. apply negb_true_iff in Hun.
    set (insn := decode_insn (encoded_at body pos)).
    set (st1 := emit (mark_compiled st pos) [label_line pos insn]).
    fold (loop_rec env body fuel).
    assert (Hnn := compile_insn_next_nonneg env (loop_rec env body fuel) body insn pos st1 b).
    assert (H2 := compile_insn_visits_fresh fuel insn pos st1 b IH).
    destruct (compile_insn env (loop_rec env body fuel) body insn pos st1 b) as [[st2 b'] np] eqn:E.
    cbn [fst snd] in H2, Hnn.
    specialize (H2 ltac:(subst st1; cbn; rewrite insert_true_length; exact Hlen)).
    set (st3 := log_step st2 _).
    assert (H3 : visits_fresh body st st3).
    { apply (visits_fresh_log body st st1 st2); cbn; auto.
      - apply cfp_le_insert.
      - apply is_compiled_mark; [exact Hpos|]. lia. }
    set (st4 := if success st3 && _ then _ else st3).
    assert (H4 : visits_fresh body st st4).
    { eapply visits_fresh_trans; [exact H3|].
      apply visits_fresh_same; subst st4; destruct (_ && _); try destruct (_ || _); reflexivity. }
    destruct (negb (success st4)); [exact H4|].
    eapply visits_fresh_trans; [exact H4|]. apply IH; [exact Hnn|].
    destruct H4 as [[Hl _] _]. lia.
Qed.

(** With more fuel than unmarked positions, the bound is never hit. *)
Lemma loop_not_exhausted fuel b pos st :
  0 <= pos -> length (compiled_for_pos st) = Z.to_nat (iseq_size body) ->
  (unmarked (compiled_for_pos st) < fuel)%nat ->
  exhausted (compile_insns_loop fuel env body b pos st) = exhausted st.
Proof.
  revert b pos st; induction fuel as [|fuel IH]; intros b pos st Hpos Hlen Hf; [lia|].
  cbn [compile_insns_loop].
  destruct ((pos <? iseq_size body) && negb (is_compiled st pos) && negb (finish_p b)) eqn:G;
    [|reflexivity].
  apply andb_true_iff in G as [G _]. apply andb_true_iff in G as [Hlt Hun].
  apply Z.ltb_lt in Hlt. apply negb_true_iff in Hun.
  set (insn := decode_insn (encoded_at body pos)).
  set (st1 := emit (mark_compiled st pos) [label_line pos insn]).
  fold (loop_rec env body fuel).
  assert (Hlen1 : length (compiled_for_pos st1) = Z.to_nat (iseq_size body))
    by (subst st1; cbn; rewrite insert_true_length; exact Hlen).
  assert (Hu1 : (unmarked (compiled_for_pos st1) < fuel)%nat).
  { subst st1; cbn. unfold is_compiled in Hun.
   
    pose proof (unmarked_insert (compiled_for_pos st) (Z.to_nat pos) ltac:(lia) Hun) as U.
    lia. }
  assert (Hnn := compile_insn_next_nonneg env (loop_rec env body fuel) body insn pos st1 b).
  assert (H2 := compile_insn_visits_fresh fuel insn pos st1 b
                  (fun b p s => loop_visits_fresh fuel b p s) Hlen1).
  assert (He2 : exhausted (fst (fst (compile_insn env (loop_rec env body fuel) body insn pos st1 b))) =
                exhausted st1).
  { refine (compile_insn_fields env (loop_rec env body fuel) body insn pos st1 b
             (fun s s' => (unmarked (compiled_for_pos s) < fuel)%nat ->
                          length (compiled_for_pos s) = Z.to_nat (iseq_size body) -> exhausted s' = exhausted s)
             _ _ _ Hu1 Hlen1).
    - intros s0 s1 s2 s3 (Hc1 & _ & He1) Hm (_ & _ & He3) Hu Hl.
      rewrite He3, Hm, He1; [reflexivity| |]; rewrite Hc1; assumption.
    - reflexivity.
    - intros ss p s Hp (Hc & _ & He) Hu Hl. apply IH; assumption. }
  destruct (compile_insn env (loop_rec env body fuel) body insn pos st1 b) as [[st2 b'] np] eqn:E.
  cbn [fst snd] in H2, Hnn, He2.
  set (st3 := log_step st2 _).
  set (st4 := if success st3 && _ then _ else st3).
  assert (He4 : exhausted st4 = exhausted st).
  { subst st4 st3; destruct (_ && _); try destruct (_ || _); cbn; rewrite He2; reflexivity. }
  assert (Hc4 : compiled_for_pos st4 = compiled_for_pos st2)
    by (subst st4 st3; destruct (_ && _); try destruct (_ || _); reflexivity).
  destruct (negb (success st4)); [exact He4|].
  destruct H2 as [[Hl2 Hle2] _].
  rewrite IH; [exact He4|exact Hnn| |].
  - rewrite Hc4. lia.
  - rewrite Hc4. pose proof (unmarked_le _ _ (conj Hl2 Hle2)). lia.
Qed.

End Loop.

Lemma unmarked_repeat_false n : unmarked (repeat false n) = n.
Proof. induction n as [|n IH]; cbn; lia. Qed.

Lemma nodup_range_length (l : list Z) n :
  NoDup l -> (forall x, In x l -> 0 <= x < n) -> (length l <= Z.to_nat n)%nat.
Proof.
  intros Hnd Hr.
  replace (Z.to_nat n) with (length (map Z.of_nat (seq 0 (Z.to_nat n))))
    by (rewrite length_map, length_seq; reflexivity).
  apply NoDup_incl_length; [apply NoDup_ListNoDup; exact Hnd|].
  intros x Hx. specialize (Hr x Hx). apply in_map_iff.
  exists (Z.to_nat x). split; [lia|]. apply in_seq. lia.
Qed.

Lemma mjit_compile_unfold env body funcname :
  mjit_compile env body funcname =
  emit (emit (compile_insns (S (Z.to_nat (iseq_size body))) env body 0 0
                (status_before_insns env body funcname))
             (compile_cancel_handler body)) [T0 "}"].
Proof. reflexivity. Qed.

Lemma status_before_insns_fields env body funcname :
  let st := status_before_insns env body funcname in
  success st = true /\ compiled_for_pos st = repeat false (Z.to_nat (iseq_size body)) /\
  visited st = [] /\ exhausted st = false.
Proof. cbn. destruct (0 <? stack_max body); repeat split. Qed.

(** C9: [mjit_compile] runs [compile_insns] to completion within
    [iseq_size + 1] units of fuel (the bound is never hit); every
    [compile_insn] step is at a distinct in-range position, marked in
    [compiled_for_pos] at the end, so there are at most [iseq_size] of
    them. *)
Theorem C9_mjit_compile_bounded env body funcname :
  let st := mjit_compile env body funcname in
  exhausted st = false /\
  NoDup (map step_pos (visited st)) /\
  Forall (fun s => 0 <= step_pos s < iseq_size body /\ is_compiled st (step_pos s) = true)
         (visited st) /\
  (length (visited st) <= Z.to_nat (iseq_size body))%nat.
Proof.
  cbv zeta. rewrite mjit_compile_unfold.
  destruct (status_before_insns_fields env body funcname) as (Hs & Hc & Hv & He).
  set (st0 := status_before_insns env body funcname) in *.
  unfold compile_insns.
  assert (Hlen : length (compiled_for_pos st0) = Z.to_nat (iseq_size body))
    by (rewrite Hc, repeat_length; reflexivity).
  pose proof (loop_not_exhausted env body (S (Z.to_nat (iseq_size body)))
                {| stack_size := 0; finish_p := false |} 0 st0 ltac:(lia) Hlen) as HE.
  rewrite Hc, unmarked_repeat_false in HE. specialize (HE ltac:(lia)).
  destruct (loop_visits_fresh env body (S (Z.to_nat (iseq_size body)))
              {| stack_size := 0; finish_p := false |} 0 st0 ltac:(lia) Hlen)
    as [_ (new & Hvn & Hnd & Hf)].
  rewrite Hv in Hvn. cbn [app] in Hvn. cbn [exhausted visited emit].
  rewrite Hvn. split; [congruence|]. split; [exact Hnd|]. split.
  - eapply Forall_impl; [exact Hf|]. intros s (? & _ & ?). split; [assumption|].
    exact H0.
  - rewrite <- (length_map step_pos). apply nodup_range_length; [exact Hnd|].
    intros x Hx. apply in_map_iff in Hx as (s & <- & Hin).
    rewrite Forall_forall in Hf. apply list_elem_of_In in Hin. apply (Hf s Hin).
Qed.

(** ** [success] is cleared exactly by a failing step *)

Lemma switch_fail env body i pos ss :
  code_fail (compile_insn_switch env body i pos ss) =
  unsupported i || (is_leave i && negb (ss =? 1)).
Proof. destruct i; cbn; try destruct (compile_send _ _ _ _); reflexivity. Qed.

Lemma steps_ok_app smax l1 l2 :
  steps_ok smax (l1 ++ l2) = steps_ok smax l1 && steps_ok smax l2.
Proof. apply forallb_app. Qed.

Lemma compile_insn_success env rec body i pos st b smax :
  (forall ss p s, success_tracks smax s (rec ss p s)) ->
  exists new,
    visited (fst (fst (compile_insn env rec body i pos st b))) = visited st ++ new /\
    success (fst (fst (compile_insn env rec body i pos st b))) =
      success st && negb (code_fail (compile_insn_switch env body i pos (stack_size b))) &&
      steps_ok smax new.
Proof.
  intros Hrec. unfold compile_insn. cbv zeta.
  destruct (compile_insn_switch env body i pos (stack_size b))
    as [ls fl w br stk fin nx]; cbn [code_lines code_fail code_warn code_branch code_next fst].
  set (s1 := emit _ ls).
  assert (Hv1 : visited s1 = visited st) by (subst s1; destruct fl; reflexivity).
  assert (Hs1 : success s1 = success st && negb fl)
    by (subst s1; destruct fl; cbn; [rewrite andb_false_r|rewrite andb_true_r]; reflexivity).
  destruct br as [[ss p]|].
  - destruct (Hrec ss p s1) as (new & Hv & Hs). exists new.
    destruct (_ || _); cbn [emit visited success]; rewrite Hv, Hs, Hv1, Hs1; split; reflexivity.
  - exists []. destruct (_ || _); cbn [emit visited success];
      rewrite Hv1, Hs1, app_nil_r, andb_true_r; split; reflexivity.
Qed.

Lemma stack_check_fields (c w : bool) s l :
  let s' := if c then fail (if w then warn s l else s) else s in
  same_fields s s' /\ success s' = success s && negb c.
Proof. destruct c, w; cbn; rewrite ?andb_true_r, ?andb_false_r; repeat split. Qed.

Lemma loop_success fuel env body b pos st :
  success_tracks (stack_max body) st (compile_insns_loop fuel env body b pos st).
Proof.
  revert b pos st; induction fuel as [|fuel IH]; intros b pos st; cbn [compile_insns_loop].
  - exists []. rewrite app_nil_r, andb_true_r. split; reflexivity.
  - destruct ((pos <? iseq_size body) && negb (is_compiled st pos) && negb (finish_p b)) eqn:G;
      [|exists []; rewrite app_nil_r, andb_true_r; split; reflexivity].
    set (insn := decode_insn (encoded_at body pos)).
    set (st1 := emit (mark_compiled st pos) [label_line pos insn]).
    fold (loop_rec env body fuel).
    destruct (compile_insn_success env (loop_rec env body fuel) body insn pos st1 b (stack_max body)
                (fun ss p s => IH _ p s)) as (new & Hv2 & Hs2).
    pose proof (switch_fail env body insn pos (stack_size b)) as Hfl.
    destruct (compile_insn env (loop_rec env body fuel) body insn pos st1 b) as [[st2 b'] np] eqn:E.
    cbn [fst snd] in Hv2, Hs2.
    set (stp := {| step_pos := pos; step_insn := insn; step_before := stack_size b;
                   step_after := stack_size b' |}).
    match goal with |- context [if ?c then fail (if ?w then warn ?s ?l else ?s) else ?s] =>
      destruct (stack_check_fields c w s l) as ((_ & Hv4 & _) & Hs4);
      set (st4 := if c then fail (if w then warn s l else s) else s) in *
    end.
    cbn [log_step visited success] in Hv4, Hs4.
    rewrite Hv2, <- app_assoc in Hv4. rewrite Hs2 in Hs4. subst st1.
    cbn [success emit mark_compiled] in Hs4. rewrite Hfl in Hs4.
    assert (Hs4' : success st4 = success st && steps_ok (stack_max body) (new ++ [stp])).
    { rewrite Hs4, steps_ok_app. cbn [steps_ok forallb]. unfold step_fails, stp.
      cbn [step_insn step_before step_after].
      destruct (success st), (unsupported insn || is_leave insn && negb (stack_size b =? 1)),
        (steps_ok _ new), (stack_size b' >? stack_max body); reflexivity. }
    destruct (negb (success st4)) eqn:S4.
    + exists (new ++ [stp]). split; assumption.
    + destruct (IH b' np st4) as (rest & Hv5 & Hs5). exists (new ++ [stp] ++ rest).
      rewrite Hv5, Hs5, Hv4, Hs4', !app_assoc. split; [reflexivity|].
      rewrite !steps_ok_app. apply negb_false_iff in S4. rewrite Hs4', steps_ok_app in S4.
      destruct (success st), (steps_ok _ new), (steps_ok _ [stp]), (steps_ok _ rest);
        cbn in *; congruence.
Qed.

Lemma steps_ok_false smax l :
  steps_ok smax l = false <-> Exists (fun s => step_fails smax s = true) l.
Proof.
  induction l as [|s l IH]; cbn.
  - split; [discriminate|]. intros H; inversion H.
  - rewrite Exists_cons, <- IH. destruct (step_fails smax s); cbn; intuition congruence.
Qed.

Lemma mjit_compile_insns_fields env body funcname :
  let st0 := status_before_insns env body funcname in
  let st1 := compile_insns (S (Z.to_nat (iseq_size body))) env body 0 0 st0 in
  let st := mjit_compile env body funcname in
  success st = success st1 /\ visited st = visited st1 /\ exhausted st = exhausted st1 /\
  compiled_for_pos st = compiled_for_pos st1 /\
  out st = out st1 ++ compile_cancel_handler body ++ [T0 "}"].
Proof.
  cbv zeta. rewrite mjit_compile_unfold.
  cbn [emit success visited exhausted compiled_for_pos out]. rewrite <- app_assoc. repeat split.
Qed.

(** C1: the translator returns [success = false] if and only if one of
    the [compile_insn] steps it made (on any branch) is an unsupported
    instruction, a [leave] with [stack_size != 1], or leaves a
    [stack_size] above [stack_max]; so a body with no such step is
    compiled successfully. *)
Theorem C1_success_iff_failing_step env body funcname :
  let st := mjit_compile env body funcname in
  success st = false <->
  Exists (fun s => step_fails (stack_max body) s = true) (visited st).
Proof.
  cbv zeta.
  destruct (mjit_compile_insns_fields env body funcname) as (Hs & Hv & _).
  cbv zeta in Hs, Hv. rewrite Hs, Hv.
  destruct (status_before_insns_fields env body funcname) as (Hs0 & _ & Hv0 & _).
  unfold compile_insns.
  destruct (loop_success (S (Z.to_nat (iseq_size body))) env body
              {| stack_size := 0; finish_p := false |} 0 (status_before_insns env body funcname))
    as (new & Hv1 & Hs1).
  rewrite Hv1, Hs1, Hs0, Hv0. cbn [app andb]. apply steps_ok_false.
Qed.

(** ** Lines printed by each case of the [switch] *)

Lemma code_ok_app k p a b :
  code_ok k p a -> code_ok k (last_line p a) b -> code_ok k p (a ++ b).
Proof.
  revert p; induction a as [|l a IH]; intros p Ha Hb; cbn in *; [exact Hb|].
  destruct Ha as (H1 & H2 & H3). split; [exact H1|]. split; [exact H2|]. apply IH; assumption.
Qed.

Lemma code_ok_flat_map {A} k (f : A -> list line) (xs : list A) :
  (forall x p, code_ok k p (f x)) -> forall p, code_ok k p (flat_map f xs).
Proof.
  intros Hf. induction xs as [|x xs IH]; intros p; cbn; [exact I|].
  apply code_ok_app; [apply Hf|apply IH].
Qed.

Lemma code_ok_case_dispatch k base last es p :
  code_ok k p (compile_case_dispatch_each base last es).
Proof.
  revert last p; induction es as [|[key v] es IH]; intros last p; cbn; [exact I|].
  destruct (bool_decide _); [apply IH|].
  cbn. repeat split; try discriminate. apply IH.
Qed.

Ltac code_ok_step :=
  match goal with
  | |- True => exact I
  | |- false = false => reflexivity
  | |- _ = false => reflexivity
  | |- is_goto_cancel _ = true -> _ =>
      let H := fresh in intros H; exfalso; apply diff_false_true; rewrite <- H; reflexivity
  | |- _ /\ _ => split
  | |- false = true -> _ => intros ?; discriminate
  | |- true = true -> _ =>
      intros _; eexists; split; [reflexivity|]; first [left; reflexivity|right; reflexivity]
  | |- code_ok _ _ (flat_map _ _) => apply code_ok_flat_map; intros
  | |- code_ok _ _ (compile_case_dispatch_each _ _ _) => apply code_ok_case_dispatch
  | |- code_ok _ _ (fprint_args _ _) => unfold fprint_args
  | |- code_ok _ _ (fprint_call_method _ _ _ _) => unfold fprint_call_method
  | |- code_ok _ _ (_ ++ _) => apply code_ok_app
  | |- code_ok _ _ _ => progress cbn -[u32 fprint_args compile_case_dispatch_each]
  | |- context [if ?c then _ else _] => destruct c
  | |- context [match ?c with Some _ => _ | None => _ end] => destruct c
  end.

Ltac code_ok_solve := repeat code_ok_step.

Lemma switch_code_ok env body i pos ss p :
  code_ok (u32 (ss + 1)) p (code_lines (compile_insn_switch env body i pos ss)).
Proof.
  destruct i; cbn -[u32 fprint_args compile_case_dispatch_each]; code_ok_solve.
Qed.

(** ** The C file printed by [compile_insns] *)

Lemma labels_ok_app body p a b :
  labels_ok body p a -> labels_ok body (last_line p a) b -> labels_ok body p (a ++ b).
Proof.
  revert p; induction a as [|l a IH]; intros p Ha Hb; cbn in *; [exact Hb|].
  destruct Ha as [H1 H2]. split; [exact H1|]. apply IH; assumption.
Qed.

Lemma labels_ok_last body p a : labels_ok body p a -> not_label (last_line p a).
Proof.
  revert p; induction a as [|l a IH]; intros p Ha; cbn in *; [exact Ha|].
  apply IH, Ha.
Qed.

Lemma cancels_ok_app smax p a b :
  cancels_ok smax p a -> cancels_ok smax (last_line p a) b -> cancels_ok smax p (a ++ b).
Proof.
  revert p; induction a as [|l a IH]; intros p Ha Hb; cbn in *; [exact Hb|].
  destruct Ha as [H1 H2]. split; [exact H1|]. apply IH; assumption.
Qed.

Lemma reserved_out_reserved f : reserved_fmt f = false -> out_reserved_fmt f = false.
Proof.
  unfold reserved_fmt, out_reserved_fmt. cbn [existsb].
  destruct (String.eqb f fmt_label); cbn; [discriminate|auto].
Qed.

Lemma code_ok_reserved k p ls :
  code_ok k p ls -> Forall (fun l => reserved_fmt (line_fmt l) = false) ls.
Proof.
  revert p; induction ls as [|l ls IH]; intros p H; cbn in *; constructor.
  - apply H.
  - eapply IH, H.
Qed.

Lemma code_ok_labels body k p ls :
  not_label p -> code_ok k p ls -> labels_ok body p ls.
Proof.
  revert p; induction ls as [|l ls IH]; intros p Hp H; cbn in *; [exact Hp|].
  destruct H as (Hr & _ & H). split.
  - intros x n E. exfalso. exact (Hp x n E).
  - apply IH; [|exact H]. intros x n E. injection E as E. subst l.
    cbn in Hr. discriminate.
Qed.

Lemma code_ok_cancels smax top p ls :
  0 <= top <= smax -> code_ok (u32 (top + 1)) p ls -> cancels_ok smax p ls.
Proof.
  intros Ht. revert p; induction ls as [|l ls IH]; intros p H; cbn in *; [exact I|].
  destruct H as (_ & Hg & H). split; [|apply IH, H].
  intros G. destruct (Hg G) as (l' & E & Hs). exists top, l'. auto.
Qed.

Lemma cancels_ok_any smax p q l ls :
  is_goto_cancel l = false -> cancels_ok smax p (l :: ls) -> cancels_ok smax q (l :: ls).
Proof. intros G [_ H]. split; [rewrite G; discriminate|exact H]. Qed.

Lemma compile_send_stack env o ss w : 0 <= snd (compile_send env o ss w).
Proof. unfold compile_send. cbv zeta. cbn [snd]. apply u32_range. Qed.

(** Stack sizes computed by the [switch] stay non-negative, and a branch
    is compiled with the stack size the fall-through continues with. *)
Lemma switch_stack env body i pos ss :
  0 <= ss ->
  let c := compile_insn_switch env body i pos ss in
  0 <= code_stack c /\ (forall ss' p, code_branch c = Some (ss', p) -> ss' = code_stack c).
Proof.
  intros H0. destruct i; cbn -[u32 compile_send];
    try (match goal with |- context [compile_send ?e ?o ?s ?w] =>
           pose proof (compile_send_stack e o s w); destruct (compile_send e o s w) end);
    cbn in *; (split; [first [assumption | apply u32_range] |]);
    intros ss' p Hb; try discriminate; injection Hb as <- _; reflexivity.
Qed.

Lemma not_label_reserved l : reserved_fmt (line_fmt l) = false -> not_label (Some l).
Proof. intros H p n E. injection E as E. subst l. cbn in H. discriminate. Qed.

Lemma labels_ok_single body p l :
  not_label p -> reserved_fmt (line_fmt l) = false -> labels_ok body p [l].
Proof.
  intros Hp Hl. cbn. split; [intros x n E; exfalso; exact (Hp x n E)|].
  apply not_label_reserved, Hl.
Qed.

(** What one [compile_insn] call appends to the C file: the [cfp->pc]
    store of [pos], then lines [c]. *)
Lemma compile_insn_out env rec body i pos st b :
  (forall ss p s, 0 <= ss -> grows body ss s (rec ss p s)) ->
  0 <= stack_size b ->
  let r := compile_insn env rec body i pos st b in
  exists c new,
    out (fst (fst r)) = out st ++ pc_line body pos :: c /\
    visited (fst (fst r)) = visited st ++ new /\
    0 <= stack_size (snd (fst r)) /\
    Forall (fun l => out_reserved_fmt (line_fmt l) = false) c /\
    labels_ok body (Some (pc_line body pos)) c /\
    (success (fst (fst r)) = true -> stack_size b <= stack_max body ->
     stack_size (snd (fst r)) <= stack_max body ->
     cancels_ok (stack_max body) (Some (pc_line body pos)) c) /\
    Forall (fun s => In (label_line (step_pos s) (step_insn s)) c) new.
Proof.
  intros Hrec H0. unfold compile_insn. cbv zeta.
  pose proof (switch_code_ok env body i pos (stack_size b) (Some (pc_line body pos))) as Hok.
  pose proof (switch_stack env body i pos (stack_size b) H0) as [Hst Hbr].
  destruct (compile_insn_switch env body i pos (stack_size b)) as [ls fl w br stk fin nx];
    cbn [code_lines code_fail code_warn code_branch code_next code_stack fst snd stack_size] in *.
  set (s1 := emit _ ls).
  assert (Ho1 : out s1 = out st ++ pc_line body pos :: ls)
    by (subst s1; destruct fl; cbn; rewrite <- app_assoc; reflexivity).
  assert (Hv1 : visited s1 = visited st) by (subst s1; destruct fl; reflexivity).
  assert (Hpc : not_label (Some (pc_line body pos))) by (apply not_label_reserved; reflexivity).
  pose proof (code_ok_reserved _ _ _ Hok) as Hr.
  pose proof (code_ok_labels body _ _ _ Hpc Hok) as Hl.
  assert (Hgr : forall p, reserved_fmt (line_fmt (goto_label_line p)) = false) by reflexivity.
  assert (Hgc : forall p, is_goto_cancel (goto_label_line p) = false) by reflexivity.
  assert (Hr' : Forall (fun l => out_reserved_fmt (line_fmt l) = false) ls)
    by (eapply Forall_impl; [exact Hr|]; intros; apply reserved_out_reserved; assumption).
  destruct br as [[ss p]|].
  - rewrite (Hbr ss p eq_refl) in *.
    destruct (Hrec stk p s1 Hst) as (c & new & Ho & Hv & Hr2 & Hl2 & Hc2 & Hn2).
    set (s2 := rec stk p s1) in *.
    assert (Hl3 : labels_ok body (Some (pc_line body pos)) (ls ++ c)).
    { apply labels_ok_app; [exact Hl|]. apply Hl2, labels_ok_last with body, Hl. }
    assert (Hc3 : success s2 = true -> stack_size b <= stack_max body -> stk <= stack_max body ->
                  cancels_ok (stack_max body) (Some (pc_line body pos)) (ls ++ c)).
    { intros Hs Hb Hk. apply cancels_ok_app.
      - eapply code_ok_cancels; [|exact Hok]. lia.
      - apply Hc2; auto. }
    destruct (_ || _); cbn [emit out visited success stack_size fst snd].
    + exists (ls ++ c ++ [goto_label_line nx]), new.
      rewrite Ho, Ho1, Hv, Hv1.
      split; [rewrite <- !app_assoc; reflexivity|]. split; [reflexivity|].
      split; [exact Hst|]. split.
      { apply Forall_app. split; [exact Hr'|].
        apply Forall_app. split; [exact Hr2|]. apply Forall_singleton. reflexivity. }
      split; [|split].
      * rewrite app_assoc. apply labels_ok_app; [exact Hl3|].
        apply labels_ok_single; [apply labels_ok_last with body, Hl3|reflexivity].
      * intros Hs Hb Hk. rewrite app_assoc. apply cancels_ok_app; [apply Hc3; auto|].
        cbn. split; [intros G; cbn in G; discriminate G|exact I].
      * eapply Forall_impl; [exact Hn2|]. intros s Hs.
        apply in_or_app. right. apply in_or_app. left. exact Hs.
    + exists (ls ++ c), new. rewrite Ho, Ho1, Hv, Hv1.
      split; [rewrite <- !app_assoc; reflexivity|]. split; [reflexivity|]. split; [exact Hst|]. split.
      { apply Forall_app. split; assumption. }
      split; [exact Hl3|]. split; [exact Hc3|].
      eapply Forall_impl; [exact Hn2|]. intros s Hs. apply in_or_app. right. exact Hs.
  - assert (Hc3 : stack_size b <= stack_max body ->
                  cancels_ok (stack_max body) (Some (pc_line body pos)) ls).
    { intros Hb. eapply code_ok_cancels; [|exact Hok]. lia. }
    destruct (_ || _); cbn [emit out visited success stack_size fst snd].
    + exists (ls ++ [goto_label_line nx]), []. rewrite Ho1, Hv1, app_nil_r.
      split; [rewrite <- !app_assoc; reflexivity|]. split; [reflexivity|]. split; [exact Hst|]. split.
      { apply Forall_app. split; [exact Hr'|]. apply Forall_singleton. reflexivity. }
      split; [|split; [|constructor]].
      * apply labels_ok_app; [exact Hl|].
        apply labels_ok_single; [apply labels_ok_last with body, Hl|reflexivity].
      * intros _ Hb _. apply cancels_ok_app; [apply Hc3; auto|].
        cbn. split; [intros G; cbn in G; discriminate G|exact I].
    + exists ls, []. rewrite Ho1, Hv1, app_nil_r.
      split; [reflexivity|]. split; [reflexivity|]. split; [exact Hst|].
      split; [exact Hr'|]. split; [exact Hl|]. split; [intros _ Hb _; apply Hc3, Hb|constructor].
Qed.

Lemma stack_check_out (c w : bool) s l :
  out (if c then fail (if w then warn s l else s) else s) = out s.
Proof. destruct c, w; reflexivity. Qed.

Lemma grows_refl body ss st : grows body ss st st.
Proof.
  exists [], []. rewrite !app_nil_r. split; [reflexivity|]. split; [reflexivity|].
  split; [constructor|]. split; [intros q Hq; exact Hq|]. split; [intros; exact I|constructor].
Qed.

(** What one [compile_insns] call appends to the C file. *)
Lemma loop_out fuel env body b pos st :
  0 <= stack_size b -> grows body (stack_size b) st (compile_insns_loop fuel env body b pos st).
Proof.
  revert b pos st; induction fuel as [|fuel IH]; intros b pos st H0; cbn [compile_insns_loop].
  - exists [], []. rewrite !app_nil_r. split; [reflexivity|]. split; [reflexivity|].
    split; [constructor|]. split; [intros q Hq; exact Hq|]. split; [intros; exact I|constructor].
  - destruct ((pos <? iseq_size body) && negb (is_compiled st pos) && negb (finish_p b)) eqn:G;
      [|apply grows_refl].
    set (insn := decode_insn (encoded_at body pos)).
    set (st1 := emit (mark_compiled st pos) [label_line pos insn]).
    fold (loop_rec env body fuel).
    destruct (compile_insn_out env (loop_rec env body fuel) body insn pos st1 b
                (fun ss p s Hss => IH {| stack_size := ss; finish_p := false |} p s Hss) H0)
      as (c & new & Ho & Hv & Hst & Hr & Hl & Hc & Hn).
    destruct (compile_insn env (loop_rec env body fuel) body insn pos st1 b) as [[st2 b'] np] eqn:E.
    cbn [fst snd] in Ho, Hv, Hst, Hc.
    set (stp := {| step_pos := pos; step_insn := insn; step_before := stack_size b;
                   step_after := stack_size b' |}).
    match goal with |- context [if ?c then fail (if ?w then warn ?s ?l else ?s) else ?s] =>
      destruct (stack_check_fields c w s l) as ((_ & Hv4 & _) & Hs4);
      pose proof (stack_check_out c w s l) as Ho4;
      set (st4 := if c then fail (if w then warn s l else s) else s) in *
    end.
    cbn [log_step visited success out] in Hv4, Hs4, Ho4.
    rewrite Hv, <- app_assoc in Hv4. rewrite Ho in Ho4. subst st1.
    cbn [visited out emit mark_compiled] in Hv4, Ho4. rewrite <- app_assoc in Ho4. cbn [app] in Ho4.
    assert (Hlab : out_reserved_fmt (line_fmt (label_line pos insn)) = false) by reflexivity.
    assert (Hpcr : out_reserved_fmt (line_fmt (pc_line body pos)) = false) by reflexivity.
    assert (Hok4 : success st4 = true -> success st2 = true /\ stack_size b' <= stack_max body).
    { intros S. rewrite Hs4 in S. apply andb_true_iff in S as [S1 S2].
      rewrite S1 in S2. cbn in S2. apply negb_true_iff in S2. rewrite Z.gtb_ltb in S2. apply Z.ltb_ge in S2. auto. }
    destruct (negb (success st4)) eqn:S4.
    + exists (label_line pos insn :: pc_line body pos :: c), (new ++ [stp]).
      split; [exact Ho4|]. split; [exact Hv4|]. split; [|split; [|split]].
      * constructor; [exact Hlab|]. constructor; [exact Hpcr|exact Hr].
      * intros q Hq. cbn [labels_ok]. split; [intros x n Ex; exfalso; exact (Hq x n Ex)|].
        split; [intros x n Ex; injection Ex as -> _; reflexivity|exact Hl].
      * intros S. rewrite S in S4. discriminate.
      * apply Forall_app. split.
        -- eapply Forall_impl; [exact Hn|]. intros s Hs. right. right. exact Hs.
        -- apply Forall_singleton. left. reflexivity.
    + apply negb_false_iff in S4.
      destruct (Hok4 S4) as [S2 Hb'].
      destruct (IH b' np st4 Hst) as (c2 & new2 & Ho5 & Hv5 & Hr5 & Hl5 & Hc5 & Hn5).
      destruct (loop_success fuel env body b' np st4) as (new2' & Hv6 & Hs6).
      exists (label_line pos insn :: pc_line body pos :: c ++ c2), (new ++ [stp] ++ new2).
      split; [rewrite Ho5, Ho4; cbn [app]; rewrite <- app_assoc; reflexivity|].
      split; [rewrite Hv5, Hv4, <- !app_assoc; reflexivity|]. split; [|split; [|split]].
      * constructor; [exact Hlab|]. constructor; [exact Hpcr|]. apply Forall_app; auto.
      * intros q Hq. cbn [labels_ok]. split; [intros x n Ex; exfalso; exact (Hq x n Ex)|].
        split; [intros x n Ex; injection Ex as -> _; reflexivity|].
        apply labels_ok_app; [exact Hl|]. apply Hl5, labels_ok_last with body, Hl.
      * intros S Hr0 q. cbn [cancels_ok]. split; [intros Gc; discriminate Gc|].
        split; [intros Gc; discriminate Gc|].
        assert (S' : success (compile_insns_loop fuel env body b' np st4) = true) by exact S.
        apply cancels_ok_app; [apply Hc; auto; lia|]. apply Hc5; auto; lia.
      * apply Forall_app. split; [|apply Forall_app; split].
        -- eapply Forall_impl; [exact Hn|]. intros s Hs. right. right. apply in_or_app. left. exact Hs.
        -- apply Forall_singleton. left. reflexivity.
        -- eapply Forall_impl; [exact Hn5|]. intros s Hs. right. right. apply in_or_app. right. exact Hs.
Qed.

(** ** The whole C file printed by [mjit_compile] *)

Lemma Forall_flat_map' {A B} (P : B -> Prop) (f : A -> list B) xs :
  (forall x, Forall P (f x)) -> Forall P (flat_map f xs).
Proof. intros H. induction xs as [|x xs IH]; cbn; [constructor|apply Forall_app; auto]. Qed.

Lemma status_before_insns_out env body funcname :
  out (status_before_insns env body funcname) =
  func_header funcname :: (if 0 <? stack_max body then [stack_decl (stack_max body)] else []) ++
  opt_pc_switch body.
Proof. unfold status_before_insns. cbv zeta. destruct (0 <? stack_max body); reflexivity. Qed.

Lemma opt_pc_switch_plain body :
  Forall (fun l => plain_line l = true /\ line_fmt l <> fmt_stack_decl) (opt_pc_switch body).
Proof.
  unfold opt_pc_switch. destruct (param_has_opt body); [|constructor].
  apply Forall_app. split; [repeat constructor; discriminate|].
  apply Forall_app. split; [|repeat constructor; discriminate].
  apply Forall_flat_map'. intros x. repeat constructor; discriminate.
Qed.

Lemma prefix_plain env body funcname :
  Forall (fun l => plain_line l = true) (out (status_before_insns env body funcname)).
Proof.
  rewrite status_before_insns_out. constructor; [reflexivity|]. apply Forall_app. split.
  - destruct (0 <? stack_max body); repeat constructor.
  - eapply Forall_impl; [apply opt_pc_switch_plain|]. intros l [H _]. exact H.
Qed.

Lemma handler_lines body :
  Forall (fun l => is_goto_cancel l = false /\ String.eqb (line_fmt l) fmt_label = false)
    (compile_cancel_handler body ++ [T0 "}"]).
Proof.
  unfold compile_cancel_handler. rewrite <- !app_assoc.
  constructor; [split; reflexivity|]. apply Forall_app. split.
  - apply Forall_forall. intros l Hl. apply list_elem_of_In, in_map_iff in Hl as (x & <- & _).
    split; reflexivity.
  - repeat constructor.
Qed.

Lemma cancels_ok_plain smax p ls :
  Forall (fun l => is_goto_cancel l = false) ls -> cancels_ok smax p ls.
Proof.
  revert p; induction ls as [|l ls IH]; intros p H; cbn; [exact I|].
  inversion H as [|? ? H1 H2]; subst. split; [intros G; congruence|]. apply IH, H2.
Qed.

Lemma labels_ok_plain body p ls :
  not_label p -> Forall (fun l => String.eqb (line_fmt l) fmt_label = false) ls ->
  labels_ok body p ls.
Proof.
  revert p; induction ls as [|l ls IH]; intros p Hp H; cbn; [exact Hp|].
  inversion H as [|? ? H1 H2]; subst. split; [intros x n E; exfalso; exact (Hp x n E)|].
  apply IH; [|exact H2]. intros x n E. injection E as E. subst l. cbn in H1. discriminate.
Qed.

Lemma labels_ok_nth body p ls i x n :
  labels_ok body p ls -> ls !! i = Some (label_line x n) -> ls !! S i = Some (pc_line body x).
Proof.
  revert p i; induction ls as [|l ls IH]; intros p i H Hi; [discriminate|].
  destruct H as [_ H]. destruct i as [|i]; cbn in Hi |- *.
  - injection Hi as ->. destruct ls as [|l2 ls]; cbn in H.
    + exfalso. exact (H x n eq_refl).
    + destruct H as [H _]. rewrite (H x n eq_refl). reflexivity.
  - eapply IH; eauto.
Qed.

Lemma cancels_ok_nth smax p ls i l :
  cancels_ok smax p ls -> ls !! i = Some l -> is_goto_cancel l = true ->
  exists top l', (match i with O => p | S j => ls !! j end) = Some l' /\
                 0 <= top <= smax /\ is_sp_store l' (u32 (top + 1)).
Proof.
  revert p i; induction ls as [|l0 ls IH]; intros p i H Hi G; [discriminate|].
  destruct H as [H0 H]. destruct i as [|i]; cbn in Hi.
  - injection Hi as ->. destruct (H0 G) as (top & l' & E & Ht & Hs). exists top, l'. auto.
  - destruct (IH _ _ H Hi G) as (top & l' & E & Ht & Hs). exists top, l'.
    split; [|auto]. destruct i; exact E.
Qed.

(** The C file: the lines printed before [compile_insns], the lines [c]
    it prints, the cancel handler and the closing brace. *)
Lemma mjit_compile_out env body funcname :
  let st := mjit_compile env body funcname in
  exists c,
    out st = out (status_before_insns env body funcname) ++ c ++
             compile_cancel_handler body ++ [T0 "}"] /\
    chunk_ok body (success st) 0 c (visited st).
Proof.
  cbv zeta. destruct (mjit_compile_insns_fields env body funcname) as (Hs & Hv & _ & _ & Ho).
  cbv zeta in Hs, Hv, Ho. rewrite Hs, Hv, Ho.
  destruct (status_before_insns_fields env body funcname) as (_ & _ & Hv0 & _).
  unfold compile_insns.
  destruct (loop_out (S (Z.to_nat (iseq_size body))) env body
              {| stack_size := 0; finish_p := false |} 0 (status_before_insns env body funcname)
              ltac:(cbn; lia)) as (c & new & Ho1 & Hv1 & Hc).
  exists c. rewrite Ho1, Hv1, Hv0, <- app_assoc. split; [reflexivity|exact Hc].
Qed.

(** Every line of the C file outside [c] is free of labels and of
    [goto cancel]. *)
Lemma mjit_compile_labels_cancels env body funcname :
  let st := mjit_compile env body funcname in
  labels_ok body None (out st) /\
  (success st = true -> 0 <= stack_max body -> cancels_ok (stack_max body) None (out st)).
Proof.
  cbv zeta. destruct (mjit_compile_out env body funcname) as (c & Ho & Hr & Hl & Hc & _).
  rewrite Ho. pose proof (prefix_plain env body funcname) as Hp.
  pose proof (handler_lines body) as Hh.
  set (pre := out (status_before_insns env body funcname)) in *.
  set (h := compile_cancel_handler body ++ [T0 "}"]) in *.
  assert (Hpl : labels_ok body None pre).
  { apply labels_ok_plain; [intros ? ? E; discriminate|].
    eapply Forall_impl; [exact Hp|]. intros l Hl'. unfold plain_line in Hl'.
    destruct (String.eqb (line_fmt l) fmt_label); [|reflexivity].
    rewrite andb_false_r, andb_false_l in Hl'. discriminate. }
  split.
  - apply labels_ok_app; [exact Hpl|]. apply labels_ok_app.
    + apply Hl, labels_ok_last with body, Hpl.
    + apply labels_ok_plain.
      * apply labels_ok_last with body. apply Hl, labels_ok_last with body, Hpl.
      * eapply Forall_impl; [exact Hh|]. intros l [_ H]. exact H.
  - intros S Hm. apply cancels_ok_app.
    + apply cancels_ok_plain. eapply Forall_impl; [exact Hp|]. intros l Hl'.
      unfold plain_line in Hl'. destruct (is_goto_cancel l); [discriminate|reflexivity].
    + apply cancels_ok_app; [apply Hc; auto; lia|].
      apply cancels_ok_plain. eapply Forall_impl; [exact Hh|]. intros l [H _]. exact H.
Qed.

Lemma exec_write_backs stack bp k : forall s mem x,
  exec_lines stack bp mem
    (map (fun i : nat =>
            T "  *((VALUE *)cfp->bp + %d) = stack[%d];" [AI (Z.of_nat i + 1); AI (Z.of_nat i)])
         (seq s k)) x =
  if (bp + 1 + Z.of_nat s <=? x) && (x <? bp + 1 + Z.of_nat s + Z.of_nat k)
  then stack (x - bp - 1) else mem x.
Proof.
  induction k as [|k IH]; intros s mem x; unfold exec_lines in *; cbn [seq map fold_left].
  - destruct ((_ <=? _) && (_ <? _)) eqn:E; [|reflexivity].
    apply andb_true_iff in E as [E1 E2]. apply Z.leb_le in E1. apply Z.ltb_lt in E2. lia.
  - rewrite IH. cbn [exec_line T]. rewrite String.eqb_refl.
    destruct (Z.leb_spec (bp + 1 + Z.of_nat (S s)) x),
      (Z.ltb_spec x (bp + 1 + Z.of_nat (S s) + Z.of_nat k)),
      (Z.leb_spec (bp + 1 + Z.of_nat s) x),
      (Z.ltb_spec x (bp + 1 + Z.of_nat s + Z.of_nat (S k))),
      (Z.eqb_spec x (bp + (Z.of_nat s + 1))); cbn; try reflexivity; try lia.
    subst x. f_equal. lia.
Qed.

(** The cancel handler stores [stack[j]] at [cfp->bp + j + 1] for every
    [j < stack_max]. *)
Lemma cancel_handler_exec body stack bp mem j :
  0 <= j < stack_max body ->
  exec_lines stack bp mem (compile_cancel_handler body) (bp + 1 + j) = stack j.
Proof.
  intros Hj. unfold compile_cancel_handler, exec_lines. rewrite !fold_left_app.
  cbn [fold_left]. unfold T0. cbn [exec_line].
  pose proof (exec_write_backs stack bp (Z.to_nat (stack_max body)) 0 mem (bp + 1 + j)) as W.
  unfold exec_lines in W. rewrite W. cbn [Z.of_nat]. rewrite Z2Nat.id by lia.
  match goal with |- context [if ?c then _ else _] => destruct c eqn:E end; [f_equal; lia|].
  apply andb_false_iff in E as [E|E]; [apply Z.leb_gt in E|apply Z.ltb_ge in E]; lia.
Qed.

Lemma filter_none {A} (f : A -> bool) (l : list A) :
  (forall x, In x l -> f x = false) -> filter f l = [].
Proof.
  induction l as [|x l IH]; intros H; cbn; [reflexivity|].
  rewrite (H x (or_introl eq_refl)). apply IH. intros y Hy. apply H. right. exact Hy.
Qed.

Lemma cancel_label_count body :
  length (filter (fun l => String.eqb (line_fmt l) fmt_cancel_label)
            (compile_cancel_handler body ++ [T0 "}"])) = 1%nat.
Proof.
  unfold compile_cancel_handler. rewrite <- !app_assoc, !filter_app.
  generalize (seq 0 (Z.to_nat (stack_max body))) as l.
  induction l as [|x l IH]; [reflexivity|exact IH].
Qed.

Lemma success_steps env body funcname :
  success (mjit_compile env body funcname) =
  steps_ok (stack_max body) (visited (mjit_compile env body funcname)).
Proof.
  destruct (mjit_compile_insns_fields env body funcname) as (Hs & Hv & _).
  cbv zeta in Hs, Hv. rewrite Hs, Hv.
  destruct (status_before_insns_fields env body funcname) as (Hs0 & _ & Hv0 & _).
  unfold compile_insns.
  destruct (loop_success (S (Z.to_nat (iseq_size body))) env body
              {| stack_size := 0; finish_p := false |} 0 (status_before_insns env body funcname))
    as (new & Hv1 & Hs1).
  rewrite Hv1, Hs1, Hs0, Hv0. reflexivity.
Qed.

(** C7: in the C file, the code of every compiled instruction starts at
    its label [label_pos:], and the line right after the label (the first
    line printed by [compile_insn] for it) stores the instruction's address
    [iseq_encoded + pos] into [cfp->pc]; this holds for every label. *)
Theorem C7_pc_store_first env body funcname :
  let st := mjit_compile env body funcname in
  (forall s, In s (visited st) ->
     exists i, out st !! i = Some (label_line (step_pos s) (step_insn s)) /\
               out st !! S i = Some (pc_line body (step_pos s))) /\
  (forall i p n, out st !! i = Some (label_line p n) -> out st !! S i = Some (pc_line body p)).
Proof.
  cbv zeta. destruct (mjit_compile_labels_cancels env body funcname) as [Hl _].
  split; [|intros i p n Hi; eapply labels_ok_nth; eauto].
  intros s Hs. destruct (mjit_compile_out env body funcname) as (c & Ho & _ & _ & _ & Hn).
  rewrite Forall_forall in Hn. apply list_elem_of_In in Hs.
  assert (Hin : In (label_line (step_pos s) (step_insn s)) (out (mjit_compile env body funcname))).
  { rewrite Ho. apply in_or_app. right. apply in_or_app. left. apply Hn, Hs. }
  apply list_elem_of_In, list_elem_of_lookup_1 in Hin as (i & Hi).
  exists i. split; [exact Hi|]. eapply labels_ok_nth; eauto.
Qed.

(** C8: with [stack_max = 0] the C file declares no [VALUE stack[..]]
    array, and a step that leaves [stack_size > 0] makes the translation
    fail. *)
Theorem C8_no_stack_when_zero env body funcname (Hz : stack_max body = 0) :
  let st := mjit_compile env body funcname in
  Forall (fun l => line_fmt l <> fmt_stack_decl) (out st) /\
  (forall s, In s (visited st) -> 0 < step_after s -> success st = false).
Proof.
  cbv zeta. split.
  - destruct (mjit_compile_out env body funcname) as (c & Ho & Hr & _).
    rewrite Ho, status_before_insns_out, Hz. cbn [Z.ltb Z.compare].
    constructor; [discriminate|]. apply Forall_app. split.
    { eapply Forall_impl; [apply opt_pc_switch_plain|]. intros l [_ H]. exact H. }
    apply Forall_app. split.
    { eapply Forall_impl; [exact Hr|]. intros l Hl E. cbv beta in Hl. rewrite E in Hl. discriminate. }
    unfold compile_cancel_handler. rewrite Hz. repeat constructor; discriminate.
  - intros s Hs Ha. rewrite success_steps. apply steps_ok_false, Exists_exists.
    exists s. split; [apply list_elem_of_In; exact Hs|]. unfold step_fails. rewrite Hz.
    destruct (step_after s >? 0) eqn:E; [rewrite !orb_true_r; reflexivity|].
    rewrite Z.gtb_ltb in E. apply Z.ltb_ge in E. lia.
Qed.

Lemma C8_no_stack_when_zero_witness :
  stack_max body_push = 0 /\
  Forall (fun l => line_fmt l <> fmt_stack_decl) (out (mjit_compile env0 body_push "_mjit1")) /\
  success (mjit_compile env0 body_push "_mjit1") = false.
Proof.
  pose proof (C8_no_stack_when_zero env0 body_push "_mjit1" eq_refl) as [H1 H2].
  split; [reflexivity|]. split; [exact H1|].
  apply (H2 {| step_pos := 0; step_insn := YARVINSN_putobject; step_before := 0; step_after := 1 |}).
  - vm_compute. left. reflexivity.
  - reflexivity.
Defined.

(** C2: the C file ends with the cancel handler and one [}]; it has
    exactly one [cancel:] label.  When the translation succeeded, every
    [goto cancel] comes right after [cfp->sp = cfp->bp + top + 1] for a
    simulated stack top [top <= stack_max], and running the handler stores
    [stack[j]] at [cfp->bp + 1 + j] for every [j < top]: the frame's
    operand stack below [sp] holds the simulated stack slots
    [0 .. top - 1]; the handler's last line is [return Qundef;]. *)
Theorem C2_cancel_handler env body funcname
    (Hs : success (mjit_compile env body funcname) = true)
    (Hm : 0 <= stack_max body < 2 ^ 32 - 1) :
  let st := mjit_compile env body funcname in
  (exists pre, out st = pre ++ compile_cancel_handler body ++ [T0 "}"]) /\
  length (filter (fun l => String.eqb (line_fmt l) fmt_cancel_label) (out st)) = 1%nat /\
  (forall i l, out st !! S i = Some l -> is_goto_cancel l = true ->
     exists top l', out st !! i = Some l' /\ is_sp_store l' (top + 1) /\
       0 <= top <= stack_max body /\
       forall stack bp mem j, 0 <= j < top ->
         exec_lines stack bp mem (compile_cancel_handler body) (bp + 1 + j) = stack j).
Proof.
  cbv zeta. destruct (mjit_compile_out env body funcname) as (c & Ho & Hr & _).
  split; [|split].
  - exists (out (status_before_insns env body funcname) ++ c). rewrite Ho, <- app_assoc.
    reflexivity.
  - rewrite Ho, app_assoc, filter_app, length_app, cancel_label_count, filter_app, length_app.
    pose proof (prefix_plain env body funcname) as Hp.
    rewrite (filter_none _ c), (filter_none _ (out _)); [reflexivity| |].
    + rewrite Forall_forall in Hp. intros l Hl.
      assert (Hf := Hp l (proj2 (list_elem_of_In _ _) Hl)). unfold plain_line in Hf.
      destruct (String.eqb (line_fmt l) fmt_cancel_label); [|reflexivity].
      rewrite andb_false_r in Hf. discriminate.
    + rewrite Forall_forall in Hr. intros l Hl.
      assert (Hf := Hr l (proj2 (list_elem_of_In _ _) Hl)). cbv beta in Hf.
      destruct (String.eqb (line_fmt l) fmt_cancel_label) eqn:E; [|reflexivity].
      apply String.eqb_eq in E. rewrite E in Hf. discriminate.
  - intros i l Hi G.
    destruct (mjit_compile_labels_cancels env body funcname) as [_ Hc].
    destruct (cancels_ok_nth _ _ _ _ _ (Hc Hs (proj1 Hm)) Hi G) as (top & l' & E & Ht & Hsp).
    exists top, l'. unfold u32 in Hsp. rewrite Z.mod_small in Hsp by lia.
    split; [exact E|]. split; [exact Hsp|]. split; [exact Ht|].
    intros stack bp mem j Hj. apply cancel_handler_exec. lia.
Qed.

Lemma C2_cancel_handler_witness :
  (exists pre, out (mjit_compile env0 body_plus "_mjit0") =
               pre ++ compile_cancel_handler body_plus ++ [T0 "}"]) /\
  length (filter (fun l => String.eqb (line_fmt l) fmt_cancel_label)
            (out (mjit_compile env0 body_plus "_mjit0"))) = 1%nat.
Proof.
  destruct (C2_cancel_handler env0 body_plus "_mjit0" ltac:(vm_compute; reflexivity)
              ltac:(cbn; lia)) as (H1 & H2 & _).
  split; [exact H1|exact H2].
Defined.

(** * Proofs: the unit queue *)

Lemma lseg_app h pr cur a b la nx :
  lseg h pr cur (a ++ b) la nx <->
  exists m mc, lseg h pr cur a m mc /\ lseg h m mc b la nx.
Proof.
  revert pr cur; induction a as [|x a IH]; intros pr cur; cbn.
  - split; [intros H; exists pr, cur; auto|]. intros (m & mc & [-> ->] & H). exact H.
  - split.
    + intros (-> & U & HU & Hp & H). apply IH in H as (m & mc & H1 & H2).
      exists m, mc. split; [|exact H2]. split; [reflexivity|]. exists U; auto.
    + intros (m & mc & (-> & U & HU & Hp & H1) & H2). split; [reflexivity|].
      exists U. split; [exact HU|]. split; [exact Hp|]. apply IH. exists m, mc. auto.
Qed.

Lemma lseg_insert h k V pr cur l la nx :
  ~ In k l -> lseg h pr cur l la nx -> lseg (<[k := V]> h) pr cur l la nx.
Proof.
  revert pr cur; induction l as [|x l IH]; intros pr cur Hk H; cbn in *; [exact H|].
  destruct H as (-> & U & HU & Hp & H). split; [reflexivity|]. exists U.
  rewrite lookup_insert_ne by (intros ->; apply Hk; left; reflexivity).
  split; [exact HU|]. split; [exact Hp|]. apply IH; [|exact H]. intros Hi; apply Hk; right; exact Hi.
Qed.

Lemma lseg_dom h pr cur l la nx x :
  lseg h pr cur l la nx -> In x l -> is_Some (h !! x).
Proof.
  revert pr cur; induction l as [|y l IH]; intros pr cur H Hx; cbn in *; [contradiction|].
  destruct H as (-> & U & HU & _ & H). destruct Hx as [<-|Hx]; [exists U; exact HU|].
  eapply IH; eauto.
Qed.

Lemma lseg_length h pr cur l la nx :
  List.NoDup l -> lseg h pr cur l la nx -> (length l <= size h)%nat.
Proof.
  intros Hnd H. rewrite <- (size_list_to_set (C := gset Z) l) by (apply NoDup_ListNoDup; exact Hnd).
  rewrite <- size_dom. apply subseteq_size. intros x Hx.
  apply elem_of_list_to_set, list_elem_of_In in Hx. apply elem_of_dom.
  eapply lseg_dom; eauto.
Qed.

Lemma nodup_mid {A} (l r : list A) x :
  List.NoDup (l ++ x :: r) -> ~ In x l /\ ~ In x r /\ List.NoDup (l ++ r).
Proof.
  intros H. split; [|split].
  - intros Hx. apply (NoDup_remove_2 _ _ _ H). apply in_or_app. left. exact Hx.
  - intros Hx. apply (NoDup_remove_2 _ _ _ H). apply in_or_app. right. exact Hx.
  - exact (NoDup_remove_1 _ _ _ H).
Qed.

Lemma unit_calls_insert s k V V' v :
  units s !! k = Some V -> iseq V' = iseq V ->
  unit_calls (set_units s (<[k := V']> (units s))) v = unit_calls s v.
Proof.
  intros HV Hi. unfold unit_calls. cbn [units set_units total_calls].
  destruct (decide (v = k)) as [->|Hne].
  - rewrite lookup_insert_eq, HV. cbn. rewrite Hi. reflexivity.
  - rewrite lookup_insert_ne by congruence. reflexivity.
Qed.

Lemma nodup_app_disj {A} (l r : list A) x : List.NoDup (l ++ r) -> In x l -> ~ In x r.
Proof.
  induction l as [|y l IH]; intros H Hx; [destruct Hx|]. cbn in H.
  inversion H as [|? ? Hy H']; subst. destruct Hx as [<-|Hx].
  - intros Hr. apply Hy, in_or_app. right. exact Hr.
  - apply IH; assumption.
Qed.

(** The frame of [remove_from_unit_queue]. *)
Lemma remove_spec s l1 u l2 :
  repr s (l1 ++ u :: l2) ->
  exists s', remove_from_unit_queue u s = Some s' /\ repr s' (l1 ++ l2) /\
    (unit_queue s' = unit_queue s \/ unit_queue s = Some u) /\
    (forall v, unit_calls s' v = unit_calls s v).
Proof.
  intros [Hnd [la Hl]]. pose proof (nodup_mid _ _ _ Hnd) as (Hu1 & Hu2 & Hnd').
  apply lseg_app in Hl as (m & mc & Ha & (-> & U & HU & Hpu & Hb)).
  unfold remove_from_unit_queue. rewrite HU. cbn [mbind option_bind].
  destruct l1 as [|p a _] using rev_ind; cbn [lseg] in Ha.
  - destruct Ha as [<- Hq]. rewrite Hpu. destruct l2 as [|n l2]; cbn [lseg] in Hb.
    + destruct Hb as [_ Hn]. rewrite Hn.
      eexists. split; [reflexivity|]. split; [|split; [right; exact Hq|reflexivity]].
      split; [constructor|]. exists None. cbn. auto.
    + destruct Hb as (Hn & N & HN & Hpn & Hb). rewrite Hn.
      unfold next_of, set_prev. cbn [set_unit_queue units]. rewrite HU. cbn. rewrite Hn. cbn.
      rewrite HN. cbn.
      eexists. split; [reflexivity|]. split; [|split; [right; exact Hq|]].
      * split; [exact Hnd'|]. exists la. cbn. split; [reflexivity|].
        eexists. rewrite lookup_insert_eq. split; [reflexivity|]. split; [reflexivity|].
        apply lseg_insert; [|exact Hb]. cbn in Hnd'. inversion Hnd'; assumption.
      * intros v. apply (unit_calls_insert (set_unit_queue s (Some n)) n N); [exact HN|reflexivity].
  - apply lseg_app in Ha as (m1 & mc1 & Ha & (-> & P & HP & Hpp & [<- Hnp])).
    rewrite Hpu. assert (Hpa : ~ In p a /\ List.NoDup a).
    { pose proof Hnd as X. rewrite <- app_assoc in X. cbn in X.
      apply nodup_mid in X as (X1 & _ & X3). split; [exact X1|].
      exact (NoDup_app_remove_r _ _ X3). }
    destruct l2 as [|n l2]; cbn [lseg] in Hb.
    + destruct Hb as [_ Hn]. rewrite Hn.
      unfold prev_of, set_next. rewrite HU. cbn. rewrite Hpu. cbn. rewrite HP. cbn.
      eexists. split; [reflexivity|]. split; [|split; [left; reflexivity|]].
      * rewrite app_nil_r. split; [rewrite app_nil_r in Hnd'; exact Hnd'|].
        exists (Some p). apply lseg_app. exists m1, (Some p). split.
        -- apply lseg_insert; [apply Hpa|exact Ha].
        -- cbn. split; [reflexivity|]. eexists. rewrite lookup_insert_eq.
           split; [reflexivity|]. split; [exact Hpp|]. auto.
      * intros v. apply (unit_calls_insert s p P); [exact HP|reflexivity].
    + destruct Hb as (Hn & N & HN & Hpn & Hb). rewrite Hn.
      assert (Hpu' : p <> u) by (intros ->; apply Hu1, in_or_app; right; left; reflexivity).
      assert (Hnu : n <> u) by (intros ->; apply Hu2; left; reflexivity).
      assert (Hpn' : p <> n).
      { intros ->. apply (NoDup_remove_2 _ _ _ Hnd'). apply in_or_app. left.
        apply in_or_app. right. left. reflexivity. }
      unfold prev_of, next_of, set_next, set_prev.
      repeat first [ progress rewrite ?Hpu, ?Hn | rewrite lookup_insert_ne by congruence
                   | rewrite HU | rewrite HN | rewrite HP | progress cbn ].
      eexists. split; [reflexivity|]. split; [|split; [left; reflexivity|]].
      * split; [exact Hnd'|]. exists la. rewrite <- app_assoc. apply lseg_app.
        exists m1, (Some p). split.
        -- apply lseg_insert; [|apply lseg_insert; [apply Hpa|exact Ha]].
           intros Hi. rewrite <- app_assoc in Hnd'. apply (nodup_app_disj _ _ _ Hnd' Hi).
           cbn. right. left. reflexivity.
        -- cbn. split; [reflexivity|]. eexists.
           rewrite lookup_insert_ne by congruence. rewrite lookup_insert_eq.
           split; [reflexivity|]. split; [exact Hpp|]. split; [reflexivity|].
           eexists. rewrite lookup_insert_eq.
           split; [reflexivity|]. split; [reflexivity|].
           apply lseg_insert; [|apply lseg_insert; [|exact Hb]].
           ++ rewrite <- app_assoc in Hnd'. cbn in Hnd'.
              apply NoDup_app_remove_l in Hnd'. inversion Hnd' as [|? ? _ Hnd'']; subst.
              inversion Hnd''; assumption.
           ++ rewrite <- app_assoc in Hnd'. cbn in Hnd'. apply NoDup_app_remove_l in Hnd'.
              inversion Hnd' as [|? ? Hx _]; subst. intros Hi. apply Hx. right. exact Hi.
      * intros v. set (s1 := set_units s _).
        rewrite (unit_calls_insert s1 n N); [|cbn; rewrite lookup_insert_ne by congruence; exact HN|reflexivity].
        apply (unit_calls_insert s p P); [exact HP|reflexivity].
Qed.

(** The [for] loop of [get_from_unit_queue] computes [best_list]. *)
Lemma find_best_spec s fuel pr cur l la dq :
  lseg (units s) pr cur l la None -> (length l <= fuel)%nat ->
  (forall d, dq = Some d -> is_Some (unit_calls s d)) ->
  find_best fuel s cur dq = Some (best_list s l dq).
Proof.
  revert fuel pr cur dq; induction l as [|u l IH]; intros fuel pr cur dq H Hf Hd; cbn in H.
  - destruct H as [_ ->]. destruct fuel; reflexivity.
  - destruct H as (-> & U & HU & _ & H). destruct fuel as [|fuel]; [cbn in Hf; lia|].
    cbn [find_best best_list]. rewrite HU. cbn [mbind option_bind].
    assert (Hf' : (length l <= fuel)%nat) by (cbn in Hf; lia).
    unfold unit_calls at 1. rewrite HU. cbn [mbind option_bind].
    destruct (iseq U) as [i|] eqn:Hi; cbn [mbind option_bind].
    + destruct dq as [d|].
      * destruct (Hd d eq_refl) as [cd Hcd]. rewrite Hcd.
        pose proof Hcd as Hcd'.
        unfold unit_calls in Hcd'. destruct (units s !! d) as [D|]; [|discriminate].
        cbn in Hcd' |- *. destruct (iseq D) as [di|]; [|discriminate]. cbn in Hcd' |- *.
        injection Hcd' as <-.
        destruct (total_calls s di <? total_calls s i); (eapply IH; [exact H|exact Hf'|]).
        -- intros d' E. injection E as <-. unfold unit_calls. rewrite HU. cbn. rewrite Hi.
           eexists; reflexivity.
        -- exact Hd.
      * eapply IH; [exact H|exact Hf'|]. intros d' E. injection E as <-.
        unfold unit_calls. rewrite HU. cbn. rewrite Hi. eexists; reflexivity.
    + eapply IH; eauto.
Qed.

Lemma best_list_some_some s l d : best_list s l (Some d) <> None.
Proof.
  revert d; induction l as [|u l IH]; intros d; cbn; [discriminate|].
  destruct (unit_calls s u); [|apply IH]. destruct (unit_calls s d); [|discriminate].
  destruct (_ <? _); apply IH.
Qed.

Lemma best_list_none s l :
  best_list s l None = None -> forall v, In v l -> unit_calls s v = None.
Proof.
  induction l as [|u l IH]; intros H v Hv; [destruct Hv|]. cbn in H.
  destruct (unit_calls s u) eqn:E; [exfalso; exact (best_list_some_some _ _ _ H)|].
  destruct Hv as [<-|Hv]; [exact E|]. apply IH; assumption.
Qed.

Lemma best_list_from s l d0 c0 u :
  unit_calls s d0 = Some c0 -> best_list s l (Some d0) = Some u ->
  (u = d0 /\ forall v c, In v l -> unit_calls s v = Some c -> c <= c0) \/
  (exists l1 l2 cu, l = l1 ++ u :: l2 /\ unit_calls s u = Some cu /\ c0 < cu /\
     (forall v c, In v l1 -> unit_calls s v = Some c -> c < cu) /\
     (forall v c, In v l2 -> unit_calls s v = Some c -> c <= cu)).
Proof.
  revert d0 c0; induction l as [|v l IH]; intros d0 c0 Hd H; cbn in H.
  - injection H as ->. left. split; [reflexivity|]. intros ? ? [].
  - destruct (unit_calls s v) as [c|] eqn:Ev.
    + rewrite Hd in H. destruct (Z.ltb_spec c0 c) as [Hlt|Hge].
      * destruct (IH v c Ev H) as [[-> Hr]|(l1 & l2 & cu & -> & Hu & Hc & H1 & H2)].
        -- right. exists [], l, c. split; [reflexivity|]. split; [exact Ev|].
           split; [exact Hlt|]. split; [intros ? ? []|exact Hr].
        -- right. exists (v :: l1), l2, cu. split; [reflexivity|]. split; [exact Hu|].
           split; [lia|]. split; [|exact H2].
           intros w cw [<-|Hw] Hcw; [rewrite Ev in Hcw; injection Hcw as <-; lia|].
           exact (H1 w cw Hw Hcw).
      * destruct (IH d0 c0 Hd H) as [[-> Hr]|(l1 & l2 & cu & -> & Hu & Hc & H1 & H2)].
        -- left. split; [reflexivity|]. intros w cw [<-|Hw] Hcw.
           ++ rewrite Ev in Hcw. injection Hcw as <-. lia.
           ++ exact (Hr w cw Hw Hcw).
        -- right. exists (v :: l1), l2, cu. split; [reflexivity|]. split; [exact Hu|].
           split; [exact Hc|]. split; [|exact H2].
           intros w cw [<-|Hw] Hcw; [rewrite Ev in Hcw; injection Hcw as <-; lia|].
           exact (H1 w cw Hw Hcw).
    + destruct (IH d0 c0 Hd H) as [[-> Hr]|(l1 & l2 & cu & -> & Hu & Hc & H1 & H2)].
      * left. split; [reflexivity|]. intros w cw [<-|Hw] Hcw; [congruence|exact (Hr w cw Hw Hcw)].
      * right. exists (v :: l1), l2, cu. split; [reflexivity|]. split; [exact Hu|].
        split; [exact Hc|]. split; [|exact H2].
        intros w cw [<-|Hw] Hcw; [congruence|exact (H1 w cw Hw Hcw)].
Qed.

(** [best_list] picks the first unit with the largest [total_calls]. *)
Lemma best_list_first s l u :
  best_list s l None = Some u ->
  exists l1 l2 cu, l = l1 ++ u :: l2 /\ unit_calls s u = Some cu /\
     (forall v c, In v l1 -> unit_calls s v = Some c -> c < cu) /\
     (forall v c, In v l2 -> unit_calls s v = Some c -> c <= cu).
Proof.
  induction l as [|v l IH]; intros H; cbn in H; [discriminate|].
  destruct (unit_calls s v) as [c|] eqn:Ev.
  - destruct (best_list_from s l v c u Ev H) as [[-> Hr]|(l1 & l2 & cu & -> & Hu & Hc & H1 & H2)].
    + exists [], l, c. split; [reflexivity|]. split; [exact Ev|]. split; [intros ? ? []|exact Hr].
    + exists (v :: l1), l2, cu. split; [reflexivity|]. split; [exact Hu|]. split; [|exact H2].
      intros w cw [<-|Hw] Hcw; [rewrite Ev in Hcw; injection Hcw as <-; lia|].
      exact (H1 w cw Hw Hcw).
  - destruct (IH H) as (l1 & l2 & cu & -> & Hu & H1 & H2).
    exists (v :: l1), l2, cu. split; [reflexivity|]. split; [exact Hu|]. split; [|exact H2].
    intros w cw [<-|Hw] Hcw; [congruence|exact (H1 w cw Hw Hcw)].
Qed.

(** C3: on a queue holding the units [l] (in insertion order, see
    [add_spec]), [get_from_unit_queue] returns the unit [u] with the
    largest [total_calls] among the units whose [iseq] is not [NULL]: the
    units before it have fewer calls (so ties go to the earliest), those
    after it at most as many.  The queue afterwards holds [l] without [u],
    and every unit keeps its [iseq] (units with a [NULL] [iseq] stay).  If no
    unit has a non-[NULL] [iseq], it returns [NULL] and the state is
    unchanged. *)
Theorem C3_get_from_unit_queue_best s l :
  repr s l ->
  match get_from_unit_queue s with
  | Some (None, s') => s' = s /\ (forall v, In v l -> unit_calls s v = None)
  | Some (Some u, s') =>
      exists l1 l2 cu, l = l1 ++ u :: l2 /\ unit_calls s u = Some cu /\
        (forall v c, In v l1 -> unit_calls s v = Some c -> c < cu) /\
        (forall v c, In v l2 -> unit_calls s v = Some c -> c <= cu) /\
        repr s' (l1 ++ l2) /\ (forall v, unit_calls s' v = unit_calls s v)
  | None => False
  end.
Proof.
  intros Hr. pose proof Hr as [Hnd [la Hl]]. unfold get_from_unit_queue.
  destruct (unit_queue s) as [q|] eqn:Hq.
  - rewrite (find_best_spec s _ None (Some q) l la None Hl)
      by (try (pose proof (lseg_length _ _ _ _ _ _ Hnd Hl); lia); discriminate).
    cbn [mbind option_bind]. destruct (best_list s l None) as [u|] eqn:Hb.
    + destruct (best_list_first s l u Hb) as (l1 & l2 & cu & -> & Hu & H1 & H2).
      destruct (remove_spec s l1 u l2 Hr) as (s' & Hrm & Hr' & _ & Hc).
      rewrite Hrm. cbn. exists l1, l2, cu. auto 6.
    + split; [reflexivity|]. apply best_list_none, Hb.
  - split; [reflexivity|]. destruct l as [|v l]; [intros ? []|].
    cbn in Hl. destruct Hl as [E _]. discriminate.
Qed.

(** C10: removing a unit [u] of the queue leaves exactly the other units,
    in the same order; [unit_queue] changes only if [u] was the head; no
    unit's [iseq] changes. *)
Theorem C10_remove_from_unit_queue_exact s l1 u l2 :
  repr s (l1 ++ u :: l2) ->
  exists s', remove_from_unit_queue u s = Some s' /\ repr s' (l1 ++ l2) /\
    (unit_queue s' <> unit_queue s -> unit_queue s = Some u) /\
    (forall v, unit_calls s' v = unit_calls s v).
Proof.
  intros Hr. destruct (remove_spec s l1 u l2 Hr) as (s' & Hrm & Hr' & Hq & Hc).
  exists s'. split; [exact Hrm|]. split; [exact Hr'|]. split; [|exact Hc].
  intros Hne. destruct Hq as [Hq|Hq]; [contradiction|exact Hq].
Qed.

Lemma find_tail_spec s fuel pr x l la :
  lseg (units s) pr (Some x) l la None -> (length l <= fuel)%nat -> find_tail fuel s x = la.
Proof.
  revert fuel pr x; induction l as [|y l IH]; intros fuel pr x H Hf; cbn in H.
  - destruct H as [_ E]. discriminate.
  - destruct H as (E & U & HU & _ & H). injection E as <-.
    destruct fuel as [|fuel]; [cbn in Hf; lia|]. cbn. rewrite HU. cbn.
    destruct (next U) as [n|] eqn:Hn.
    + eapply IH; [exact H|cbn in Hf; lia].
    + destruct l as [|z l]; cbn in H; [destruct H as [<- _]; reflexivity|].
      destruct H as [E _]. discriminate.
Qed.

Lemma nodup_snoc {A} (l : list A) u : List.NoDup l -> ~ In u l -> List.NoDup (l ++ [u]).
Proof.
  induction l as [|x l IH]; intros H Hu; cbn; [repeat constructor; intros []|].
  inversion H as [|? ? Hx H']; subst. constructor.
  - intros Hi. apply in_app_or in Hi as [Hi|[<-|[]]]; [exact (Hx Hi)|apply Hu; left; reflexivity].
  - apply IH; [exact H'|]. intros Hi; apply Hu; right; exact Hi.
Qed.

(** [add_to_unit_queue] appends a fresh unit (all links [NULL], as
    [create_unit] zero-allocates it) at the tail: the queue order is the
    insertion order. *)
Lemma add_spec s l u U :
  repr s l -> ~ In u l -> units s !! u = Some U -> next U = None -> prev U = None ->
  exists s', add_to_unit_queue u s = Some s' /\ repr s' (l ++ [u]) /\
    (forall v, unit_calls s' v = unit_calls s v).
Proof.
  intros [Hnd [la Hl]] Hu HU Hn Hp. unfold add_to_unit_queue.
  destruct (unit_queue s) as [q|] eqn:Hq.
  - destruct l as [|t0 l0] using rev_ind; [cbn in Hl; destruct Hl as [_ E]; discriminate|].
    clear IHl0.
    rewrite (find_tail_spec s _ None q _ la Hl) by (pose proof (lseg_length _ _ _ _ _ _ Hnd Hl); lia).
    apply lseg_app in Hl as (m & mc & Ha & (-> & T & HT & Hpt & [<- Hnt])).
    assert (Htu : t0 <> u) by (intros ->; apply Hu, in_or_app; right; left; reflexivity).
    unfold set_next, set_prev. cbn. rewrite HT. cbn. rewrite lookup_insert_ne by congruence.
    rewrite HU. cbn. eexists. split; [reflexivity|]. split.
    + split.
      * apply nodup_snoc; assumption.
      * exists (Some u). rewrite <- app_assoc. apply lseg_app. exists m, (Some t0). split.
        -- cbn [units unit_queue set_units]. rewrite Hq.
           apply lseg_insert; [|apply lseg_insert; [|exact Ha]].
           ++ intros Hi. apply Hu, in_or_app. left. exact Hi.
           ++ intros Hi. apply NoDup_remove_2 in Hnd as Hx. rewrite app_nil_r in Hx. exact (Hx Hi).
        -- cbn. split; [reflexivity|]. eexists.
           rewrite lookup_insert_ne by congruence. rewrite lookup_insert_eq.
           split; [reflexivity|]. split; [exact Hpt|]. split; [reflexivity|].
           eexists. rewrite lookup_insert_eq. split; [reflexivity|]. split; [reflexivity|].
           cbn. split; [reflexivity|exact Hn].
    + intros v. set (s1 := set_units s _).
      rewrite (unit_calls_insert s1 u U); [|cbn; rewrite lookup_insert_ne by congruence; exact HU|reflexivity].
      apply (unit_calls_insert s t0 T); [exact HT|reflexivity].
  - destruct l as [|v l]; [|cbn in Hl; destruct Hl as [E _]; discriminate].
    eexists. split; [reflexivity|]. split; [|reflexivity].
    split; [repeat constructor; intros []|]. exists (Some u). cbn.
    split; [reflexivity|]. exists U. auto.
Qed.

Ltac repr_solve :=
  split; [repeat constructor; cbn; lia|];
  eexists; cbn; repeat first [reflexivity | split | eexists].

Lemma C3_get_from_unit_queue_best_witness :
  repr q0 [1; 2; 3] /\
  match get_from_unit_queue q0 with
  | Some (None, s') => s' = q0 /\ (forall v, In v [1; 2; 3] -> unit_calls q0 v = None)
  | Some (Some u, s') =>
      exists l1 l2 cu, [1; 2; 3] = l1 ++ u :: l2 /\ unit_calls q0 u = Some cu /\
        (forall v c, In v l1 -> unit_calls q0 v = Some c -> c < cu) /\
        (forall v c, In v l2 -> unit_calls q0 v = Some c -> c <= cu) /\
        repr s' (l1 ++ l2) /\ (forall v, unit_calls s' v = unit_calls q0 v)
  | None => False
  end.
Proof.
  assert (H : repr q0 [1; 2; 3]) by repr_solve.
  split; [exact H|exact (C3_get_from_unit_queue_best q0 [1; 2; 3] H)].
Defined.

Lemma C10_remove_from_unit_queue_exact_witness :
  repr q0 ([1] ++ 2 :: [3]) /\
  exists s', remove_from_unit_queue 2 q0 = Some s' /\ repr s' ([1] ++ [3]) /\
    (unit_queue s' <> unit_queue q0 -> unit_queue q0 = Some 2) /\
    (forall v, unit_calls s' v = unit_calls q0 v).
Proof.
  assert (H : repr q0 ([1] ++ 2 :: [3])) by repr_solve.
  split; [exact H|exact (C10_remove_from_unit_queue_exact q0 [1] 2 [3] H)].
Defined.

(** * Proofs: the worker, the GC hooks and the client *)

Lemma gc_inv_init q : gc_inv (engine_init q).
Proof. unfold gc_inv; cbn; repeat split; try discriminate; intros [? ?]; discriminate. Qed.

Lemma gc_inv_step e e' : gc_inv e -> step e e' -> gc_inv e'.
Proof.
  intros (I1 & I2 & I3) Hs; unfold gc_inv.
  destruct Hs; cbn [with_w with_c with_mutex with_flags with_dequeued with_queue with_finish
                    in_jit in_gc mutex w_pc c_pc];
    repeat split; intros; try discriminate;
    try (destruct u; discriminate);
    try (destruct I2 as [? ?]; [assumption|]);
    try (destruct I3 as [? ?]; [assumption|]);
    intuition congruence.
Qed.

Lemma gc_inv_reachable q e : reachable q e -> gc_inv e.
Proof.
  unfold reachable; intros Hr.
  assert (H0 := gc_inv_init q); revert H0.
  induction Hr as [|x y z Hxy _ IH]; intros H0; [exact H0|].
  apply IH, (gc_inv_step x y H0 Hxy).
Qed.




Lemma exit_inv_init q : exit_inv (engine_init q).
Proof. unfold exit_inv; cbn; repeat split; intros; discriminate. Qed.

Lemma exit_inv_step e e' : exit_inv e -> step e e' -> exit_inv e'.
Proof.
  intros (K1 & K2 & K3) Hs; unfold exit_inv.
  destruct Hs; cbn [with_w with_c with_mutex with_flags with_dequeued with_queue with_finish
                    finish_worker_p w_pc mutex];
    repeat match goal with
           | H : w_pc _ = _ |- _ => rewrite H in *; clear H
           end;
    try match goal with |- context [match ?u with Some _ => _ | None => _ end] => destruct u end;
    cbn [exit_pc] in *;
    repeat split; intros; try discriminate; try reflexivity; auto;
    try (match goal with H : w_pc e = W_SET_FINISHED |- _ => rewrite (K2 H) in * end; congruence);
    try (match goal with H : w_pc e = W_UNLOCK_END |- _ => rewrite (K3 H) in * end; congruence).
Qed.

Lemma exit_inv_reachable q e : reachable q e -> exit_inv e.
Proof.
  unfold reachable; intros Hr.
  assert (H0 := exit_inv_init q); revert H0.
  induction Hr as [|x y z Hxy _ IH]; intros H0; [exact H0|].
  apply IH, (exit_inv_step x y H0 Hxy).
Qed.

Lemma q0_get : get_from_unit_queue q0 = Some (Some 3, q0_after).
Proof. vm_compute. reflexivity. Qed.

Ltac engine_step c :=
  eapply rtc_l; [eapply c; solve [reflexivity | left; discriminate | exact q0_get] |].

(** C4: in every reachable state of the worker, the GC hooks and the
    client, [in_jit] and [in_gc] are not both true; [in_jit] becomes true
    only in the worker's step [in_jit = TRUE], taken holding the mutex
    with [in_gc] false (it waits on [mjit_gc_wakeup] otherwise), and
    [in_gc] becomes true only in [mjit_gc_start_hook]'s [in_gc = TRUE],
    taken holding the mutex with [in_jit] false (it waits on
    [mjit_client_wakeup] otherwise). *)
Theorem C4_in_jit_in_gc_exclusive q e :
  reachable q e ->
  ~ (in_jit e = true /\ in_gc e = true) /\
  (forall e', step e e' -> in_jit e = false -> in_jit e' = true ->
     w_pc e = W_SET_JIT /\ mutex e = Some Worker /\ in_gc e = false) /\
  (forall e', step e e' -> in_gc e = false -> in_gc e' = true ->
     c_pc e = C_SET_GC /\ mutex e = Some Client /\ in_jit e = false).
Proof.
  intros Hr; destruct (gc_inv_reachable q e Hr) as (I1 & I2 & I3).
  split; [exact I1|split].
  - intros e' Hs Hj Hj'.
    destruct Hs; cbn [with_w with_c with_mutex with_flags with_dequeued with_queue with_finish
                      in_jit] in Hj'; try congruence.
    split; [assumption|exact (I2 H)].
  - intros e' Hs Hg Hg'.
    destruct Hs; cbn [with_w with_c with_mutex with_flags with_dequeued with_queue with_finish
                      in_gc] in Hg'; try congruence.
    split; [assumption|exact (I3 H)].
Qed.

Lemma C4_in_jit_in_gc_exclusive_witness :
  exists e, reachable q0 e /\ in_jit e = true /\ c_pc e = C_WAIT_JIT /\
    ~ (in_jit e = true /\ in_gc e = true) /\
    (forall e', step e e' -> in_jit e = false -> in_jit e' = true ->
       w_pc e = W_SET_JIT /\ mutex e = Some Worker /\ in_gc e = false) /\
    (forall e', step e e' -> in_gc e = false -> in_gc e' = true ->
       c_pc e = C_SET_GC /\ mutex e = Some Client /\ in_jit e = false).
Proof.
  eexists.
  eassert (Hr : reachable q0 _).
  { unfold reachable.
    engine_step w_head_enter. engine_step w_lock_deq. engine_step w_dequeue.
    engine_step w_lock_gc. engine_step w_no_gc. engine_step w_set_jit.
    engine_step c_gc_start. engine_step c_lock_gc_start. engine_step c_wait_jit.
    apply rtc_refl. }
  split; [exact Hr|split; [reflexivity|split; [reflexivity|]]].
  exact (C4_in_jit_in_gc_exclusive q0 _ Hr).
Defined.




(** C6 fails in the code: when [dlopen] fails after a successful
    translation and C compilation, [load_func_from_so] returns
    [NOT_ADDED_JIT_ISEQ_FUNC] and the worker stores it in the entry slot,
    which then reads "not yet attempted", not [NOT_COMPILABLE_JIT_ISEQ_FUNC].
    When [dlsym] fails, the slot gets [NULL] (the same value) and nothing
    is printed. *)
Theorem C6_load_failure_slot env body so_file funcname dl_error dlsym_res i old :
  success (mjit_compile env body funcname) = true ->
  publish (Some i) old
    (fst (convert_unit_to_func env body so_file funcname dl_error true None dlsym_res))
    = NOT_ADDED_JIT_ISEQ_FUNC /\
  NOT_ADDED_JIT_ISEQ_FUNC <> NOT_COMPILABLE_JIT_ISEQ_FUNC /\
  (forall handle,
     convert_unit_to_func env body so_file funcname dl_error true (Some handle) 0 = (0, []) /\
     publish (Some i) old 0 = NOT_ADDED_JIT_ISEQ_FUNC).
Proof.
  intros Hs; unfold convert_unit_to_func; cbv zeta; rewrite Hs.
  cbn [negb load_func_from_so fst publish].
  split; [reflexivity|split; [discriminate|intros h; split; reflexivity]].
Qed.

Lemma C6_load_failure_slot_witness :
  success (mjit_compile env0 body_plus "_mjit0") = true /\
  publish (Some 10) NOT_READY_JIT_ISEQ_FUNC
    (fst (convert_unit_to_func env0 body_plus "/tmp/_ruby_mjit_p1u0.so" "_mjit0"
            "cannot open shared object file" true None 0))
    = NOT_ADDED_JIT_ISEQ_FUNC /\
  NOT_ADDED_JIT_ISEQ_FUNC <> NOT_COMPILABLE_JIT_ISEQ_FUNC /\
  (forall handle,
     convert_unit_to_func env0 body_plus "/tmp/_ruby_mjit_p1u0.so" "_mjit0"
       "cannot open shared object file" true (Some handle) 0 = (0, []) /\
     publish (Some 10) NOT_READY_JIT_ISEQ_FUNC 0 = NOT_ADDED_JIT_ISEQ_FUNC).
Proof.
  assert (Hs : success (mjit_compile env0 body_plus "_mjit0") = true) by (vm_compute; reflexivity).
  split; [exact Hs|].
  exact (C6_load_failure_slot env0 body_plus "/tmp/_ruby_mjit_p1u0.so" "_mjit0"
           "cannot open shared object file" 0 10 NOT_READY_JIT_ISEQ_FUNC Hs).
Defined.

(** * Proofs: command lines, file names and the remaining entry points *)

Lemma args_len_spec a n :
  args_len a = Some n ->
  length (c_strings a) = n /\ take n a = map Some (c_strings a) /\ (n < length a)%nat.
Proof.
  revert n; induction a as [|[x|] a IH]; intros n H; cbn in H.
  - discriminate.
  - destruct (args_len a) as [m|]; cbn in H; [|discriminate].
    injection H as <-. destruct (IH m eq_refl) as (H1 & H2 & H3).
    cbn. rewrite H1, H2. split; [reflexivity|split; [reflexivity|lia]].
  - injection H as <-. cbn. split; [reflexivity|split; [reflexivity|lia]].
Qed.

Lemma memmove_args_spec (g : option string) len P m src :
  (len <= length src)%nat -> (len <= m)%nat ->
  memmove_args (P ++ repeat g m) (length P) src len = P ++ take len src ++ repeat g (m - len).
Proof.
  revert P m src; induction len as [|len IH]; intros P m src H1 H2.
  - destruct src; cbn; rewrite Nat.sub_0_r; reflexivity.
  - destruct src as [|a src]; [cbn in H1; lia|]. destruct m as [|m]; [lia|].
    cbn [memmove_args repeat]. unfold c_argv.
    rewrite <- (Nat.add_0_r (length P)), insert_app_r, Nat.add_0_r. cbn [insert list_insert].
    replace (P ++ a :: repeat g m) with ((P ++ [a]) ++ repeat g m)
      by (rewrite <- app_assoc; reflexivity).
    replace (S (length P)) with (length (P ++ [a])) by (rewrite length_app; cbn; lia).
    rewrite IH by (cbn in H1; lia). rewrite <- app_assoc. reflexivity.
Qed.

Lemma sum_args_len_spec arrays k :
  Forall (fun a => args_len a <> None) arrays ->
  sum_args_len arrays k = Some (k + length (concat (map c_strings arrays)))%nat.
Proof.
  revert k; induction arrays as [|a r IH]; intros k H; cbn.
  - f_equal; lia.
  - inversion H as [|? ? Ha Hr]; subst.
    destruct (args_len a) as [n|] eqn:E; [|congruence]. cbn.
    destruct (args_len_spec a n E) as (H1 & _ & _).
    rewrite IH by exact Hr. rewrite length_app. f_equal. lia.
Qed.

Lemma copy_args_spec (g : option string) arrays P m :
  Forall (fun a => args_len a <> None) arrays ->
  (length (concat (map c_strings arrays)) <= m)%nat ->
  copy_args arrays (P ++ repeat g m) (length P) =
    Some (P ++ map Some (concat (map c_strings arrays)) ++
            repeat g (m - length (concat (map c_strings arrays))),
          length P + length (concat (map c_strings arrays)))%nat.
Proof.
  revert P m; induction arrays as [|a r IH]; intros P m H Hm; cbn [copy_args].
  - cbn. rewrite Nat.sub_0_r, Nat.add_0_r. reflexivity.
  - inversion H as [|? ? Ha Hr]; subst.
    destruct (args_len a) as [n|] eqn:E; [|congruence]. cbn [mbind option_bind].
    destruct (args_len_spec a n E) as (H1 & H2 & H3).
    cbn [map concat] in Hm |- *. rewrite length_app in Hm |- *.
    rewrite memmove_args_spec by lia. rewrite H2.
    replace (P ++ map Some (c_strings a) ++ repeat g (m - n))
      with ((P ++ map Some (c_strings a)) ++ repeat g (m - n)) by (rewrite app_assoc; reflexivity).
    replace (length P + n)%nat with (length (P ++ map Some (c_strings a)))
      by (rewrite length_app, length_map; lia).
    rewrite IH by (auto; lia). rewrite length_app, length_map, map_app, <- !app_assoc.
    subst n. do 2 f_equal; [do 3 f_equal; f_equal; lia | lia].
Qed.

Lemma form_args_some g arrays :
  Forall (fun a => args_len a <> None) arrays ->
  form_args true g arrays = Some (map Some (concat (map c_strings arrays)) ++ [None]).
Proof.
  intros H. unfold form_args. rewrite sum_args_len_spec by exact H. cbn [mbind option_bind negb].
  rewrite <- (app_nil_l (repeat g _)).
  replace 0%nat with (@length (option string) []) at 2 by reflexivity.
  rewrite copy_args_spec by (auto; lia). cbn [app length]. unfold c_argv.
  match goal with
  | |- Some (<[?i := _]> (?l ++ repeat g ?k)) = _ =>
      replace k with 1%nat by lia;
      replace i with (length l + 0)%nat by (rewrite length_map; lia)
  end.
  rewrite insert_app_r. reflexivity.
Qed.

Lemma args_len_argv l : args_len (argv l) = Some (length l).
Proof. induction l as [|x l IH]; cbn; [reflexivity|]. unfold argv in IH. rewrite IH. reflexivity. Qed.

Ltac argv_arrays_ok := repeat constructor; cbn; discriminate.

(** Extra (form_args): when each array it is given ends in its [NULL]
    marker, [form_args] returns [NULL] exactly when [xmalloc] fails;
    otherwise the result holds the strings of the arrays in order and one
    [NULL] after them, so that its [args_len] is the sum of theirs,
    whatever the fresh block held before. *)
Theorem form_args_concat (g : option string) (arrays : list c_argv) :
  Forall (fun a => args_len a <> None) arrays ->
  form_args false g arrays = None /\
  form_args true g arrays = Some (map Some (concat (map c_strings arrays)) ++ [None]) /\
  args_len (map Some (concat (map c_strings arrays)) ++ [None]) = sum_args_len arrays 0.
Proof.
  intros H. split; [|split].
  - unfold form_args. rewrite sum_args_len_spec by exact H. reflexivity.
  - apply form_args_some, H.
  - rewrite sum_args_len_spec by exact H. apply args_len_argv.
Qed.

Lemma form_args_concat_witness :
  Forall (fun a => args_len a <> None) [GCC_USE_PCH_ARGS; [Some "a.c"%string; None]] /\
  form_args false None [GCC_USE_PCH_ARGS; [Some "a.c"%string; None]] = None /\
  form_args true None [GCC_USE_PCH_ARGS; [Some "a.c"%string; None]] =
    Some (map Some (concat (map c_strings [GCC_USE_PCH_ARGS; [Some "a.c"%string; None]])) ++ [None]) /\
  args_len (map Some (concat (map c_strings [GCC_USE_PCH_ARGS; [Some "a.c"%string; None]])) ++ [None]) =
    sum_args_len [GCC_USE_PCH_ARGS; [Some "a.c"%string; None]] 0.
Proof.
  assert (H : Forall (fun a => args_len a <> None) [GCC_USE_PCH_ARGS; [Some "a.c"%string; None]])
    by argv_arrays_ok.
  split; [exact H|exact (form_args_concat None _ H)].
Defined.

(** Extra (compile_c_to_so, make_pch): once [xmalloc] succeeds, the
    command line given to [exec_process] starts with [cc_path], the
    compiler [mjit_init] chose, then [-O0 -g] with the debug option and
    [-O2] without; it ends with the input file, [-o] and the output file.
    With LLVM, [compile_c_to_so] passes [-include-pch pch_file] and
    [make_pch] passes [-emit-pch]; with GCC, [compile_c_to_so] passes
    [-I/tmp]. *)
Theorem compiler_command_lines (opts : mjit_options) (pch_file c_file so_file header_file : string)
    (g : option string) :
  (exists flags,
     compile_c_to_so_args opts (Some pch_file) c_file so_file true g =
       Some (argv ([cc_path opts] ++ (if opt_debug opts then ["-O0"; "-g"] else ["-O2"])%string ++
                   flags ++ [c_file; "-o"%string; so_file])) /\
     (if opt_llvm opts then exists f1 f2, flags = f1 ++ "-include-pch"%string :: pch_file :: f2
      else In "-I/tmp"%string flags)) /\
  (exists flags,
     make_pch_args opts (Some header_file) (Some pch_file) true g =
       Some (argv ([cc_path opts] ++ (if opt_debug opts then ["-O0"; "-g"] else ["-O2"])%string ++
                   flags ++ [header_file; "-o"%string; pch_file])) /\
     (opt_llvm opts = true -> In "-emit-pch"%string flags)).
Proof.
  unfold compile_c_to_so_args, make_pch_args, common_args, cc_path.
  destruct (opt_llvm opts), (opt_debug opts);
    rewrite !form_args_some by argv_arrays_ok; split.
  1, 3: exists ["-fPIC"; "-shared"; "-I/usr/local/include"; "-L/usr/local/lib"; "-w"; "-bundle";
                "-include-pch"; pch_file; "-Wl,-undefined"; "-Wl,dynamic_lookup"]%string;
        split; [reflexivity|];
        exists ["-fPIC"; "-shared"; "-I/usr/local/include"; "-L/usr/local/lib"; "-w"; "-bundle"]%string,
               ["-Wl,-undefined"; "-Wl,dynamic_lookup"]%string; reflexivity.
  1, 2: exists ["-fPIC"; "-shared"; "-I/usr/local/include"; "-L/usr/local/lib"; "-w"; "-bundle";
                "-emit-pch"]%string;
        split; [reflexivity|]; intros _; cbn; repeat (solve [left; reflexivity] || right).
  1, 3: exists ["-Wfatal-errors"; "-fPIC"; "-shared"; "-w"; "-pipe"; "-nostartfiles";
                "-nodefaultlibs"; "-nostdlib"; "-I/tmp"]%string;
        split; [reflexivity|]; cbn; repeat (solve [left; reflexivity] || right).
  1, 2: exists ["-Wfatal-errors"; "-fPIC"; "-shared"; "-w"; "-pipe"; "-nostartfiles";
                "-nodefaultlibs"; "-nostdlib"]%string;
        split; [reflexivity|]; discriminate.
Qed.

#[local] Arguments String.append s1 s2 : simpl nomatch.

Lemma str_app_assoc (a b c : string) : (a ++ b ++ c)%string = ((a ++ b) ++ c)%string.
Proof. induction a as [|x a IH]; cbn; [reflexivity|]. rewrite IH. reflexivity. Qed.

Lemma str_app_nil_r (a : string) : (a ++ "")%string = a.
Proof. induction a as [|x a IH]; cbn; [reflexivity|]. rewrite IH. reflexivity. Qed.

Lemma str_length_app (a b : string) :
  String.length (a ++ b) = (String.length a + String.length b)%nat.
Proof. induction a as [|x a IH]; cbn; [reflexivity|]. rewrite IH. reflexivity. Qed.

Lemma str_app_cancel_l (p a b : string) : (p ++ a)%string = (p ++ b)%string -> a = b.
Proof. induction p as [|x p IH]; cbn; [auto|]. intros E. injection E as E. auto. Qed.

Lemma is_digit_char n : is_digit (ascii_of_N (48 + n mod 10)) = true.
Proof.
  pose proof (N.mod_lt n 10 ltac:(lia)) as Hm. unfold is_digit.
  rewrite N_ascii_embedding by lia. apply andb_true_intro; split; apply N.leb_le; lia.
Qed.

Lemma dec_aux_acc f n acc : dec_aux f n acc = (dec_aux f n "" ++ acc)%string.
Proof.
  revert n acc; induction f as [|f IH]; intros n acc; cbn [dec_aux]; [reflexivity|].
  destruct (n <? 10)%N; [reflexivity|].
  rewrite (IH _ (String _ acc)), (IH _ (String _ "")), <- str_app_assoc. reflexivity.
Qed.

Lemma dec_aux_digits f n acc : all_digits acc = true -> all_digits (dec_aux f n acc) = true.
Proof.
  revert n acc; induction f as [|f IH]; intros n acc H; cbn [dec_aux]; [exact H|].
  destruct (n <? 10)%N; [|apply IH]; cbn; rewrite is_digit_char, H; reflexivity.
Qed.

Lemma dec_aux_length f n acc : (String.length (dec_aux f n acc) <= f + String.length acc)%nat.
Proof.
  revert n acc; induction f as [|f IH]; intros n acc; cbn [dec_aux]; [lia|].
  destruct (n <? 10)%N; cbn [String.length]; [lia|].
  specialize (IH (n / 10)%N (String (ascii_of_N (48 + n mod 10)) acc)). cbn in IH. lia.
Qed.

Lemma dec_value_app v a b : dec_value v (a ++ b) = dec_value (dec_value v a) b.
Proof. revert v; induction a as [|x a IH]; intros v; cbn; auto. Qed.

Lemma dec_aux_value f n : (n < 10 ^ N.of_nat f)%N -> dec_value 0 (dec_aux f n "") = n.
Proof.
  revert n; induction f as [|f IH]; intros n Hn; cbn [dec_aux].
  - cbn in Hn |- *. lia.
  - pose proof (N.mod_lt n 10 ltac:(lia)) as Hm. destruct (n <? 10)%N eqn:E.
    + apply N.ltb_lt in E. cbn. rewrite N_ascii_embedding by lia.
      rewrite N.mod_small by lia. lia.
    + apply N.ltb_ge in E. rewrite dec_aux_acc, dec_value_app, IH.
      * cbn. rewrite N_ascii_embedding by lia. pose proof (N.div_mod n 10 ltac:(lia)). lia.
      * rewrite Nat2N.inj_succ, N.pow_succ_r' in Hn. lia.
Qed.

Lemma digits_split a b s1 s2 :
  all_digits a = true -> all_digits b = true ->
  starts_nondigit s1 = true -> starts_nondigit s2 = true ->
  (a ++ s1)%string = (b ++ s2)%string -> a = b /\ s1 = s2.
Proof.
  revert b; induction a as [|c a IH]; intros [|c' b] Ha Hb H1 H2 E; cbn in E.
  - auto.
  - subst s1. cbn in Hb, H1. apply andb_prop in Hb as [Hc _]. rewrite Hc in H1. discriminate.
  - subst s2. cbn in Ha, H2. apply andb_prop in Ha as [Hc _]. rewrite Hc in H2. discriminate.
  - injection E as -> E. cbn in Ha, Hb. apply andb_prop in Ha as [_ Ha].
    apply andb_prop in Hb as [_ Hb]. destruct (IH b Ha Hb H1 H2 E) as [-> ->]. auto.
Qed.

Lemma fmt_lu_digits n : all_digits (fmt_lu n) = true.
Proof. apply dec_aux_digits. reflexivity. Qed.

Lemma fmt_lu_value n : dec_value 0 (fmt_lu n) = Z.to_N (n mod 2 ^ 64).
Proof.
  apply dec_aux_value. pose proof (Z.mod_pos_bound n (2 ^ 64) ltac:(lia)).
  apply N2Z.inj_lt. rewrite Z2N.id by lia. rewrite N2Z.inj_pow. cbn. lia.
Qed.

Lemma fmt_lu_length n : (String.length (fmt_lu n) <= 20)%nat.
Proof. apply dec_aux_length. Qed.

Lemma fmt_d_length n : (String.length (fmt_d n) <= 11)%nat.
Proof.
  unfold fmt_d. destruct (n <? 0); cbn [String.length];
    match goal with |- context [dec_aux 10 ?m ""] => pose proof (dec_aux_length 10 m "") end;
    cbn in *; lia.
Qed.

Lemma fmt_d_nonneg_inj n m :
  0 <= n < 2 ^ 31 -> 0 <= m < 2 ^ 31 -> fmt_d n = fmt_d m -> n = m.
Proof.
  intros Hn Hm E. unfold fmt_d in E.
  rewrite (proj2 (Z.ltb_ge n 0)), (proj2 (Z.ltb_ge m 0)) in E by lia.
  apply (f_equal (dec_value 0)) in E. rewrite !dec_aux_value in E.
  - apply Z2N.inj in E; lia.
  - apply N2Z.inj_lt. rewrite Z2N.id by lia. rewrite N2Z.inj_pow. cbn. lia.
  - apply N2Z.inj_lt. rewrite Z2N.id by lia. rewrite N2Z.inj_pow. cbn. lia.
Qed.

(** Extra (sprint_uniq_filename): a name built by [sprint_uniq_filename]
    determines its process id and number (as the [unsigned long] values
    printed, modulo 2^64) and its suffix, when the suffixes do not start
    with a digit: two names with the same prefix are equal only if
    these three agree. *)
Theorem sprint_uniq_filename_inj (pid1 id1 pid2 id2 : Z) (prefix suffix1 suffix2 : string) :
  starts_nondigit suffix1 = true -> starts_nondigit suffix2 = true ->
  sprint_uniq_filename pid1 id1 prefix suffix1 = sprint_uniq_filename pid2 id2 prefix suffix2 ->
  pid1 mod 2 ^ 64 = pid2 mod 2 ^ 64 /\ id1 mod 2 ^ 64 = id2 mod 2 ^ 64 /\ suffix1 = suffix2.
Proof.
  unfold sprint_uniq_filename. intros H1 H2 E.
  apply str_app_cancel_l, str_app_cancel_l, str_app_cancel_l in E.
  apply digits_split in E as [Ep E]; try apply fmt_lu_digits; try reflexivity.
  cbn [String.append] in E. injection E as E.
  apply digits_split in E as [Ei Es]; try apply fmt_lu_digits; try assumption.
  apply (f_equal (dec_value 0)) in Ep, Ei. rewrite !fmt_lu_value in Ep, Ei.
  pose proof (Z.mod_pos_bound pid1 (2 ^ 64) ltac:(lia)).
  pose proof (Z.mod_pos_bound pid2 (2 ^ 64) ltac:(lia)).
  pose proof (Z.mod_pos_bound id1 (2 ^ 64) ltac:(lia)).
  pose proof (Z.mod_pos_bound id2 (2 ^ 64) ltac:(lia)).
  apply Z2N.inj in Ep, Ei; try lia. auto.
Qed.

Lemma sprint_uniq_filename_inj_witness :
  starts_nondigit ".c" = true /\ starts_nondigit ".c" = true /\
  sprint_uniq_filename 4242 3 "_mjit" ".c" = sprint_uniq_filename 4242 (3 + 2 ^ 64) "_mjit" ".c" /\
  4242 mod 2 ^ 64 = 4242 mod 2 ^ 64 /\ 3 mod 2 ^ 64 = (3 + 2 ^ 64) mod 2 ^ 64 /\
  ".c"%string = ".c"%string.
Proof.
  assert (H1 : starts_nondigit ".c" = true) by reflexivity.
  assert (E : sprint_uniq_filename 4242 3 "_mjit" ".c" =
              sprint_uniq_filename 4242 (3 + 2 ^ 64) "_mjit" ".c") by (vm_compute; reflexivity).
  split; [exact H1|split; [exact H1|split; [exact E|]]].
  exact (sprint_uniq_filename_inj _ _ _ _ _ _ _ H1 H1 E).
Defined.

(** Extra (convert_unit_to_func, mjit_init): units get ids
    [current_unit_num++], non-negative [int]s.  For two units with
    distinct ids, the C files, the shared objects and the function
    names [convert_unit_to_func] builds all differ; a C file is never a
    shared object's name, and the precompiled header [mjit_init] names
    is never a unit's C file or shared object. *)
Theorem unit_names_distinct (pid id1 id2 : Z) :
  0 <= id1 < 2 ^ 31 -> 0 <= id2 < 2 ^ 31 -> id1 <> id2 ->
  unit_c_file pid id1 <> unit_c_file pid id2 /\
  unit_so_file pid id1 <> unit_so_file pid id2 /\
  unit_funcname id1 <> unit_funcname id2 /\
  unit_c_file pid id1 <> unit_so_file pid id2 /\
  unit_c_file pid id1 <> unit_so_file pid id1 /\
  pch_file_name pid <> unit_c_file pid id1 /\
  pch_file_name pid <> unit_so_file pid id1.
Proof.
  intros H1 H2 Hne.
  assert (Hid : forall a b, 0 <= a < 2 ^ 31 -> 0 <= b < 2 ^ 31 -> a mod 2 ^ 64 = b mod 2 ^ 64 -> a = b).
  { intros a b Ha Hb E. rewrite !Z.mod_small in E by lia. exact E. }
  repeat split.
  - intros E. apply sprint_uniq_filename_inj in E as (_ & E & _); [|reflexivity|reflexivity].
    apply Hne, Hid; assumption.
  - intros E. apply sprint_uniq_filename_inj in E as (_ & E & _); [|reflexivity|reflexivity].
    apply Hne, Hid; assumption.
  - intros E. apply Hne, fmt_d_nonneg_inj; try assumption. exact (str_app_cancel_l _ _ _ E).
  - intros E. apply sprint_uniq_filename_inj in E as (_ & _ & E); [discriminate|reflexivity|reflexivity].
  - intros E. apply sprint_uniq_filename_inj in E as (_ & _ & E); [discriminate|reflexivity|reflexivity].
  - intros E. unfold pch_file_name, unit_c_file, sprint_uniq_filename in E.
    apply (f_equal (String.get 10)) in E. cbn [String.get String.append] in E. discriminate.
  - intros E. unfold pch_file_name, unit_so_file, sprint_uniq_filename in E.
    apply (f_equal (String.get 10)) in E. cbn [String.get String.append] in E. discriminate.
Qed.

Lemma unit_names_distinct_witness :
  (0 <= 0 < 2 ^ 31 /\ 0 <= 1 < 2 ^ 31 /\ 0 <> 1) /\
  unit_c_file 4242 0 <> unit_c_file 4242 1 /\
  unit_so_file 4242 0 <> unit_so_file 4242 1 /\
  unit_funcname 0 <> unit_funcname 1 /\
  unit_c_file 4242 0 <> unit_so_file 4242 1 /\
  unit_c_file 4242 0 <> unit_so_file 4242 0 /\
  pch_file_name 4242 <> unit_c_file 4242 0 /\
  pch_file_name 4242 <> unit_so_file 4242 0.
Proof.
  split; [lia|]. apply (unit_names_distinct 4242 0 1); lia.
Defined.

(** Extra (convert_unit_to_func, get_uniq_filename): for a unit id in
    the range of [int], the names [sprintf] writes fit their buffers
    with the terminating NUL: the C file and the shared object in
    [char[70]], the function name in [funcname[35]], and the name of the
    precompiled header in the [char str[70]] of [get_uniq_filename]. *)
Theorem unit_name_buffers (pid unit_id : Z) :
  - 2 ^ 31 <= unit_id < 2 ^ 31 ->
  (String.length (unit_c_file pid unit_id) + 1 <= 70 /\
   String.length (unit_so_file pid unit_id) + 1 <= 70 /\
   String.length (pch_file_name pid) + 1 <= 70 /\
   String.length (unit_funcname unit_id) + 1 <= 35)%nat.
Proof.
  intros _. unfold unit_c_file, unit_so_file, pch_file_name, unit_funcname, sprint_uniq_filename.
  rewrite !str_length_app. cbn [String.length].
  pose proof (fmt_lu_length pid). pose proof (fmt_lu_length unit_id).
  pose proof (fmt_lu_length 0). pose proof (fmt_d_length unit_id). lia.
Qed.

Lemma unit_name_buffers_witness :
  - 2 ^ 31 <= 2 ^ 31 - 1 < 2 ^ 31 /\
  (String.length (unit_c_file (2 ^ 64 - 1) (2 ^ 31 - 1)) + 1 <= 70 /\
   String.length (unit_so_file (2 ^ 64 - 1) (2 ^ 31 - 1)) + 1 <= 70 /\
   String.length (pch_file_name (2 ^ 64 - 1)) + 1 <= 70 /\
   String.length (unit_funcname (2 ^ 31 - 1)) + 1 <= 35)%nat.
Proof.
  split; [lia|]. apply (unit_name_buffers (2 ^ 64 - 1) (2 ^ 31 - 1)). lia.
Defined.

(** Extra (convert_unit_to_func): the loop that prints [pch_file] up to
    [".gch"] prints [p] exactly when [pch_file] is [p] followed by
    [".gch"]; on a name that does not end in [".gch"] it steps past the
    terminating NUL. *)
Theorem print_pch_stem_spec (s p : string) :
  print_pch_stem s = Some p <-> s = (p ++ ".gch")%string.
Proof.
  split.
  - revert p; induction s as [|c s IH]; intros p H; cbn [print_pch_stem] in H.
    + discriminate H.
    + destruct (String.eqb_spec (String c s) ".gch") as [E|E].
      * injection H as <-. exact E.
      * destruct (print_pch_stem s) as [q|] eqn:Hs; cbn in H; [|discriminate H].
        injection H as <-. rewrite (IH q eq_refl). reflexivity.
  - intros ->. induction p as [|c p IH]; [reflexivity|].
    cbn [print_pch_stem String.append].
    destruct (String.eqb_spec (String c (p ++ ".gch")) ".gch") as [E|_].
    + apply (f_equal String.length) in E. cbn [String.length] in E.
      rewrite str_length_app in E. cbn in E. lia.
    + rewrite IH. reflexivity.
Qed.

(** Extra (mjit_init, convert_unit_to_func): with GCC, the C file of
    every unit starts by including the header named like the
    precompiled header of [mjit_init] without its [".gch"]: the one GCC
    replaces by that precompiled header. *)
Theorem c_file_prelude_pch (opts : mjit_options) (pid : Z) :
  opt_llvm opts = false ->
  c_file_prelude opts (pch_file_name pid) =
    Some [("#include " ++ dq ++ sprint_uniq_filename pid 0 "_mjit_h" ".h" ++ dq)%string].
Proof.
  intros L. unfold c_file_prelude. rewrite L.
  assert (E : pch_file_name pid = (sprint_uniq_filename pid 0 "_mjit_h" ".h" ++ ".gch")%string).
  { unfold pch_file_name, sprint_uniq_filename. rewrite <- !str_app_assoc. reflexivity. }
  rewrite E. rewrite (proj2 (print_pch_stem_spec _ _) eq_refl). reflexivity.
Qed.

Lemma c_file_prelude_pch_witness :
  opt_llvm env0.(mjit_opts) = false /\
  c_file_prelude env0.(mjit_opts) (pch_file_name 4242) =
    Some [("#include " ++ dq ++ sprint_uniq_filename 4242 0 "_mjit_h" ".h" ++ dq)%string].
Proof.
  assert (L : opt_llvm env0.(mjit_opts) = false) by reflexivity.
  split; [exact L|exact (c_file_prelude_pch _ 4242 L)].
Defined.

Lemma lseg_same_links h k V V' pr cur l la nx :
  h !! k = Some V -> next V' = next V -> prev V' = prev V ->
  lseg h pr cur l la nx -> lseg (<[k := V']> h) pr cur l la nx.
Proof.
  intros HV Hn Hp. revert pr cur; induction l as [|x l IH]; intros pr cur H; cbn in *; [exact H|].
  destruct H as (-> & U & HU & Hpu & H). split; [reflexivity|].
  destruct (decide (x = k)) as [->|Hne].
  - rewrite HV in HU. injection HU as <-. exists V'. rewrite lookup_insert_eq.
    split; [reflexivity|]. rewrite Hn, Hp. split; [exact Hpu|]. apply IH, H.
  - exists U. rewrite lookup_insert_ne by congruence. auto.
Qed.

(** What [get_from_unit_queue] returns on a well-formed queue: never a
    failure, and a unit only if its iseq is alive, the queue then
    holding the other units. *)
Lemma get_from_unit_queue_live s l :
  repr s l ->
  match get_from_unit_queue s with
  | Some (Some v, s') => is_Some (unit_calls s v) /\
      exists l1 l2, l = l1 ++ v :: l2 /\ repr s' (l1 ++ l2)
  | Some (None, s') => s' = s /\ (forall v, In v l -> unit_calls s v = None)
  | None => False
  end.
Proof.
  intros Hr. pose proof Hr as [Hnd [la Hl]]. unfold get_from_unit_queue.
  destruct (unit_queue s) as [q|] eqn:Hq.
  2:{ split; [reflexivity|]. destruct l as [|v l]; [intros ? []|].
      cbn in Hl. destruct Hl as [E _]. discriminate. }
  rewrite (find_best_spec s _ None (Some q) l la None Hl)
    by (try (pose proof (lseg_length _ _ _ _ _ _ Hnd Hl); lia); discriminate).
  cbn [mbind option_bind]. destruct (best_list s l None) as [u|] eqn:Hb.
  2:{ split; [reflexivity|]. apply best_list_none, Hb. }
  destruct (best_list_first s l u Hb) as (l1 & l2 & cu & -> & Hu & _ & _).
  destruct (remove_spec s l1 u l2 Hr) as (s' & Hrm & Hr' & _ & _).
  rewrite Hrm. cbn. split; [exists cu; exact Hu|]. exists l1, l2. auto.
Qed.

Lemma set_next_fields s p x s' v :
  set_next s p x = Some s' ->
  option_map (fun U => (id U, iseq U)) (units s' !! v) =
    option_map (fun U => (id U, iseq U)) (units s !! v) /\ total_calls s' = total_calls s.
Proof.
  unfold set_next. destruct (units s !! p) as [P|] eqn:HP; cbn; [|discriminate].
  intros E. injection E as <-. cbn. split; [|reflexivity].
  destruct (decide (v = p)) as [->|Hne]; [rewrite lookup_insert_eq, HP; reflexivity|].
  rewrite lookup_insert_ne by congruence. reflexivity.
Qed.

Lemma set_prev_fields s p x s' v :
  set_prev s p x = Some s' ->
  option_map (fun U => (id U, iseq U)) (units s' !! v) =
    option_map (fun U => (id U, iseq U)) (units s !! v) /\ total_calls s' = total_calls s.
Proof.
  unfold set_prev. destruct (units s !! p) as [P|] eqn:HP; cbn; [|discriminate].
  intros E. injection E as <-. cbn. split; [|reflexivity].
  destruct (decide (v = p)) as [->|Hne]; [rewrite lookup_insert_eq, HP; reflexivity|].
  rewrite lookup_insert_ne by congruence. reflexivity.
Qed.

(** [add_to_unit_queue] only relinks units. *)
Lemma add_to_unit_queue_fields u s s' v :
  add_to_unit_queue u s = Some s' ->
  option_map (fun U => (id U, iseq U)) (units s' !! v) =
    option_map (fun U => (id U, iseq U)) (units s !! v) /\ total_calls s' = total_calls s.
Proof.
  unfold add_to_unit_queue. destruct (unit_queue s) as [h|].
  - destruct (find_tail _ s h) as [t|]; cbn; [|discriminate].
    destruct (set_next s t (Some u)) as [s1|] eqn:E1; cbn; [|discriminate]. intros E2.
    destruct (set_prev_fields _ _ _ _ v E2) as [A1 B1].
    destruct (set_next_fields _ _ _ _ v E1) as [A2 B2]. split; congruence.
  - intros E. injection E as <-. split; reflexivity.
Qed.

(** [create_unit] and [add_to_unit_queue], as [mjit_add_iseq_to_process]
    runs them, on a well-formed queue. *)
Lemma create_and_add_spec e l u i :
  units (queue e) !! u = None -> repr (queue e) l ->
  exists q', create_and_add e u i = Some q' /\ repr q' (l ++ [u]) /\
    (exists U, units q' !! u = Some U /\ id U = current_unit_num e /\ iseq U = Some i) /\
    unit_calls q' u = Some (total_calls (queue e) i) /\
    (forall v, v <> u -> unit_calls q' v = unit_calls (queue e) v).
Proof.
  intros Hu [Hnd [la Hl]]. unfold create_and_add.
  set (U := {| id := current_unit_num e; next := None; prev := None; iseq := Some i |}).
  set (s1 := set_units (queue e) (<[u := U]> (units (queue e)))).
  assert (Hnu : ~ In u l) by (intros Hi; destruct (lseg_dom _ _ _ _ _ _ u Hl Hi) as [? E]; congruence).
  assert (Hr1 : repr s1 l) by (split; [exact Hnd|exists la; apply lseg_insert; assumption]).
  assert (HU : units s1 !! u = Some U) by (apply lookup_insert_eq).
  destruct (add_spec s1 l u U Hr1 Hnu HU eq_refl eq_refl) as (q' & Ha & Hr' & Hc).
  exists q'. split; [exact Ha|]. split; [exact Hr'|].
  destruct (add_to_unit_queue_fields u s1 q' u Ha) as [Hf Ht].
  split; [|split].
  - rewrite HU in Hf. destruct (units q' !! u) as [U'|]; cbn in Hf; [|discriminate].
    injection Hf as E1 E2. exists U'. auto.
  - rewrite Hc. unfold unit_calls. rewrite HU. reflexivity.
  - intros v Hv. rewrite Hc. unfold unit_calls. cbn [units set_units s1].
    rewrite lookup_insert_ne by congruence. reflexivity.
Qed.

(** The unit record [mjit_free_iseq] leaves at [w]. *)
Definition freed_unit (W : rb_mjit_unit) : rb_mjit_unit :=
  {| id := id W; next := next W; prev := prev W; iseq := None |}.

Lemma mjit_free_iseq_heap s w W :
  units s !! w = Some W ->
  mjit_free_iseq (Some w) s = Some (set_units s (<[w := freed_unit W]> (units s))).
Proof. intros HW. unfold mjit_free_iseq. rewrite HW. reflexivity. Qed.

Lemma mjit_free_iseq_repr s l w W :
  repr s l -> units s !! w = Some W ->
  repr (set_units s (<[w := freed_unit W]> (units s))) l.
Proof.
  intros [Hnd [la Hl]] HW. split; [exact Hnd|]. exists la. cbn [units set_units unit_queue].
  eapply lseg_same_links; [exact HW|reflexivity|reflexivity|exact Hl].
Qed.

(** Heaps with the same ids and iseqs give the same call counts and the
    same allocated units. *)
Lemma fields_calls s s' v :
  option_map (fun U => (id U, iseq U)) (units s' !! v) =
    option_map (fun U => (id U, iseq U)) (units s !! v) ->
  total_calls s' = total_calls s ->
  unit_calls s' v = unit_calls s v /\ (is_Some (units s' !! v) <-> is_Some (units s !! v)).
Proof.
  intros Hf Ht. unfold unit_calls. rewrite Ht.
  destruct (units s' !! v) as [U'|], (units s !! v) as [U|]; cbn in Hf; try discriminate.
  - injection Hf as _ Hi. cbn. rewrite Hi. split; [reflexivity|split; intros; eexists; reflexivity].
  - split; [reflexivity|split; intros [? E]; discriminate E].
Qed.

Lemma opt_bind_some {A B} (o : option A) (k : A -> option B) r :
  (x ← o; k x) = Some r -> exists x, o = Some x /\ k x = Some r.
Proof. destruct o as [x|]; cbn; [intros E; exists x; auto|discriminate]. Qed.

(** [remove_from_unit_queue] only relinks units. *)
Lemma remove_from_unit_queue_fields u s s' v :
  remove_from_unit_queue u s = Some s' ->
  option_map (fun U => (id U, iseq U)) (units s' !! v) =
    option_map (fun U => (id U, iseq U)) (units s !! v) /\ total_calls s' = total_calls s.
Proof.
  unfold remove_from_unit_queue. intros E.
  apply opt_bind_some in E as (U & _ & E).
  destruct (prev U), (next U);
    repeat (cbv zeta in E;
            lazymatch type of E with
            | set_next _ _ _ = _ => fail
            | set_prev _ _ _ = _ => fail
            | _ => apply opt_bind_some in E as (? & ? & E)
            end);
    repeat match goal with
    | H : set_next _ _ _ = Some _ |- _ => destruct (set_next_fields _ _ _ _ v H); clear H
    | H : set_prev _ _ _ = Some _ |- _ => destruct (set_prev_fields _ _ _ _ v H); clear H
    | H : Some _ = Some _ |- _ => injection H as <-
    end;
    cbn [units total_calls set_unit_queue] in *; split; congruence.
Qed.

Lemma get_from_unit_queue_fields s x s' v :
  get_from_unit_queue s = Some (x, s') ->
  option_map (fun U => (id U, iseq U)) (units s' !! v) =
    option_map (fun U => (id U, iseq U)) (units s !! v) /\ total_calls s' = total_calls s.
Proof.
  unfold get_from_unit_queue. destruct (unit_queue s).
  - destruct (find_best _ _ _ _) as [[d|]|]; cbn; [|intros E; injection E as _ <-; auto|discriminate].
    destruct (remove_from_unit_queue d s) as [s1|] eqn:Er; cbn; [|discriminate].
    intros E. injection E as _ <-. apply remove_from_unit_queue_fields with d, Er.
  - intros E. injection E as _ <-. auto.
Qed.

(** A unit whose iseq was freed stays allocated with a [NULL] iseq under
    every queue operation, on a well-formed queue. *)
Lemma queue_op_freed u s s' :
  queue_op s s' -> (exists l, repr s l) -> is_Some (units s !! u) -> unit_calls s u = None ->
  (exists l, repr s' l) /\ is_Some (units s' !! u) /\ unit_calls s' u = None.
Proof.
  intros Hop [l Hr] Hu Hc. destruct Hop as [s v s' Hg|e w i s' Hw Ha|s w s' Hf].
  - pose proof (get_from_unit_queue_live s l Hr) as G. rewrite Hg in G.
    destruct (get_from_unit_queue_fields s v s' u Hg) as [F T].
    destruct (fields_calls s s' u F T) as [C D].
    split; [|split; [apply D, Hu|rewrite C; exact Hc]].
    destruct v as [v|]; [destruct G as (_ & l1 & l2 & _ & Hr'); eexists; exact Hr'|].
    destruct G as [-> _]. exists l. exact Hr.
  - destruct (create_and_add_spec e l w i Hw Hr) as (q' & Ha' & Hr' & _ & _ & Ho).
    rewrite Ha in Ha'. injection Ha' as <-.
    assert (Hne : u <> w) by (intros ->; destruct Hu as [? E]; congruence).
    split; [eexists; exact Hr'|split; [|rewrite Ho by exact Hne; exact Hc]].
    unfold create_and_add in Ha.
    destruct (add_to_unit_queue_fields _ _ _ u Ha) as [F _]. cbn [units set_units] in F.
    rewrite lookup_insert_ne in F by congruence.
    destruct Hu as [U HU]. rewrite HU in F.
    destruct (units s' !! u); cbn in F; [eexists; reflexivity|discriminate].
  - unfold mjit_free_iseq in Hf. destruct (units s !! w) as [W|] eqn:HW; cbn in Hf; [|discriminate].
    injection Hf as <-. fold (freed_unit W).
    split; [exists l; apply mjit_free_iseq_repr; assumption|].
    unfold unit_calls in *. cbn [units set_units total_calls].
    destruct (decide (u = w)) as [->|Hne].
    + rewrite lookup_insert_eq. split; [eexists; reflexivity|reflexivity].
    + rewrite lookup_insert_ne by congruence. auto.
Qed.

(** Extra (mjit_free_iseq): freeing an iseq whose unit is in the heap
    leaves the queue as it was, the same units in the same order, with
    that unit's iseq [NULL], and the other units' call counts unchanged.
    From then on, whatever queue operations follow ([get_from_unit_queue],
    adding new units, freeing other iseqs), the unit's iseq stays [NULL]
    and [get_from_unit_queue] never fails and never returns that unit. *)
Theorem mjit_free_iseq_spec s l u U :
  repr s l -> units s !! u = Some U ->
  exists s', mjit_free_iseq (Some u) s = Some s' /\ repr s' l /\
    unit_queue s' = unit_queue s /\ unit_calls s' u = None /\
    (forall v, v <> u -> unit_calls s' v = unit_calls s v) /\
    forall s'', rtc queue_op s' s'' ->
      unit_calls s'' u = None /\
      match get_from_unit_queue s'' with
      | Some (Some v, _) => v <> u
      | Some (None, _) => True
      | None => False
      end.
Proof.
  intros Hr HU. rewrite (mjit_free_iseq_heap s u U HU).
  eexists. split; [reflexivity|].
  set (s' := set_units s _).
  assert (Hr' : repr s' l) by (apply mjit_free_iseq_repr; assumption).
  assert (Hcu : unit_calls s' u = None).
  { unfold unit_calls. cbn [s' units set_units]. rewrite lookup_insert_eq. reflexivity. }
  split; [exact Hr'|]. split; [reflexivity|]. split; [exact Hcu|]. split.
  - intros v Hv. unfold unit_calls. cbn [s' units set_units total_calls].
    rewrite lookup_insert_ne by congruence. reflexivity.
  - intros s'' Hops.
    assert (Inv : (exists l, repr s'' l) /\ is_Some (units s'' !! u) /\ unit_calls s'' u = None).
    { assert (H0 : (exists l, repr s' l) /\ is_Some (units s' !! u) /\ unit_calls s' u = None).
      { split; [exists l; exact Hr'|split; [|exact Hcu]].
        cbn [s' units set_units]. rewrite lookup_insert_eq. eexists; reflexivity. }
      clear Hr' Hcu. induction Hops as [x|x y z Hxy _ IH]; [exact H0|].
      apply IH. destruct H0 as (H1 & H2 & H3). apply (queue_op_freed u x y Hxy H1 H2 H3). }
    destruct Inv as ([l'' Hr''] & _ & Hc'').
    split; [exact Hc''|].
    pose proof (get_from_unit_queue_live s'' l'' Hr'') as G.
    destruct (get_from_unit_queue s'') as [[[v|] s3]|]; [|exact I|exact G].
    destruct G as [[c Hc] _]. intros ->. congruence.
Qed.

Lemma mjit_free_iseq_spec_witness :
  (repr q0 [1; 2; 3] /\ units q0 !! 3 = Some {| id := 2; next := None; prev := Some 2; iseq := Some 30 |}) /\
  exists s', mjit_free_iseq (Some 3) q0 = Some s' /\ repr s' [1; 2; 3] /\
    unit_queue s' = unit_queue q0 /\ unit_calls s' 3 = None /\
    (forall v, v <> 3 -> unit_calls s' v = unit_calls q0 v) /\
    forall s'', rtc queue_op s' s'' ->
      unit_calls s'' 3 = None /\
      match get_from_unit_queue s'' with
      | Some (Some v, _) => v <> 3
      | Some (None, _) => True
      | None => False
      end.
Proof.
  assert (H : repr q0 [1; 2; 3]) by repr_solve.
  assert (HU : units q0 !! 3 = Some {| id := 2; next := None; prev := Some 2; iseq := Some 30 |})
    by reflexivity.
  split; [split; [exact H|exact HU]|exact (mjit_free_iseq_spec q0 [1; 2; 3] 3 _ H HU)].
Defined.

(** Extra (mjit_add_iseq_to_process, create_unit, add_to_unit_queue):
    when the client is outside the GC hooks and the mutex is free,
    adding an iseq to a well-formed queue never fails: the new unit,
    numbered [current_unit_num], which then goes up by one, holds the
    iseq and is appended at the tail, and the other units' call counts
    do not change. *)
Theorem add_iseq_to_process_spec e l u i :
  c_pc e = C_IDLE -> mutex e = None -> units (queue e) !! u = None -> repr (queue e) l ->
  exists q', step e (with_queue e q' (current_unit_num e + 1)) /\ repr q' (l ++ [u]) /\
    (exists U, units q' !! u = Some U /\ id U = current_unit_num e /\ iseq U = Some i) /\
    unit_calls q' u = Some (total_calls (queue e) i) /\
    (forall v, v <> u -> unit_calls q' v = unit_calls (queue e) v).
Proof.
  intros Hc Hm Hu Hr.
  destruct (create_and_add_spec e l u i Hu Hr) as (q' & Ha & Hr' & HU & Hcu & Hcv).
  exists q'. split; [eapply c_add; eassumption|]. auto.
Qed.

Lemma add_iseq_to_process_spec_witness :
  (c_pc (engine_init q0) = C_IDLE /\ mutex (engine_init q0) = None /\
   units (queue (engine_init q0)) !! 4 = None /\ repr (queue (engine_init q0)) [1; 2; 3]) /\
  exists q', step (engine_init q0) (with_queue (engine_init q0) q' (current_unit_num (engine_init q0) + 1)) /\
    repr q' ([1; 2; 3] ++ [4]) /\
    (exists U, units q' !! 4 = Some U /\ id U = current_unit_num (engine_init q0) /\ iseq U = Some 40) /\
    unit_calls q' 4 = Some (total_calls (queue (engine_init q0)) 40) /\
    (forall v, v <> 4 -> unit_calls q' v = unit_calls (queue (engine_init q0)) v).
Proof.
  assert (H1 : c_pc (engine_init q0) = C_IDLE) by reflexivity.
  assert (H2 : mutex (engine_init q0) = None) by reflexivity.
  assert (H3 : units (queue (engine_init q0)) !! 4 = None) by reflexivity.
  assert (H4 : repr (queue (engine_init q0)) [1; 2; 3]) by (cbn [queue engine_init]; repr_solve).
  split; [auto|exact (add_iseq_to_process_spec _ _ 4 40 H1 H2 H3 H4)].
Defined.

(** Extra (add_to_unit_queue, get_from_unit_queue): a unit that
    [mjit_add_iseq_to_process] adds to an empty queue is the one the
    worker's next [get_from_unit_queue] returns, and the queue is empty
    again afterwards. *)
Theorem add_then_get_empty e u i :
  repr (queue e) [] -> units (queue e) !! u = None ->
  exists q' q'', create_and_add e u i = Some q' /\
    get_from_unit_queue q' = Some (Some u, q'') /\ repr q'' [] /\ unit_queue q'' = None.
Proof.
  intros Hr Hu.
  destruct (create_and_add_spec e [] u i Hu Hr) as (q' & Ha & Hr' & _ & Hcu & _).
  cbn [app] in Hr'. pose proof (get_from_unit_queue_live q' [u] Hr') as G.
  destruct (get_from_unit_queue q') as [[[v|] q'']|] eqn:Eg.
  - destruct G as [_ (l1 & l2 & E & Hr'')].
    destruct l1 as [|x [|y l1]]; cbn in E; injection E as E1 E2; try discriminate.
    subst v l2. exists q', q''. split; [exact Ha|]. split; [exact Eg|].
    split; [exact Hr''|]. destruct Hr'' as [_ [la Hl]]. cbn in Hl. destruct Hl as [_ E]. exact E.
  - destruct G as [_ G]. rewrite (G u (or_introl eq_refl)) in Hcu. discriminate.
  - exact (False_ind _ G).
Qed.

Lemma add_then_get_empty_witness :
  (repr (queue (engine_init {| units := ∅; unit_queue := None; total_calls := fun _ => 0 |})) [] /\
   units (queue (engine_init {| units := ∅; unit_queue := None; total_calls := fun _ => 0 |})) !! 5
     = None) /\
  exists q' q'',
    create_and_add (engine_init {| units := ∅; unit_queue := None; total_calls := fun _ => 0 |}) 5 50
      = Some q' /\
    get_from_unit_queue q' = Some (Some 5, q'') /\ repr q'' [] /\ unit_queue q'' = None.
Proof.
  assert (H1 : repr (queue (engine_init {| units := ∅; unit_queue := None;
                                           total_calls := fun _ => 0 |})) [])
    by (split; [constructor|exists None; cbn; auto]).
  assert (H2 : units (queue (engine_init {| units := ∅; unit_queue := None;
                                            total_calls := fun _ => 0 |})) !! 5 = None)
    by reflexivity.
  split; [split; [exact H1|exact H2]|exact (add_then_get_empty _ 5 50 H1 H2)].
Defined.

Lemma shut_inv_init q : shut_inv (engine_init q).
Proof.
  unfold shut_inv; cbn; repeat split; intros;
    repeat match goal with H : _ \/ _ |- _ => destruct H end; discriminate.
Qed.

Lemma shut_inv_step e e' : shut_inv e -> step e e' -> shut_inv e'.
Proof.
  intros (I1 & I2 & I3 & I4 & I5) Hs; unfold shut_inv.
  destruct Hs; cbn [with_w with_c with_mutex with_flags with_dequeued with_queue with_finish
                    worker_finished w_pc c_pc in_jit mutex];
    repeat match goal with
           | H : w_pc _ = _ |- _ => rewrite H in *; clear H
           | H : c_pc _ = _ |- _ => rewrite H in *; clear H
           | H : mutex _ = _ |- _ => rewrite H in *; clear H
           end;
    try match goal with |- context [match ?u with Some _ => _ | None => _ end] => destruct u end;
    cbn [w_holds c_holds in_jit_section] in *;
    destruct (worker_finished e) eqn:Hwf; try (destruct (proj1 I1 eq_refl) as [Hx|Hx]; discriminate Hx);
    repeat split; intros; repeat match goal with H : _ \/ _ |- _ => destruct H end;
    try reflexivity; try discriminate; try (left; reflexivity); try (right; reflexivity); try tauto.
Qed.

Lemma shut_inv_reachable q e : reachable q e -> shut_inv e.
Proof.
  unfold reachable; intros Hr.
  assert (H0 := shut_inv_init q); revert H0.
  induction Hr as [|x y z Hxy _ IH]; intros H0; [exact H0|].
  apply IH, (shut_inv_step x y H0 Hxy).
Qed.

(** Extra (mjit_finish, worker): once the wait loop of [mjit_finish] is
    over, the worker has set [worker_finished] and no translation is in
    progress ([in_jit] is false).  Since the loop reads [worker_finished]
    without the mutex, the worker may still hold the mutex then, with
    only its [CRITICAL_SECTION_FINISH] left (the only step either thread
    can take); otherwise it has ended, the mutex is free, and no thread
    can take a further step. *)
Theorem finish_worker_state q e :
  reachable q e -> c_pc e = C_DONE ->
  worker_finished e = true /\ in_jit e = false /\
  ((w_pc e = W_DONE /\ mutex e = None /\ forall e', ~ step e e') \/
   (w_pc e = W_UNLOCK_END /\ mutex e = Some Worker /\
    forall e', step e e' -> e' = with_w (with_mutex e None) W_DONE)).
Proof.
  intros Hr Hc. destruct (shut_inv_reachable q e Hr) as (I1 & I2 & I3 & I4 & I5).
  destruct (exit_inv_reachable q e Hr) as (_ & _ & K3).
  pose proof (I2 Hc) as Hwf. pose proof (proj1 I1 Hwf) as Hw.
  split; [exact Hwf|]. split.
  { destruct (in_jit e) eqn:Hj; [|reflexivity]. specialize (I3 eq_refl).
    destruct Hw as [Hw|Hw]; rewrite Hw in I3; discriminate. }
  destruct Hw as [Hw|Hw].
  - right. split; [exact Hw|]. split; [exact (K3 Hw)|].
    intros e' Hs. inversion Hs; subst; try congruence; reflexivity.
  - left. split; [exact Hw|]. split.
    + destruct (mutex e) as [[|]|] eqn:Hm; [| |reflexivity].
      * specialize (I4 eq_refl). rewrite Hw in I4. discriminate.
      * specialize (I5 eq_refl). rewrite Hc in I5. discriminate.
    + intros e' Hs. inversion Hs; congruence.
Qed.

(** The first case is reached: [mjit_finish] returns, and goes on to
    [pthread_mutex_destroy], while the worker holds the mutex. *)
Lemma finish_worker_state_witness :
  exists e, reachable q0 e /\ c_pc e = C_DONE /\ w_pc e = W_UNLOCK_END /\ mutex e = Some Worker /\
    worker_finished e = true /\ in_jit e = false /\
    ((w_pc e = W_DONE /\ mutex e = None /\ forall e', ~ step e e') \/
     (w_pc e = W_UNLOCK_END /\ mutex e = Some Worker /\
      forall e', step e e' -> e' = with_w (with_mutex e None) W_DONE)).
Proof.
  eexists.
  eassert (Hr : reachable q0 _).
  { unfold reachable.
    engine_step c_finish. engine_step w_head_exit. engine_step w_lock_end.
    engine_step w_set_finished. engine_step c_finish_done. apply rtc_refl. }
  split; [exact Hr|split; [reflexivity|split; [reflexivity|split; [reflexivity|]]]].
  exact (finish_worker_state q0 _ Hr eq_refl).
Defined.
